(** * TP_1_GC: rasterization, clipping and 2D transformations

    A shallow embedding of [rasterization.py], [clipping.py],
    [transformation2d.py] and of the scene methods of [main.py]
    ([CartesianPlane]), followed by the properties proved about them.

    Numbers.  Python [int]s are [Z].  Python [float]s are rationals [Q],
    in two readings.  In the modules [Rasterization], [Clipping],
    [Transformation2d] and [Main] arithmetic is exact; they carry the
    properties that rest on comparisons, control flow, integers and
    [round] (to the nearest even integer), which rounding error does not
    change.  Module [Binary64] repeats the functions whose returned values
    depend on rounding, with every operation rounded as binary64 rounds it;
    the properties about those values are stated there.  Division by zero
    raises [ZeroDivisionError] in both.  Equality of rationals is [Qeq]
    (written [==]).

    Effects.  Every function that receives the Tkinter canvas runs in a
    state-and-exception monad over [CartesianPlane]: the canvas items drawn
    so far, the origin and the stored primitive lists are state, and a
    raised exception leaves the state as it was when it was raised. *)

From Stdlib Require Import QArith Qabs Qround Qpower ZArith List String Bool Lia Lqa.
Import ListNotations.
Open Scope Q_scope.

(** ** Python values and control *)

Module Py.

Inductive exn : Type :=
| ZeroDivisionError
| TypeError.

(** [Timeout] stands for a loop that used up its iteration budget. *)
Inductive outcome (A : Type) : Type :=
| Ok (a : A)
| Raise (e : exn)
| Timeout.
Arguments Ok {A} a.
Arguments Raise {A} e.
Arguments Timeout {A}.

Definition M (S A : Type) : Type := S -> outcome A * S.

Definition ret {S A} (a : A) : M S A := fun s => (Ok a, s).

Definition raise {S A} (e : exn) : M S A := fun s => (Raise e, s).

Definition bind {S A B} (m : M S A) (k : A -> M S B) : M S B :=
  fun s =>
    match m s with
    | (Ok a, s') => k a s'
    | (Raise e, s') => (Raise e, s')
    | (Timeout, s') => (Timeout, s')
    end.

Definition timeout {S A} : M S A := fun s => (Timeout, s).

(** [modify f] is a method call that only updates the object. *)
Definition modify {S} (f : S -> S) : M S unit := fun s => (Ok tt, f s).

Definition get {S} : M S S := fun s => (Ok s, s).

(** [for v in l: body v] *)
Fixpoint for_each {S A} (l : list A) (body : A -> M S unit) : M S unit :=
  match l with
  | [] => ret tt
  | v :: l' => bind (body v) (fun _ => for_each l' body)
  end.

(** [out = []; for v in l: out.append(f v)] *)
Fixpoint for_append {S A B} (l : list A) (f : A -> M S B) : M S (list B) :=
  match l with
  | [] => ret []
  | v :: l' =>
      bind (f v) (fun b => bind (for_append l' f) (fun out => ret (b :: out)))
  end.

(** [for _ in range(n): st = body st], the loop variables being [st]. *)
Fixpoint for_range {S St} (n : nat) (body : St -> M S St) (st : St) : M S St :=
  match n with
  | O => ret st
  | Datatypes.S n' => bind (body st) (for_range n' body)
  end.

(** [while cond st: st = body st], allowed at most [fuel] iterations; the
    result also tells how many iterations ran. *)
Fixpoint while {S St} (fuel : nat) (cond : St -> bool) (body : St -> M S St)
         (st : St) : M S (nat * St) :=
  if cond st then
    match fuel with
    | O => timeout
    | Datatypes.S fuel' =>
        bind (body st) (fun st' =>
        bind (while fuel' cond body st') (fun r =>
        ret (Datatypes.S (fst r), snd r)))
    end
  else ret (O, st).

(** [a / b] on numbers. *)
Definition div {S} (a b : Q) : M S Q :=
  if Qeq_dec b 0 then raise ZeroDivisionError else ret (a / b).

(** [round(q)]: nearest integer, ties to the even one. *)
Definition round (q : Q) : Z :=
  let f := Qfloor q in
  match Qcompare (q - inject_Z f) (1 # 2) with
  | Lt => f
  | Gt => (f + 1)%Z
  | Eq => if Z.even f then f else (f + 1)%Z
  end.

(** [a < b], [a <= b] and [a == b] as booleans. *)
Definition ltb (a b : Q) : bool := if Qlt_le_dec a b then true else false.
Definition leb (a b : Q) : bool := if Qlt_le_dec b a then false else true.
Definition eqb (a b : Q) : bool := if Qeq_dec a b then true else false.

(** [max(l)] and [min(l)] of a list: the first greatest (least) element.
    Python raises on an empty list; the callers' lists start with a
    constant. *)
Definition max (l : list Q) : Q :=
  match l with
  | [] => 0
  | a :: t => fold_left (fun m v => if ltb m v then v else m) t a
  end.

Definition min (l : list Q) : Q :=
  match l with
  | [] => 0
  | a :: t => fold_left (fun m v => if ltb v m then v else m) t a
  end.

End Py.

Import Py.

Declare Scope py_scope.
Delimit Scope py_scope with py.
Notation "x <- c ;; k" := (bind c (fun x => k))
  (at level 61, c at next level, right associativity) : py_scope.
Notation "c ;; k" := (bind c (fun _ => k))
  (at level 61, right associativity) : py_scope.
Open Scope py_scope.

(** ** Data model *)

Definition Point : Type := Q * Q.
Definition Line : Type := Point * Point.
Definition Circle : Type := Point * Q.
Definition Color : Type := Z * Z * Z.

(** ** The canvas ([class CartesianPlane(tk.Canvas)], main.py) *)

Module Canvas.

(** What the canvas shows.  [Pixel x y c] is the unit rectangle that
    [draw_pixel] creates, [Segment] is a [create_line] item with its fill
    and tag (the empty string when it has none). *)
Inductive Item : Type :=
| Pixel (x y : Q) (color : Color)
| Segment (x0 y0 x1 y1 : Q) (fill tags : string).

(** The fields of the object that the modelled methods read or write.  A
    stored list may hold [None]: [reflect] stores whatever [reflect_line]
    returned. *)
Record CartesianPlane : Type := mkPlane {
  origin : option (Q * Q);
  winfo_width : Z;
  winfo_height : Z;
  lines : list (option Line);
  circles : list (option Circle);
  items : list Item
}.

Definition set_origin (o : option (Q * Q)) (c : CartesianPlane) :=
  mkPlane o (winfo_width c) (winfo_height c) (lines c) (circles c) (items c).
Definition set_lines (l : list (option Line)) (c : CartesianPlane) :=
  mkPlane (origin c) (winfo_width c) (winfo_height c) l (circles c) (items c).
Definition set_circles (l : list (option Circle)) (c : CartesianPlane) :=
  mkPlane (origin c) (winfo_width c) (winfo_height c) (lines c) l (items c).
Definition set_items (l : list Item) (c : CartesianPlane) :=
  mkPlane (origin c) (winfo_width c) (winfo_height c) (lines c) (circles c) l.

Definition Cmd (A : Type) : Type := M CartesianPlane A.

Definition create (it : Item) : Cmd unit :=
  modify (fun c => set_items (items c ++ [it]) c).

(** [self.create_line(x0, y0, x1, y1, fill=..., tags=...)] *)
Definition create_line (x0 y0 x1 y1 : Q) (fill tags : string) : Cmd unit :=
  create (Segment x0 y0 x1 y1 fill tags).

Definition has_tag (t : string) (it : Item) : bool :=
  match it with
  | Pixel _ _ _ => false
  | Segment _ _ _ _ _ tags => String.eqb tags t
  end.

(** [self.delete("all")] and [self.delete(tag)] *)
Definition delete (what : string) : Cmd unit :=
  if String.eqb what "all"
  then modify (set_items [])
  else modify (fun c => set_items (filter (fun it => negb (has_tag what it)) (items c)) c).

(** main.py 269-272 *)
Definition draw_pixel (x y : Q) (color : Color) : Cmd unit :=
  create (Pixel x y color).

(** [if not self.origin: self.origin = (width / 2, height / 2)] *)
Definition ensure_origin : Cmd (Q * Q) :=
  fun c =>
    match origin c with
    | Some o => (Ok o, c)
    | None =>
        let o := (inject_Z (winfo_width c) / 2, inject_Z (winfo_height c) / 2) in
        (Ok o, set_origin (Some o) c)
    end.

(** main.py 96-100 *)
Definition cartesian_plan_coordinates (x y : Q) : Cmd Point :=
  o <- ensure_origin ;;
  ret (x - fst o, snd o - y).

(** main.py 102-106 *)
Definition get_pixel_coordinates (x y : Q) : Cmd Point :=
  o <- ensure_origin ;;
  ret (x + fst o, snd o - y).

(** main.py 88-94; subscripting [self.origin] while it is [None] raises. *)
Definition draw_axes : Cmd unit :=
  delete "axes" ;;
  c <- get ;;
  let width := inject_Z (winfo_width c) in
  let height := inject_Z (winfo_height c) in
  match origin c with
  | None => raise TypeError
  | Some o =>
      create_line 0 (snd o) width (snd o) "black" "axes" ;;
      create_line (fst o) 0 (fst o) height "black" "axes"
  end.

(** Subscripting or unpacking a stored primitive that is [None]. *)
Definition unpack {A} (v : option A) : Cmd A :=
  match v with
  | Some a => ret a
  | None => raise TypeError
  end.

End Canvas.

Import Canvas.

(** ** rasterization.py *)

Module Rasterization.

(** lines 30-33, the loop variables being [(x, y)] *)
Definition DDA_body (x_incr y_incr : Q) (color : Color) (st : Q * Q) : Cmd (Q * Q) :=
  let x := fst st + x_incr in
  let y := snd st + y_incr in
  draw_pixel (inject_Z (round x)) (inject_Z (round y)) color ;;
  ret (x, y).

(** lines 16-33 *)
Definition draw_DDA_line (x1 y1 x2 y2 : Q) (color : Color) : Cmd unit :=
  let dx := x2 - x1 in
  let dy := y2 - y1 in
  let steps := if ltb (Qabs dy) (Qabs dx) then Qabs dx else Qabs dy in
  x_incr <- div dx steps ;;
  y_incr <- div dy steps ;;
  let x := x1 in
  let y := y1 in
  draw_pixel (inject_Z (round x)) (inject_Z (round y)) color ;;
  for_range (Z.to_nat (round steps)) (DDA_body x_incr y_incr color) (x, y) ;;
  ret tt.

(** lines 74-82, the loop variables being [(decision_p, x, y)] *)
Definition Bresenham_body_x (incE incNE incrx incry : Z) (color : Color)
           (st : Z * Z * Z) : Cmd (Z * Z * Z) :=
  let '(decision_p, x, y) := st in
  let st' :=
    if (decision_p <=? 0)%Z
    then ((decision_p + incE)%Z, (x + incrx)%Z, y)
    else ((decision_p + incNE)%Z, (x + incrx)%Z, (y + incry)%Z) in
  draw_pixel (inject_Z (snd (fst st'))) (inject_Z (snd st')) color ;;
  ret st'.

(** lines 88-96 *)
Definition Bresenham_body_y (incN incNE incrx incry : Z) (color : Color)
           (st : Z * Z * Z) : Cmd (Z * Z * Z) :=
  let '(decision_p, x, y) := st in
  let st' :=
    if (decision_p <=? 0)%Z
    then ((decision_p + incN)%Z, x, (y + incry)%Z)
    else ((decision_p + incNE)%Z, (x + incrx)%Z, (y + incry)%Z) in
  draw_pixel (inject_Z (snd (fst st'))) (inject_Z (snd st')) color ;;
  ret st'.

(** lines 51-96 *)
Definition draw_Bresenham_line (x_initial y_initial x_final y_final : Z)
           (color : Color) : Cmd unit :=
  let dx := Z.abs (x_final - x_initial) in
  let dy := Z.abs (y_final - y_initial) in
  let incrx := if (x_initial <? x_final)%Z then 1%Z else (-1)%Z in
  let incry := if (y_initial <? y_final)%Z then 1%Z else (-1)%Z in
  let x := x_initial in
  let y := y_initial in
  draw_pixel (inject_Z x) (inject_Z y) color ;;
  if (dy <? dx)%Z then
    let decision_p := (2 * dy - dx)%Z in
    let incE := (2 * dy)%Z in
    let incNE := (2 * (dy - dx))%Z in
    for_range (Z.to_nat dx) (Bresenham_body_x incE incNE incrx incry color)
              (decision_p, x, y) ;;
    ret tt
  else
    let decision_p := (2 * dx - dy)%Z in
    let incN := (2 * dx)%Z in
    let incNE := (2 * (dx - dy))%Z in
    for_range (Z.to_nat dy) (Bresenham_body_y incN incNE incrx incry color)
              (decision_p, x, y) ;;
    ret tt.

(** lines 114-121 *)
Definition plot_circumference_points (xc x yc y : Q) (color : Color) : Cmd unit :=
  draw_pixel (xc - x) (yc + y) color ;;
  draw_pixel (xc + x) (yc - y) color ;;
  draw_pixel (xc + x) (yc + y) color ;;
  draw_pixel (xc - x) (yc - y) color ;;
  draw_pixel (xc + y) (yc + x) color ;;
  draw_pixel (xc - y) (yc + x) color ;;
  draw_pixel (xc + y) (yc - x) color ;;
  draw_pixel (xc - y) (yc - x) color.

(** line 142, the loop variables being [(x, y, p)] *)
Definition circle_cond (st : Q * Q * Q) : bool :=
  let '(x, y, p) := st in ltb x y.

(** lines 143-149 *)
Definition circle_body (xc yc : Q) (color : Color) (st : Q * Q * Q) : Cmd (Q * Q * Q) :=
  let '(x, y, p) := st in
  let '(y, p) :=
    if ltb p 0
    then (y, p + 4 * x + 6)
    else (y - 1, p + 4 * (x - y) + 10) in
  let x := x + 1 in
  plot_circumference_points xc x yc y color ;;
  ret (x, y, p).

(** lines 138-149 with the [while] loop given [fuel] iterations; returns
    the number of iterations the loop made. *)
Definition draw_Bresenham_circle_loop (fuel : nat) (xc yc r : Q) (color : Color)
  : Cmd nat :=
  let x := 0 in
  let y := r in
  let p := 3 - 2 * r in
  plot_circumference_points xc x yc y color ;;
  res <- while fuel circle_cond (circle_body xc yc color) (x, y, p) ;;
  ret (fst res).

(** Iterations granted to the loop of a circle of radius [r]: [y - x]
    starts at [r] and loses at least one per iteration. *)
Definition circle_fuel (r : Q) : nat := Z.to_nat (Qceiling r).

(** lines 138-149 *)
Definition draw_Bresenham_circle (xc yc r : Q) (color : Color) : Cmd unit :=
  draw_Bresenham_circle_loop (circle_fuel r) xc yc r color ;;
  ret tt.

End Rasterization.

Import Rasterization.

(** ** clipping.py *)

Module Clipping.

Definition INSIDE : Z := 0.
Definition LEFT : Z := 1.
Definition RIGHT : Z := 2.
Definition BOTTOM : Z := 4.
Definition TOP : Z := 8.

(** lines 88-110 *)
Definition region_code (x y x_min x_max y_min y_max : Q) : Z :=
  let code := INSIDE in
  let code :=
    if ltb x x_min then Z.lor code LEFT
    else if ltb x_max x then Z.lor code RIGHT
    else code in
  let code :=
    if ltb y y_min then Z.lor code BOTTOM
    else if ltb y_max y then Z.lor code TOP
    else code in
  code.

(** What a clipper returns: [(True, ((x1, y1), (x2, y2)))] or
    [(False, (None, None))]. *)
Definition ClipResult : Type := bool * (option Point * option Point).

(** The variables the [while True] loop of [clipping_cohen_sutherland]
    reads and assigns. *)
Record cs_vars : Type := mkVars {
  x_initial : Q;
  y_initial : Q;
  x_final : Q;
  y_final : Q;
  code1 : Z;
  code2 : Z;
  line_accepted : bool
}.

Inductive cs_flow : Type :=
| Break (accept : bool)
| Continue (v : cs_vars).

(** [x_min <= x <= x_max and y_min <= y <= y_max] *)
Definition within (x y x_min x_max y_min y_max : Q) : bool :=
  leb x_min x && leb x x_max && leb y_min y && leb y y_max.

(** lines 51-62: the intersection with the boundary [code_out] names *)
Definition cs_intersection (x_min x_max y_min y_max : Q) (v : cs_vars)
           (code_out : Z) : Cmd (Q * Q) :=
  if negb (Z.land code_out TOP =? 0)%Z then
    t <- div ((x_final v - x_initial v) * (y_max - y_initial v))
             (y_final v - y_initial v) ;;
    ret (x_initial v + t, y_max)
  else if negb (Z.land code_out BOTTOM =? 0)%Z then
    t <- div ((x_final v - x_initial v) * (y_min - y_initial v))
             (y_final v - y_initial v) ;;
    ret (x_initial v + t, y_min)
  else if negb (Z.land code_out RIGHT =? 0)%Z then
    t <- div ((y_final v - y_initial v) * (x_max - x_initial v))
             (x_final v - x_initial v) ;;
    ret (x_max, y_initial v + t)
  else if negb (Z.land code_out LEFT =? 0)%Z then
    t <- div ((y_final v - y_initial v) * (x_min - x_initial v))
             (x_final v - x_initial v) ;;
    ret (x_min, y_initial v + t)
  else ret (0, 0).

(** lines 35-77: one pass through the body of the loop *)
Definition cs_iteration (x_min x_max y_min y_max : Q) (v : cs_vars) : Cmd cs_flow :=
  if ((code1 v =? 0)%Z && (code2 v =? 0)%Z)
     || negb (Z.land (code1 v) (code2 v) =? 0)%Z
  then ret (Break true)
  else if negb (Z.land (code1 v) (code2 v) =? 0)%Z
  then ret (Break false)
  else
    let code_out := if negb (code1 v =? 0)%Z then code1 v else code2 v in
    xy <- cs_intersection x_min x_max y_min y_max v code_out ;;
    let '(x, y) := xy in
    let v' :=
      if (code_out =? code1 v)%Z
      then mkVars x y (x_final v) (y_final v)
                  (region_code x y x_min x_max y_min y_max) (code2 v)
                  (line_accepted v)
      else mkVars (x_initial v) (y_initial v) x y
                  (code1 v) (region_code x y x_min x_max y_min y_max)
                  (line_accepted v) in
    let v'' :=
      if within (x_initial v') (y_initial v') x_min x_max y_min y_max
         || within (x_final v') (y_final v') x_min x_max y_min y_max
      then mkVars (x_initial v') (y_initial v') (x_final v') (y_final v')
                  (code1 v') (code2 v') true
      else v' in
    ret (Continue v'').

(** lines 34-77: the loop, allowed [fuel] passes; returns [accept] and the
    variables at the [break]. *)
Fixpoint cs_loop (fuel : nat) (x_min x_max y_min y_max : Q) (v : cs_vars)
  : Cmd (bool * cs_vars) :=
  match fuel with
  | O => timeout
  | S fuel' =>
      flow <- cs_iteration x_min x_max y_min y_max v ;;
      match flow with
      | Break accept => ret (accept, v)
      | Continue v' => cs_loop fuel' x_min x_max y_min y_max v'
      end
  end.

(** lines 22-86.  The two [winfo_*] reads and the [print] calls have no
    effect on the result or on the canvas and are left out. *)
Definition clipping_cohen_sutherland (fuel : nat)
           (x_initial y_initial x_final y_final : Q) (c_initial c_final : Point)
  : Cmd ClipResult :=
  let '(x_min, y_min) := c_initial in
  let '(x_max, y_max) := c_final in
  let code1 := region_code x_initial y_initial x_min x_max y_min y_max in
  let code2 := region_code x_final y_final x_min x_max y_min y_max in
  let accept := false in
  let line_accepted := false in
  r <- cs_loop fuel x_min x_max y_min y_max
         (mkVars x_initial y_initial x_final y_final code1 code2 line_accepted) ;;
  let '(accept, v) := r in
  if accept && Clipping.line_accepted v then
    create_line (Clipping.x_initial v) (Clipping.y_initial v)
                (Clipping.x_final v) (Clipping.y_final v) "red" "" ;;
    ret (true, (Some (Clipping.x_initial v, Clipping.y_initial v),
                Some (Clipping.x_final v, Clipping.y_final v)))
  else ret (false, (None, None)).

(** lines 149-157 and 159-167: one pair of boundaries; [p] and [q] are the
    pair's first entries, [p'] and [q'] its second. *)
Definition lb_pair (p q p' q' : Q) (arrs : list Q * list Q) : Cmd (list Q * list Q) :=
  let '(negarr, posarr) := arrs in
  if negb (eqb p 0) then
    r <- div q p ;;
    r' <- div q' p' ;;
    if ltb p 0
    then ret (negarr ++ [r], posarr ++ [r'])
    else ret (negarr ++ [r'], posarr ++ [r])
  else ret (negarr, posarr).

(** lines 130-184 *)
Definition clipping_liang_barsky (x1 y1 x2 y2 xmin ymin xmax ymax : Q)
  : Cmd ClipResult :=
  let p1 := - (x2 - x1) in
  let p2 := - p1 in
  let p3 := - (y2 - y1) in
  let p4 := - p3 in
  let q1 := x1 - xmin in
  let q2 := xmax - x1 in
  let q3 := y1 - ymin in
  let q4 := ymax - y1 in
  let posarr := [1] in
  let negarr := [0] in
  if (eqb p1 0 && ltb q1 0) || (eqb p2 0 && ltb q2 0)
     || (eqb p3 0 && ltb q3 0) || (eqb p4 0 && ltb q4 0)
  then ret (false, (None, None))
  else
    arrs <- lb_pair p1 q1 p2 q2 (negarr, posarr) ;;
    arrs <- lb_pair p3 q3 p4 q4 arrs ;;
    let '(negarr, posarr) := arrs in
    let rn1 := max negarr in
    let rn2 := min posarr in
    if ltb rn2 rn1 then ret (false, (None, None))
    else
      let xn1 := x1 + p2 * rn1 in
      let yn1 := y1 + p4 * rn1 in
      let xn2 := x1 + p2 * rn2 in
      let yn2 := y1 + p4 * rn2 in
      create_line xn1 yn1 xn2 yn2 "red" "" ;;
      ret (true, (Some (xn1, yn1), Some (xn2, yn2))).

End Clipping.

Import Clipping.

(** ** transformation2d.py *)

Module Transformation2d.

Definition red : Color := (255, 0, 0)%Z.

(** lines 19-33 *)
Definition translate (tx ty : Q) (lines : option (list (option Line)))
           (circles : option (list (option Circle))) : Cmd unit :=
  let lines := match lines with None => [] | Some l => l end in
  let circles := match circles with None => [] | Some l => l end in
  delete "all" ;;
  draw_axes ;;
  for_each lines (fun line =>
    l <- unpack line ;;
    draw_DDA_line (fst (fst l) + tx) (snd (fst l) + ty)
                  (fst (snd l) + tx) (snd (snd l) + ty) red) ;;
  for_each circles (fun circle =>
    c <- unpack circle ;;
    draw_pixel (fst (fst c) + tx) (snd (fst c) + ty) red ;;
    draw_Bresenham_circle (fst (fst c) + tx) (snd (fst c) + ty) (snd c) red).

(** lines 48-71.  [math.radians], [math.cos] and [math.sin] belong to the
    Python library; the function is modelled for any three functions on
    numbers in their place.  The canvas argument is not used. *)
Section Rotate.

Variables math_radians math_cos math_sin : Q -> Q.

Definition rotate (line : Line) (angle : Q) : (Z * Z) * (Z * Z) :=
  let '(x1, y1) := fst line in
  let '(x2, y2) := snd line in
  let '(pivot_x, pivot_y) := (x1, y1) in
  let angle_rad := math_radians angle in
  let c := math_cos angle_rad in
  let s := math_sin angle_rad in
  let x2 := x2 - pivot_x in
  let y2 := y2 - pivot_y in
  let new_x2 := x2 * c - y2 * s in
  let new_y2 := x2 * s + y2 * c in
  let new_x2 := new_x2 + pivot_x in
  let new_y2 := new_y2 + pivot_y in
  ((round x1, round y1), (round new_x2, round new_y2)).

End Rotate.

(** lines 86-100; the canvas argument is not used. *)
Definition scale_line (line : Line) (scale_factor : Q) : Line :=
  let '((x1, y1), (x2, y2)) := line in
  let dx := x2 - x1 in
  let dy := y2 - y1 in
  let dx_scaled := dx * scale_factor in
  let dy_scaled := dy * scale_factor in
  let x2_new := x1 + dx_scaled in
  let y2_new := y1 + dy_scaled in
  ((x1, y1), (x2_new, y2_new)).

(** lines 115-120; the canvas argument is not used. *)
Definition scale_circle (circle : Circle) (scale_factor : Q) : Circle :=
  let '((xc, yc), r) := circle in
  let r_scaled := r * scale_factor in
  ((xc, yc), r_scaled).

(** lines 135-144; falling off the end of the function returns [None]. *)
Definition reflect_line (line : Line) (axis : string) : Cmd (option Line) :=
  let '((x1, y1), (x2, y2)) := line in
  p1 <- cartesian_plan_coordinates x1 y1 ;;
  p2 <- cartesian_plan_coordinates x2 y2 ;;
  let '(x1, y1) := p1 in
  let '(x2, y2) := p2 in
  if String.eqb axis "X" then
    a <- get_pixel_coordinates x1 (- y1) ;;
    b <- get_pixel_coordinates x2 (- y2) ;;
    ret (Some (a, b))
  else if String.eqb axis "Y" then
    a <- get_pixel_coordinates (- x1) y1 ;;
    b <- get_pixel_coordinates (- x2) y2 ;;
    ret (Some (a, b))
  else if String.eqb axis "XY" then
    a <- get_pixel_coordinates (- x1) (- y1) ;;
    b <- get_pixel_coordinates (- x2) (- y2) ;;
    ret (Some (a, b))
  else ret None.

(** lines 159-167 *)
Definition reflect_circle (circle : Circle) (axis : string) : Cmd (option Circle) :=
  let '((xc, yc), r) := circle in
  p <- cartesian_plan_coordinates xc yc ;;
  let '(xc, yc) := p in
  if String.eqb axis "X" then
    a <- get_pixel_coordinates xc (- yc) ;;
    ret (Some (a, r))
  else if String.eqb axis "Y" then
    a <- get_pixel_coordinates (- xc) yc ;;
    ret (Some (a, r))
  else if String.eqb axis "XY" then
    a <- get_pixel_coordinates (- xc) (- yc) ;;
    ret (Some (a, r))
  else ret None.

End Transformation2d.

Import Transformation2d.

(** ** main.py: the scene methods of [CartesianPlane] and [App] *)

Module Main.

Definition black : Color := (0, 0, 0)%Z.

(** lines 194-196 *)
Definition translate_points (delta_x delta_y : Q) : Cmd unit :=
  self <- get ;;
  translate delta_x delta_y (Some (lines self)) (Some (circles self)).

(** The two drawing loops that end [rotate_lines], [scale] and [reflect]
    (lines 208-212, 232-236, 261-267). *)
Definition draw_stored : Cmd unit :=
  self <- get ;;
  for_each (lines self) (fun line =>
    l <- unpack line ;;
    draw_DDA_line (fst (fst l)) (snd (fst l)) (fst (snd l)) (snd (snd l)) black) ;;
  self <- get ;;
  for_each (circles self) (fun circle =>
    c <- unpack circle ;;
    draw_pixel (fst (fst c)) (snd (fst c)) black ;;
    draw_Bresenham_circle (fst (fst c)) (snd (fst c)) (snd c) black).

(** lines 214-236 *)
Definition scale (factor : Q) : Cmd unit :=
  self <- get ;;
  scaled_lines <- for_append (lines self) (fun line =>
    l <- unpack line ;;
    ret (Some (scale_line l factor))) ;;
  scaled_circles <- for_append (circles self) (fun circle =>
    c <- unpack circle ;;
    ret (Some (scale_circle c factor))) ;;
  delete "all" ;;
  draw_axes ;;
  modify (set_lines scaled_lines) ;;
  modify (set_circles scaled_circles) ;;
  draw_stored.

(** lines 238-267 *)
Definition reflect (axis : string) : Cmd unit :=
  self <- get ;;
  reflected_lines <- for_append (lines self) (fun line =>
    l <- unpack line ;;
    reflect_line l axis) ;;
  reflected_circles <- for_append (circles self) (fun circle =>
    c <- unpack circle ;;
    reflect_circle c axis) ;;
  delete "all" ;;
  draw_axes ;;
  modify (set_lines reflected_lines) ;;
  modify (set_circles reflected_circles) ;;
  draw_stored.

(** lines 445-448, [axis] being what the dialog returned *)
Definition reflect_popup (axis : option string) : Cmd unit :=
  match axis with
  | Some a =>
      if existsb (String.eqb a) ["X"; "Y"; "XY"]%string
      then reflect a
      else ret tt
  | None => ret tt
  end.

Section RotateLines.

Variables math_radians math_cos math_sin : Q -> Q.

(** lines 198-212; the list is assigned before the canvas is cleared, and
    holds the integers that [rotate] returns. *)
Definition rotate_lines (angle : Q) : Cmd unit :=
  self <- get ;;
  rotated_lines <- for_append (lines self) (fun line =>
    l <- unpack line ;;
    ret (Some (let rotated_line := rotate math_radians math_cos math_sin l angle in
               ((inject_Z (fst (fst rotated_line)), inject_Z (snd (fst rotated_line))),
                (inject_Z (fst (snd rotated_line)), inject_Z (snd (snd rotated_line))))))) ;;
  modify (set_lines rotated_lines) ;;
  delete "all" ;;
  draw_axes ;;
  draw_stored.

End RotateLines.

End Main.

Import Main.

(** ** Floating point

    Python's [float] is the binary64 format: every arithmetic operation
    returns the exact result rounded to 53 significant bits, to the nearest
    representable number, a tie going to the one whose last bit is even.
    The functions of this module are those of [Clipping], the coordinate
    conversions of [Canvas] and the reflections and scalings of
    [Transformation2d], with that rounding after every operation;
    comparisons and negation are exact.  The exponent
    is not bounded: the model is binary64 for results whose magnitude is
    between 2^-1022 and 2^1024, far beyond pixel coordinates on both sides.
    An integer of magnitude up to 2^53 is a float, and Python's arithmetic
    on such integers gives the same values as this arithmetic on them. *)

Module Binary64.

(** For [0 < x], the exponent [e] with [2^e <= x < 2^(e+1)]. *)
Definition ilog2 (x : Q) : Z :=
  let e0 := (Z.log2 (Qnum x) - Z.log2 (Zpos (Qden x)))%Z in
  if Qle_bool (2 ^ e0) x then e0 else (e0 - 1)%Z.

(** The float nearest to [x]: [x] is scaled into [[2^52, 2^53)], rounded to
    an integer as [round] does (ties to even), and scaled back. *)
Definition rnd (x : Q) : Q :=
  if Qeq_bool x 0 then 0
  else
    let e := ilog2 (Qabs x) in
    inject_Z (round (x * 2 ^ (52 - e))) * 2 ^ (e - 52).

(** [a + b], [a - b], [a * b] and [a / b] on floats. *)
Definition add (a b : Q) : Q := rnd (a + b).
Definition sub (a b : Q) : Q := rnd (a - b).
Definition mul (a b : Q) : Q := rnd (a * b).
Definition div {S} (a b : Q) : M S Q :=
  if Qeq_dec b 0 then raise ZeroDivisionError else ret (rnd (a / b)).

(** clipping.py lines 51-62 *)
Definition cs_intersection (x_min x_max y_min y_max : Q) (v : cs_vars)
           (code_out : Z) : Cmd (Q * Q) :=
  if negb (Z.land code_out TOP =? 0)%Z then
    t <- div (mul (sub (x_final v) (x_initial v)) (sub y_max (y_initial v)))
             (sub (y_final v) (y_initial v)) ;;
    ret (add (x_initial v) t, y_max)
  else if negb (Z.land code_out BOTTOM =? 0)%Z then
    t <- div (mul (sub (x_final v) (x_initial v)) (sub y_min (y_initial v)))
             (sub (y_final v) (y_initial v)) ;;
    ret (add (x_initial v) t, y_min)
  else if negb (Z.land code_out RIGHT =? 0)%Z then
    t <- div (mul (sub (y_final v) (y_initial v)) (sub x_max (x_initial v)))
             (sub (x_final v) (x_initial v)) ;;
    ret (x_max, add (y_initial v) t)
  else if negb (Z.land code_out LEFT =? 0)%Z then
    t <- div (mul (sub (y_final v) (y_initial v)) (sub x_min (x_initial v)))
             (sub (x_final v) (x_initial v)) ;;
    ret (x_min, add (y_initial v) t)
  else ret (0, 0).

(** clipping.py lines 35-77 *)
Definition cs_iteration (x_min x_max y_min y_max : Q) (v : cs_vars) : Cmd cs_flow :=
  if ((code1 v =? 0)%Z && (code2 v =? 0)%Z)
     || negb (Z.land (code1 v) (code2 v) =? 0)%Z
  then ret (Break true)
  else if negb (Z.land (code1 v) (code2 v) =? 0)%Z
  then ret (Break false)
  else
    let code_out := if negb (code1 v =? 0)%Z then code1 v else code2 v in
    xy <- cs_intersection x_min x_max y_min y_max v code_out ;;
    let '(x, y) := xy in
    let v' :=
      if (code_out =? code1 v)%Z
      then mkVars x y (x_final v) (y_final v)
                  (region_code x y x_min x_max y_min y_max) (code2 v)
                  (line_accepted v)
      else mkVars (x_initial v) (y_initial v) x y
                  (code1 v) (region_code x y x_min x_max y_min y_max)
                  (line_accepted v) in
    let v'' :=
      if within (x_initial v') (y_initial v') x_min x_max y_min y_max
         || within (x_final v') (y_final v') x_min x_max y_min y_max
      then mkVars (x_initial v') (y_initial v') (x_final v') (y_final v')
                  (code1 v') (code2 v') true
      else v' in
    ret (Continue v'').

(** clipping.py lines 34-77 *)
Fixpoint cs_loop (fuel : nat) (x_min x_max y_min y_max : Q) (v : cs_vars)
  : Cmd (bool * cs_vars) :=
  match fuel with
  | O => timeout
  | S fuel' =>
      flow <- cs_iteration x_min x_max y_min y_max v ;;
      match flow with
      | Break accept => ret (accept, v)
      | Continue v' => cs_loop fuel' x_min x_max y_min y_max v'
      end
  end.

(** clipping.py lines 22-86 *)
Definition clipping_cohen_sutherland (fuel : nat)
           (x_initial y_initial x_final y_final : Q) (c_initial c_final : Point)
  : Cmd ClipResult :=
  let '(x_min, y_min) := c_initial in
  let '(x_max, y_max) := c_final in
  let code1 := region_code x_initial y_initial x_min x_max y_min y_max in
  let code2 := region_code x_final y_final x_min x_max y_min y_max in
  let accept := false in
  let line_accepted := false in
  r <- cs_loop fuel x_min x_max y_min y_max
         (mkVars x_initial y_initial x_final y_final code1 code2 line_accepted) ;;
  let '(accept, v) := r in
  if accept && Clipping.line_accepted v then
    create_line (Clipping.x_initial v) (Clipping.y_initial v)
                (Clipping.x_final v) (Clipping.y_final v) "red" "" ;;
    ret (true, (Some (Clipping.x_initial v, Clipping.y_initial v),
                Some (Clipping.x_final v, Clipping.y_final v)))
  else ret (false, (None, None)).

(** clipping.py lines 149-157 and 159-167 *)
Definition lb_pair (p q p' q' : Q) (arrs : list Q * list Q) : Cmd (list Q * list Q) :=
  let '(negarr, posarr) := arrs in
  if negb (eqb p 0) then
    r <- div q p ;;
    r' <- div q' p' ;;
    if ltb p 0
    then ret (negarr ++ [r], posarr ++ [r'])
    else ret (negarr ++ [r'], posarr ++ [r])
  else ret (negarr, posarr).

(** clipping.py lines 130-184 *)
Definition clipping_liang_barsky (x1 y1 x2 y2 xmin ymin xmax ymax : Q)
  : Cmd ClipResult :=
  let p1 := - (sub x2 x1) in
  let p2 := - p1 in
  let p3 := - (sub y2 y1) in
  let p4 := - p3 in
  let q1 := sub x1 xmin in
  let q2 := sub xmax x1 in
  let q3 := sub y1 ymin in
  let q4 := sub ymax y1 in
  let posarr := [1] in
  let negarr := [0] in
  if (eqb p1 0 && ltb q1 0) || (eqb p2 0 && ltb q2 0)
     || (eqb p3 0 && ltb q3 0) || (eqb p4 0 && ltb q4 0)
  then ret (false, (None, None))
  else
    arrs <- lb_pair p1 q1 p2 q2 (negarr, posarr) ;;
    arrs <- lb_pair p3 q3 p4 q4 arrs ;;
    let '(negarr, posarr) := arrs in
    let rn1 := max negarr in
    let rn2 := min posarr in
    if ltb rn2 rn1 then ret (false, (None, None))
    else
      let xn1 := add x1 (mul p2 rn1) in
      let yn1 := add y1 (mul p4 rn1) in
      let xn2 := add x1 (mul p2 rn2) in
      let yn2 := add y1 (mul p4 rn2) in
      create_line xn1 yn1 xn2 yn2 "red" "" ;;
      ret (true, (Some (xn1, yn1), Some (xn2, yn2))).

(** main.py 98-99 and 104-105: [width / 2] of two integers is a float *)
Definition ensure_origin : Cmd (Q * Q) :=
  fun c =>
    match origin c with
    | Some o => (Ok o, c)
    | None =>
        let o := (rnd (inject_Z (winfo_width c) / 2), rnd (inject_Z (winfo_height c) / 2)) in
        (Ok o, set_origin (Some o) c)
    end.

(** main.py 96-100 *)
Definition cartesian_plan_coordinates (x y : Q) : Cmd Point :=
  o <- ensure_origin ;;
  ret (sub x (fst o), sub (snd o) y).

(** main.py 102-106 *)
Definition get_pixel_coordinates (x y : Q) : Cmd Point :=
  o <- ensure_origin ;;
  ret (add x (fst o), sub (snd o) y).

(** transformation2d.py 135-144 *)
Definition reflect_line (line : Line) (axis : string) : Cmd (option Line) :=
  let '((x1, y1), (x2, y2)) := line in
  p1 <- cartesian_plan_coordinates x1 y1 ;;
  p2 <- cartesian_plan_coordinates x2 y2 ;;
  let '(x1, y1) := p1 in
  let '(x2, y2) := p2 in
  if String.eqb axis "X" then
    a <- get_pixel_coordinates x1 (- y1) ;;
    b <- get_pixel_coordinates x2 (- y2) ;;
    ret (Some (a, b))
  else if String.eqb axis "Y" then
    a <- get_pixel_coordinates (- x1) y1 ;;
    b <- get_pixel_coordinates (- x2) y2 ;;
    ret (Some (a, b))
  else if String.eqb axis "XY" then
    a <- get_pixel_coordinates (- x1) (- y1) ;;
    b <- get_pixel_coordinates (- x2) (- y2) ;;
    ret (Some (a, b))
  else ret None.

(** transformation2d.py 159-167 *)
Definition reflect_circle (circle : Circle) (axis : string) : Cmd (option Circle) :=
  let '((xc, yc), r) := circle in
  p <- cartesian_plan_coordinates xc yc ;;
  let '(xc, yc) := p in
  if String.eqb axis "X" then
    a <- get_pixel_coordinates xc (- yc) ;;
    ret (Some (a, r))
  else if String.eqb axis "Y" then
    a <- get_pixel_coordinates (- xc) yc ;;
    ret (Some (a, r))
  else if String.eqb axis "XY" then
    a <- get_pixel_coordinates (- xc) (- yc) ;;
    ret (Some (a, r))
  else ret None.

(** transformation2d.py 86-100 *)
Definition scale_line (line : Line) (scale_factor : Q) : Line :=
  let '((x1, y1), (x2, y2)) := line in
  let dx := sub x2 x1 in
  let dy := sub y2 y1 in
  let dx_scaled := mul dx scale_factor in
  let dy_scaled := mul dy scale_factor in
  let x2_new := add x1 dx_scaled in
  let y2_new := add y1 dy_scaled in
  ((x1, y1), (x2_new, y2_new)).

(** transformation2d.py 115-120 *)
Definition scale_circle (circle : Circle) (scale_factor : Q) : Circle :=
  let '((xc, yc), r) := circle in
  let r_scaled := mul r scale_factor in
  ((xc, yc), r_scaled).

End Binary64.

(** ** Vocabulary of the statements *)

Definition Point_eq (p q : Point) : Prop := fst p == fst q /\ snd p == snd q.

(** [p] lies in the closed window [[x_min, x_max] x [y_min, y_max]]. *)
Definition in_window (x_min x_max y_min y_max : Q) (p : Point) : Prop :=
  (x_min <= fst p /\ fst p <= x_max) /\ (y_min <= snd p /\ snd p <= y_max).

(** The primitives the translate operation is meant to store. *)
Definition translated_line (tx ty : Q) (l : Line) : Line :=
  ((fst (fst l) + tx, snd (fst l) + ty), (fst (snd l) + tx, snd (snd l) + ty)).

Definition translated_circle (tx ty : Q) (c : Circle) : Circle :=
  ((fst (fst c) + tx, snd (fst c) + ty), snd c).

Definition valid_axis (axis : string) : Prop :=
  axis = "X"%string \/ axis = "Y"%string \/ axis = "XY"%string.

(** The eight pixels of one [plot_circumference_points] call all fall on
    [(xc, yc)]. *)
Definition Pixel_at (xc yc : Q) (it : Item) : Prop :=
  match it with
  | Pixel x y _ => x == xc /\ y == yc
  | Segment _ _ _ _ _ _ => False
  end.

(** A canvas of 800 by 600 pixels before its first resize event: no origin
    yet, nothing stored, nothing drawn. *)
Definition blank_canvas : CartesianPlane := mkPlane None 800 600 [] [] [].

(** A command leaves the stored primitives alone, whatever it draws and
    whether or not it raises. *)
Definition keeps_stored {A : Type} (m : Cmd A) : Prop :=
  forall c, lines (snd (m c)) = lines c /\ circles (snd (m c)) = circles c.

(** A scene with its origin set, one stored line and nothing drawn. *)
Definition one_line_scene : CartesianPlane :=
  mkPlane (Some (400, 300)) 800 600 [Some ((0, 0), (4, 2))] [] [].

(** What holds of the loop variables of [clipping_cohen_sutherland] at the
    head of every pass: the two codes are the region codes of the current
    endpoints, and [line_accepted] is only set once an endpoint is inside. *)
Definition cs_inv (x_min x_max y_min y_max : Q) (v : cs_vars) : Prop :=
  code1 v = region_code (x_initial v) (y_initial v) x_min x_max y_min y_max
  /\ code2 v = region_code (x_final v) (y_final v) x_min x_max y_min y_max
  /\ (line_accepted v = true -> code1 v = 0%Z \/ code2 v = 0%Z).

(** The test of line 36, under which the loop is left. *)
Definition cs_exit (v : cs_vars) : bool :=
  ((code1 v =? 0)%Z && (code2 v =? 0)%Z) || negb (Z.land (code1 v) (code2 v) =? 0)%Z.

(** The point at parameter [t] of the line from [(x1, y1)] to [(x2, y2)]. *)
Definition seg_point (x1 y1 x2 y2 t : Q) : Point :=
  (x1 + (x2 - x1) * t, y1 + (y2 - y1) * t).

(** The canvas item of the pixel at an integer point. *)
Definition pixel_of (color : Color) (p : Z * Z) : Item :=
  Pixel (inject_Z (fst p)) (inject_Z (snd p)) color.

(** Each point of [l] is a neighbour (one of the eight) of the one before
    it, the first being a neighbour of [p]. *)
Fixpoint chain8_from (p : Z * Z) (l : list (Z * Z)) : Prop :=
  match l with
  | [] => True
  | q :: l' =>
      ((Z.abs (fst q - fst p) <= 1)%Z /\ (Z.abs (snd q - snd p) <= 1)%Z /\ q <> p)
      /\ chain8_from q l'
  end.

(** A pixel whose squared distance to [(xc, yc)] differs from [r * r] by at
    most [r]; for [r >= 1] its distance to the center is then strictly
    between [r - 1] and [r + 1]. *)
Definition near_circle (xc yc r : Q) (it : Item) : Prop :=
  match it with
  | Pixel x y _ =>
      r * r - r <= (x - xc) * (x - xc) + (y - yc) * (y - yc)
      /\ (x - xc) * (x - xc) + (y - yc) * (y - yc) <= r * r + r
  | Segment _ _ _ _ _ _ => False
  end.

(** What the loop of [draw_Bresenham_circle] keeps when the radius is an
    integer: [x] and [y] are integers, the decision variable is the closed
    form [2 (x+1)^2 + y^2 + (y-1)^2 - 2 r^2], and [(x, y)] is near the
    circle. *)
Definition circle_inv (r : Q) (st : Q * Q * Q) : Prop :=
  let '(x, y, p) := st in
  (exists a b : Z, x == inject_Z a /\ y == inject_Z b)
  /\ 0 <= x /\ y <= r
  /\ p == 2 * (x + 1) * (x + 1) + y * y + (y - 1) * (y - 1) - 2 * r * r
  /\ r * r - r <= x * x + y * y /\ x * x + y * y <= r * r + r.

Definition Line_eq (l m : Line) : Prop :=
  Point_eq (fst l) (fst m) /\ Point_eq (snd l) (snd m).

Definition Circle_eq (a b : Circle) : Prop :=
  Point_eq (fst a) (fst b) /\ snd a == snd b.

(** The mirror image of a pixel-space point about the horizontal line
    (axis X), the vertical line (axis Y) or the point (axis XY) through
    [o]. *)
Definition mirror (o : Q * Q) (axis : string) (p : Point) : Point :=
  if String.eqb axis "X" then (fst p, 2 * snd o - snd p)
  else if String.eqb axis "Y" then (2 * fst o - fst p, snd p)
  else if String.eqb axis "XY" then (2 * fst o - fst p, 2 * snd o - snd p)
  else p.

(** The number of sides of the window a region code tells the point is
    beyond. *)
Definition code_bits (c : Z) : nat :=
  ((if Z.testbit c 0 then 1 else 0) + (if Z.testbit c 1 then 1 else 0)
   + (if Z.testbit c 2 then 1 else 0) + (if Z.testbit c 3 then 1 else 0))%nat.

(** What a pass of the loop of [clipping_cohen_sutherland] has left to do:
    nothing once the test of line 36 holds, else the sides the two end
    points are still beyond. *)
Definition cs_measure (v : cs_vars) : nat :=
  if cs_exit v then O else (code_bits (code1 v) + code_bits (code2 v))%nat.

(** The current end points of the loop are points of the line from
    [(xa, ya)] to [(xb, yb)], in the order of the line, and every point of
    the line that is in the window lies between them. *)
Definition cs_track (xa ya xb yb x_min x_max y_min y_max : Q) (v : cs_vars) : Prop :=
  exists ta tb,
    (0 <= ta /\ ta <= tb /\ tb <= 1)
    /\ Point_eq (x_initial v, y_initial v) (seg_point xa ya xb yb ta)
    /\ Point_eq (x_final v, y_final v) (seg_point xa ya xb yb tb)
    /\ forall t, 0 <= t -> t <= 1 ->
         in_window x_min x_max y_min y_max (seg_point xa ya xb yb t) ->
         ta <= t /\ t <= tb.

(** What one pass of the loop does: the point [N] it moves an end point to
    is the point at parameter [s] between the current end points, the part
    it cuts off is outside the window, and [N] is beyond fewer sides than
    the end point it replaces, unless it is beyond a side the other end
    point is beyond too. *)
Definition cs_clip_ok (x_min x_max y_min y_max : Q) (v : cs_vars) (N : Point) (s : Q) : Prop :=
  (0 <= s /\ s <= 1)
  /\ Point_eq N (seg_point (x_initial v) (y_initial v) (x_final v) (y_final v) s)
  /\ (code1 v <> 0%Z ->
      forall r, 0 <= r -> r < s ->
        ~ in_window x_min x_max y_min y_max
            (seg_point (x_initial v) (y_initial v) (x_final v) (y_final v) r))
  /\ (code1 v = 0%Z ->
      forall r, s < r -> r <= 1 ->
        ~ in_window x_min x_max y_min y_max
            (seg_point (x_initial v) (y_initial v) (x_final v) (y_final v) r))
  /\ ((code_bits (region_code (fst N) (snd N) x_min x_max y_min y_max)
       < code_bits (if (code1 v =? 0)%Z then code2 v else code1 v))%nat
      \/ Z.land (region_code (fst N) (snd N) x_min x_max y_min y_max)
                (if (code1 v =? 0)%Z then code1 v else code2 v) <> 0%Z).

(** The line that [rotate_lines] stores in place of [l]. *)
Definition rotated_line (math_radians math_cos math_sin : Q -> Q) (angle : Q) (l : Line)
  : Line :=
  let r := rotate math_radians math_cos math_sin l angle in
  ((inject_Z (fst (fst r)), inject_Z (snd (fst r))),
   (inject_Z (fst (snd r)), inject_Z (snd (snd r)))).

(** A line whose two end points coincide. *)
Definition single_point (l : Line) : Prop := Point_eq (fst l) (snd l).

(** [x] is a float: rounding leaves it as it is. *)
Definition is_float (x : Q) : Prop := Binary64.rnd x == x.

(** [x] is half of an integer of magnitude at most [b]: a pixel coordinate,
    or a coordinate relative to the center of a canvas. *)
Definition half_integer (b : Z) (x : Q) : Prop :=
  exists m : Z, (Z.abs m <= b)%Z /\ x == inject_Z m / 2.

(** A canvas whose origin is the center of a canvas of integer width and
    height up to 2^49, as [_on_resize] stores it. *)
Definition centered (c : CartesianPlane) (o : Q * Q) : Prop :=
  origin c = Some o
  /\ half_integer (2 ^ 49) (fst o) /\ half_integer (2 ^ 49) (snd o).

(** A point both of whose coordinates are halves of integers of magnitude
    at most [b]; a clicked pixel [(x, y)] is one for [b = 2 * max |x| |y|]. *)
Definition on_grid (b : Z) (p : Point) : Prop :=
  half_integer b (fst p) /\ half_integer b (snd p).

(** ** Comparisons *)

Lemma ltb_true (a b : Q) : ltb a b = true <-> a < b.
Proof.
  unfold ltb. destruct (Qlt_le_dec a b) as [H | H]; split; intro K;
    try reflexivity; try assumption; try discriminate.
  exfalso. apply (Qlt_not_le _ _ K H).
Qed.

Lemma ltb_false (a b : Q) : ltb a b = false <-> b <= a.
Proof.
  unfold ltb. destruct (Qlt_le_dec a b) as [H | H]; split; intro K;
    try reflexivity; try assumption; try discriminate.
  exfalso. apply (Qlt_not_le _ _ H K).
Qed.

Lemma leb_true (a b : Q) : leb a b = true <-> a <= b.
Proof.
  unfold leb. destruct (Qlt_le_dec b a) as [H | H]; split; intro K;
    try reflexivity; try assumption; try discriminate.
  exfalso. apply (Qlt_not_le _ _ H K).
Qed.

Lemma leb_false (a b : Q) : leb a b = false <-> b < a.
Proof.
  unfold leb. destruct (Qlt_le_dec b a) as [H | H]; split; intro K;
    try reflexivity; try assumption; try discriminate.
  exfalso. apply (Qlt_not_le _ _ K H).
Qed.

Lemma eqb_true (a b : Q) : eqb a b = true <-> a == b.
Proof.
  unfold eqb. destruct (Qeq_dec a b) as [H | H]; split; intro K;
    try reflexivity; try assumption; try discriminate.
  contradiction.
Qed.

Lemma eqb_false (a b : Q) : eqb a b = false <-> ~ a == b.
Proof.
  unfold eqb. destruct (Qeq_dec a b) as [H | H]; split; intro K;
    try reflexivity; try assumption; try discriminate.
  contradiction.
Qed.

(** Splits on a comparison and records the fact it decides. *)
Ltac case_ltb a b :=
  let E := fresh "E" in
  destruct (ltb a b) eqn:E;
  [ apply ltb_true in E | apply ltb_false in E ].

Ltac case_eqb a b :=
  let E := fresh "E" in
  destruct (eqb a b) eqn:E;
  [ apply eqb_true in E | apply eqb_false in E ].

Ltac case_leb a b :=
  let E := fresh "E" in
  destruct (leb a b) eqn:E;
  [ apply leb_true in E | apply leb_false in E ].

Lemma div_ok {S} (a b : Q) (s : S) : ~ b == 0 -> div a b s = (Ok (a / b), s).
Proof.
  intro H. unfold div. destruct (Qeq_dec b 0) as [E | E]; [contradiction | reflexivity].
Qed.

Lemma div_zero {S} (a b : Q) (s : S) : b == 0 -> div a b s = (Raise ZeroDivisionError, s).
Proof.
  intro H. unfold div. destruct (Qeq_dec b 0) as [E | E]; [reflexivity | contradiction].
Qed.

(** ** Degenerate lines (rasterization.py) *)

Lemma DDA_steps_degenerate (x y : Q) :
  (if ltb (Qabs (y - y)) (Qabs (x - x)) then Qabs (x - x) else Qabs (y - y)) == 0.
Proof.
  assert (Hx : Qabs (x - x) == 0).
  { assert (E : x - x == 0) by ring. rewrite E. reflexivity. }
  assert (Hy : Qabs (y - y) == 0).
  { assert (E : y - y == 0) by ring. rewrite E. reflexivity. }
  destruct (ltb _ _); assumption.
Qed.

Lemma draw_DDA_line_degenerate (x y : Q) (color : Color) (c : CartesianPlane) :
  draw_DDA_line x y x y color c = (Raise ZeroDivisionError, c).
Proof.
  unfold draw_DDA_line, bind.
  rewrite (div_zero _ _ c (DDA_steps_degenerate x y)). reflexivity.
Qed.

Lemma draw_Bresenham_line_degenerate (x y : Z) (color : Color) (c : CartesianPlane) :
  draw_Bresenham_line x y x y color c
  = (Ok tt, set_items (items c ++ [Pixel (inject_Z x) (inject_Z y) color]) c).
Proof.
  unfold draw_Bresenham_line.
  rewrite !Z.sub_diag, !Z.ltb_irrefl. simpl. reflexivity.
Qed.

(** C2.  On the degenerate line from [p] to [p], [draw_Bresenham_line] draws
    exactly the pixel [p] and raises nothing, while [draw_DDA_line] divides
    by [steps = 0]: it raises [ZeroDivisionError] before it draws anything. *)
Theorem degenerate_line_Bresenham_one_pixel_DDA_raises :
  forall (x y : Z) (color : Color) (c : CartesianPlane),
    draw_Bresenham_line x y x y color c
    = (Ok tt, set_items (items c ++ [Pixel (inject_Z x) (inject_Z y) color]) c)
    /\ draw_DDA_line (inject_Z x) (inject_Z y) (inject_Z x) (inject_Z y) color c
       = (Raise ZeroDivisionError, c).
Proof.
  intros x y color c. split.
  - apply draw_Bresenham_line_degenerate.
  - apply draw_DDA_line_degenerate.
Qed.

(** ** Region codes (clipping.py) *)

Lemma region_code_cases (x y x_min x_max y_min y_max : Q) :
  let c := region_code x y x_min x_max y_min y_max in
  (c = 5%Z /\ x < x_min /\ y < y_min)
  \/ (c = 9%Z /\ x < x_min /\ y_min <= y /\ y_max < y)
  \/ (c = 1%Z /\ x < x_min /\ y_min <= y /\ y <= y_max)
  \/ (c = 6%Z /\ (x_min <= x /\ x_max < x) /\ y < y_min)
  \/ (c = 10%Z /\ (x_min <= x /\ x_max < x) /\ y_min <= y /\ y_max < y)
  \/ (c = 2%Z /\ (x_min <= x /\ x_max < x) /\ y_min <= y /\ y <= y_max)
  \/ (c = 4%Z /\ (x_min <= x /\ x <= x_max) /\ y < y_min)
  \/ (c = 8%Z /\ (x_min <= x /\ x <= x_max) /\ y_min <= y /\ y_max < y)
  \/ (c = 0%Z /\ (x_min <= x /\ x <= x_max) /\ y_min <= y /\ y <= y_max).
Proof.
  unfold region_code, INSIDE, LEFT, RIGHT, BOTTOM, TOP.
  case_ltb x x_min; [ | case_ltb x_max x ];
    (case_ltb y y_min; [ | case_ltb y_max y ]); cbn; tauto.
Qed.

Lemma region_code_inside (x y x_min x_max y_min y_max : Q) :
  region_code x y x_min x_max y_min y_max = 0%Z
  <-> in_window x_min x_max y_min y_max (x, y).
Proof.
  unfold in_window; cbn [fst snd].
  pose proof (region_code_cases x y x_min x_max y_min y_max) as H. cbv zeta in H.
  split.
  - intro E. rewrite E in H.
    repeat (destruct H as [H | H]; [ destruct H as [K _]; discriminate K | ]).
    tauto.
  - intros [[A B] [C D]].
    decompose [or and] H; try assumption; exfalso; lra.
Qed.

Lemma within_in_window (x y x_min x_max y_min y_max : Q) :
  within x y x_min x_max y_min y_max = true
  <-> in_window x_min x_max y_min y_max (x, y).
Proof.
  unfold within, in_window; cbn [fst snd].
  rewrite !andb_true_iff, !leb_true. tauto.
Qed.

(** ** Cohen-Sutherland (clipping.py) *)

(** Rewrites the two codes with the values a case analysis gave them. *)
Ltac fix_codes v :=
  repeat match goal with
         | A : code1 v = _ |- _ => rewrite A in *; clear A
         | B : code2 v = _ |- _ => rewrite B in *; clear B
         end.

(** Decides the tests on codes that have become closed terms. *)
Ltac eval_tests :=
  repeat match goal with
         | |- context [(?a =? ?b)%Z] =>
             let r := eval vm_compute in (a =? b)%Z in
             match r with true => idtac | false => idtac end;
             change (a =? b)%Z with r
         end;
  cbv beta iota delta [negb andb orb].

(** No boundary intersection divides by zero: the endpoint being moved is
    beyond the boundary and, the loop not being left, the other one is not. *)
Lemma cs_intersection_defined (x_min x_max y_min y_max : Q) (v : cs_vars)
      (c : CartesianPlane) :
  cs_inv x_min x_max y_min y_max v ->
  cs_exit v = false ->
  exists xy,
    cs_intersection x_min x_max y_min y_max v
      (if negb (code1 v =? 0)%Z then code1 v else code2 v) c = (Ok xy, c).
Proof.
  intros (H1 & H2 & _) Hx. unfold cs_exit in Hx.
  pose proof (region_code_cases (x_initial v) (y_initial v) x_min x_max y_min y_max) as R1.
  pose proof (region_code_cases (x_final v) (y_final v) x_min x_max y_min y_max) as R2.
  cbv zeta in R1, R2. rewrite <- H1 in R1. rewrite <- H2 in R2. clear H1 H2.
  unfold cs_intersection, TOP, BOTTOM, RIGHT, LEFT.
  decompose [or and] R1; clear R1; decompose [or and] R2; clear R2; fix_codes v;
    cbn in Hx; try discriminate Hx; eval_tests;
    unfold bind, div, raise, ret;
    try match goal with
        | |- context [Qeq_dec ?b 0] =>
            destruct (Qeq_dec b 0) as [E | E]; [ exfalso; lra | ]
        end;
    eexists; reflexivity.
Qed.

Lemma cs_iteration_exit (x_min x_max y_min y_max : Q) (v : cs_vars) (c : CartesianPlane) :
  cs_exit v = true ->
  cs_iteration x_min x_max y_min y_max v c = (Ok (Break true), c).
Proof.
  unfold cs_iteration, cs_exit. intros ->. reflexivity.
Qed.

Lemma cs_exit_both_inside (v : cs_vars) :
  cs_exit v = true ->
  code1 v = 0%Z \/ code2 v = 0%Z ->
  code1 v = 0%Z /\ code2 v = 0%Z.
Proof.
  unfold cs_exit. intros H [E | E]; rewrite E in *.
  - rewrite Z.land_0_l in H. cbn in H. rewrite orb_false_r in H.
    apply Z.eqb_eq in H. split; [reflexivity | assumption].
  - rewrite Z.land_0_r in H. cbn in H. rewrite orb_false_r, andb_true_r in H.
    apply Z.eqb_eq in H. split; [assumption | reflexivity].
Qed.

(** A pass that does not leave the loop moves one endpoint, raises nothing
    and draws nothing, and re-establishes [cs_inv]. *)
Lemma cs_iteration_continue (x_min x_max y_min y_max : Q) (v : cs_vars)
      (c : CartesianPlane) :
  cs_inv x_min x_max y_min y_max v ->
  cs_exit v = false ->
  exists v',
    cs_iteration x_min x_max y_min y_max v c = (Ok (Continue v'), c)
    /\ cs_inv x_min x_max y_min y_max v'.
Proof.
  intros Hinv Hx.
  destruct (cs_intersection_defined x_min x_max y_min y_max v c Hinv Hx) as [[x y] Hxy].
  destruct Hinv as (H1 & H2 & H3).
  unfold cs_iteration. unfold cs_exit in Hx. rewrite Hx.
  apply orb_false_iff in Hx. destruct Hx as [Ha Hb]. rewrite Hb.
  unfold bind at 1. rewrite Hxy. unfold ret.
  eexists. split; [reflexivity | ].
  destruct (code1 v =? 0)%Z eqn:E1; cbn [negb].
  - (* the first endpoint is inside: the second one moves *)
    apply Z.eqb_eq in E1. cbn [andb] in Ha.
    assert (E2 : (code2 v =? code1 v)%Z = false) by (rewrite E1; exact Ha).
    rewrite E2. cbn [x_initial y_initial x_final y_final code1 code2 line_accepted].
    destruct (within _ _ _ _ _ _ || within _ _ _ _ _ _) eqn:W;
      unfold cs_inv; cbn [x_initial y_initial x_final y_final code1 code2 line_accepted];
      repeat split; auto.
  - (* the first endpoint is outside: it moves *)
    rewrite Z.eqb_refl.
    cbn [x_initial y_initial x_final y_final code1 code2 line_accepted].
    destruct (within _ _ _ _ _ _ || within _ _ _ _ _ _) eqn:W;
      unfold cs_inv; cbn [x_initial y_initial x_final y_final code1 code2 line_accepted];
      repeat split; auto.
    + intros _. apply orb_true_iff in W. destruct W as [W | W].
      * left. apply region_code_inside, within_in_window, W.
      * right. rewrite H2. apply region_code_inside, within_in_window, W.
    + intro L. destruct (H3 L) as [K | K]; [ | right; exact K ].
      rewrite K in E1. discriminate E1.
Qed.

(** The loop can only run out of passes or leave through the test of line
    36 with [accept = True]; it never raises and never draws. *)
Lemma cs_loop_result (x_min x_max y_min y_max : Q) (c : CartesianPlane) (fuel : nat) :
  forall v,
    cs_inv x_min x_max y_min y_max v ->
    cs_loop fuel x_min x_max y_min y_max v c = (Timeout, c)
    \/ exists v',
        cs_loop fuel x_min x_max y_min y_max v c = (Ok (true, v'), c)
        /\ cs_inv x_min x_max y_min y_max v'
        /\ cs_exit v' = true.
Proof.
  induction fuel as [ | fuel IH]; intros v Hinv.
  - left. reflexivity.
  - cbn [cs_loop]. unfold bind.
    destruct (cs_exit v) eqn:Hx.
    + rewrite (cs_iteration_exit _ _ _ _ _ _ Hx). right.
      exists v. split; [reflexivity | split; assumption].
    + destruct (cs_iteration_continue _ _ _ _ _ c Hinv Hx) as (v' & Hstep & Hinv').
      rewrite Hstep. apply IH. exact Hinv'.
Qed.

Lemma cs_inv_initial (x_min x_max y_min y_max xi yi xf yf : Q) :
  cs_inv x_min x_max y_min y_max
    (mkVars xi yi xf yf (region_code xi yi x_min x_max y_min y_max)
            (region_code xf yf x_min x_max y_min y_max) false).
Proof.
  unfold cs_inv; cbn. repeat split. discriminate.
Qed.

(** What [clipping_cohen_sutherland] can return, on any input. *)
Lemma clipping_cohen_sutherland_result (fuel : nat) (xi yi xf yf : Q)
      (c_initial c_final : Point) (c : CartesianPlane) :
  clipping_cohen_sutherland fuel xi yi xf yf c_initial c_final c = (Timeout, c)
  \/ clipping_cohen_sutherland fuel xi yi xf yf c_initial c_final c
     = (Ok (false, (None, None)), c)
  \/ exists p1 p2,
      clipping_cohen_sutherland fuel xi yi xf yf c_initial c_final c
      = (Ok (true, (Some p1, Some p2)),
         set_items (items c ++ [Segment (fst p1) (snd p1) (fst p2) (snd p2) "red" ""]) c)
      /\ in_window (fst c_initial) (fst c_final) (snd c_initial) (snd c_final) p1
      /\ in_window (fst c_initial) (fst c_final) (snd c_initial) (snd c_final) p2.
Proof.
  destruct c_initial as [x_min y_min], c_final as [x_max y_max]. cbn [fst snd].
  unfold clipping_cohen_sutherland, bind.
  destruct (cs_loop_result x_min x_max y_min y_max c fuel _
              (cs_inv_initial x_min x_max y_min y_max xi yi xf yf))
    as [T | (v & E & Hinv & Hx)].
  - rewrite T. left. reflexivity.
  - rewrite E. cbn [andb]. destruct (line_accepted v) eqn:L.
    + right. right.
      destruct Hinv as (H1 & H2 & H3).
      destruct (cs_exit_both_inside v Hx (H3 L)) as [Z1 Z2].
      exists (x_initial v, y_initial v), (x_final v, y_final v).
      split; [reflexivity | ]. split.
      * apply region_code_inside. rewrite <- H1. exact Z1.
      * apply region_code_inside. rewrite <- H2. exact Z2.
    + right. left. reflexivity.
Qed.

(** C6.  On every line, window and canvas, and with any number of passes
    granted to its loop, [clipping_cohen_sutherland] raises no exception: no
    division of lines 52-61 is reached with a zero denominator. *)
Theorem clipping_cohen_sutherland_no_division_fault :
  forall (fuel : nat) (xi yi xf yf : Q) (c_initial c_final : Point)
         (c : CartesianPlane) (e : exn),
    fst (clipping_cohen_sutherland fuel xi yi xf yf c_initial c_final c) <> Raise e.
Proof.
  intros fuel xi yi xf yf c_initial c_final c e.
  destruct (clipping_cohen_sutherland_result fuel xi yi xf yf c_initial c_final c)
    as [H | [H | (p1 & p2 & H & _)]];
    rewrite H; discriminate.
Qed.

(** For a window with [min <= max] on both axes, the codes share a bit
    exactly when both endpoints are beyond the same side of the window. *)
Lemma shared_region_same_side (x1 y1 x2 y2 x_min x_max y_min y_max : Q) :
  x_min <= x_max -> y_min <= y_max ->
  (Z.land (region_code x1 y1 x_min x_max y_min y_max)
          (region_code x2 y2 x_min x_max y_min y_max) <> 0%Z
   <-> (x1 < x_min /\ x2 < x_min) \/ (x_max < x1 /\ x_max < x2)
       \/ (y1 < y_min /\ y2 < y_min) \/ (y_max < y1 /\ y_max < y2)).
Proof.
  intros Hx Hy.
  pose proof (region_code_cases x1 y1 x_min x_max y_min y_max) as R1.
  pose proof (region_code_cases x2 y2 x_min x_max y_min y_max) as R2.
  cbv zeta in R1, R2.
  decompose [or and] R1; clear R1; decompose [or and] R2; clear R2;
    repeat match goal with A : region_code _ _ _ _ _ _ = _ |- _ => rewrite A; clear A end;
    cbn; split; intro K;
    try (exfalso; apply K; reflexivity); try discriminate;
    try (decompose [or and] K; exfalso; lra);
    try (left; split; assumption);
    try (right; left; split; assumption);
    try (right; right; left; split; assumption);
    try (right; right; right; split; assumption).
Qed.

(** C5.  When the region codes of the two endpoints share a bit (both
    endpoints beyond the same side of the window), the first pass of the
    loop leaves it and [clipping_cohen_sutherland] returns
    [(False, (None, None))] without drawing. *)
Theorem clipping_cohen_sutherland_rejects_shared_region :
  forall (fuel : nat) (xi yi xf yf : Q) (c_initial c_final : Point)
         (c : CartesianPlane),
    Z.land (region_code xi yi (fst c_initial) (fst c_final) (snd c_initial) (snd c_final))
           (region_code xf yf (fst c_initial) (fst c_final) (snd c_initial) (snd c_final))
    <> 0%Z ->
    clipping_cohen_sutherland (S fuel) xi yi xf yf c_initial c_final c
    = (Ok (false, (None, None)), c).
Proof.
  intros fuel xi yi xf yf [x_min y_min] [x_max y_max] c H. cbn [fst snd] in H.
  unfold clipping_cohen_sutherland. cbn [cs_loop]. unfold bind.
  rewrite cs_iteration_exit.
  - reflexivity.
  - unfold cs_exit. cbn [code1 code2].
    apply Z.eqb_neq in H. rewrite H. apply orb_true_r.
Qed.

Lemma clipping_cohen_sutherland_rejects_shared_region_witness :
  clipping_cohen_sutherland 1 10 0 20 0 (-5, -5) (5, 5) blank_canvas
  = (Ok (false, (None, None)), blank_canvas).
Proof.
  apply (clipping_cohen_sutherland_rejects_shared_region
           0 10 0 20 0 (-5, -5) (5, 5) blank_canvas).
  vm_compute. discriminate.
Defined.

(** ** [max] and [min] of a list *)

Lemma fold_max_ge_init (t : list Q) :
  forall m, m <= fold_left (fun m v => if ltb m v then v else m) t m.
Proof.
  induction t as [ | a t IH]; intro m; cbn [fold_left].
  - apply Qle_refl.
  - case_ltb m a.
    + apply Qle_trans with a; [ apply Qlt_le_weak; assumption | apply IH ].
    + apply IH.
Qed.

Lemma fold_max_ge_elem (t : list Q) :
  forall m v, In v t -> v <= fold_left (fun m v => if ltb m v then v else m) t m.
Proof.
  induction t as [ | a t IH]; intros m v Hin; cbn [fold_left].
  - destruct Hin.
  - destruct Hin as [-> | Hin]; [ | apply IH; exact Hin ].
    case_ltb m v.
    + apply fold_max_ge_init.
    + apply Qle_trans with m; [ assumption | apply fold_max_ge_init ].
Qed.

Lemma max_ge (a : Q) (t : list Q) (v : Q) : In v (a :: t) -> v <= max (a :: t).
Proof.
  cbn [max]. intros [-> | Hin].
  - apply fold_max_ge_init.
  - apply fold_max_ge_elem. exact Hin.
Qed.

(** [max] keeps its first element unless a later one is greater. *)
Lemma max_first (a : Q) (t : list Q) :
  (forall v, In v t -> v <= a) -> max (a :: t) = a.
Proof.
  cbn [max]. induction t as [ | b t IH]; intro H; cbn [fold_left].
  - reflexivity.
  - case_ltb a b.
    + exfalso. apply (Qlt_not_le _ _ E). apply H. left. reflexivity.
    + apply IH. intros v Hin. apply H. right. exact Hin.
Qed.

Lemma fold_min_le_init (t : list Q) :
  forall m, fold_left (fun m v => if ltb v m then v else m) t m <= m.
Proof.
  induction t as [ | a t IH]; intro m; cbn [fold_left].
  - apply Qle_refl.
  - case_ltb a m.
    + apply Qle_trans with a; [ apply IH | apply Qlt_le_weak; assumption ].
    + apply IH.
Qed.

Lemma fold_min_le_elem (t : list Q) :
  forall m v, In v t -> fold_left (fun m v => if ltb v m then v else m) t m <= v.
Proof.
  induction t as [ | a t IH]; intros m v Hin; cbn [fold_left].
  - destruct Hin.
  - destruct Hin as [-> | Hin]; [ | apply IH; exact Hin ].
    case_ltb v m.
    + apply fold_min_le_init.
    + apply Qle_trans with m; [ apply fold_min_le_init | assumption ].
Qed.

Lemma min_le (a : Q) (t : list Q) (v : Q) : In v (a :: t) -> min (a :: t) <= v.
Proof.
  cbn [min]. intros [-> | Hin].
  - apply fold_min_le_init.
  - apply fold_min_le_elem. exact Hin.
Qed.

Lemma min_first (a : Q) (t : list Q) :
  (forall v, In v t -> a <= v) -> min (a :: t) = a.
Proof.
  cbn [min]. induction t as [ | b t IH]; intro H; cbn [fold_left].
  - reflexivity.
  - case_ltb b a.
    + exfalso. apply (Qlt_not_le _ _ E). apply H. left. reflexivity.
    + apply IH. intros v Hin. apply H. right. exact Hin.
Qed.

(** ** Liang-Barsky (clipping.py) *)

(** One pair of boundaries adds nothing when the line is parallel to them,
    and otherwise one entering and one leaving parameter. *)
Lemma lb_pair_cases (p q p' q' : Q) (negarr posarr : list Q) (c : CartesianPlane) :
  p' == - p ->
  exists e l,
    lb_pair p q p' q' (negarr, posarr) c = (Ok (negarr ++ e, posarr ++ l), c)
    /\ ((p == 0 /\ e = [] /\ l = [])
        \/ (p < 0 /\ e = [q / p] /\ l = [q' / p'])
        \/ (0 < p /\ e = [q' / p'] /\ l = [q / p])).
Proof.
  intro Hp. unfold lb_pair. case_eqb p 0; cbn [negb].
  - exists [], []. rewrite !app_nil_r. split; [reflexivity | left; auto].
  - unfold bind. rewrite (div_ok q p c E).
    assert (E' : ~ p' == 0) by (intro K; apply E; lra).
    rewrite (div_ok q' p' c E').
    case_ltb p 0.
    + exists [q / p], [q' / p']. split; [reflexivity | right; left; auto].
    + exists [q' / p'], [q / p]. split; [reflexivity | right; right ].
      repeat split. destruct (Qlt_le_dec 0 p) as [L | L]; [ exact L | ].
      exfalso. apply E. lra.
Qed.

(** Along an axis on which both endpoints are within the window's range,
    every entering parameter is at most 0 and every leaving one at least 1. *)
Lemma lb_axis_inside (a b lo hi : Q) (e l : list Q) :
  lo <= a -> a <= hi -> lo <= b -> b <= hi ->
  (- (b - a) == 0 /\ e = [] /\ l = [])
  \/ (- (b - a) < 0 /\ e = [(a - lo) / - (b - a)] /\ l = [(hi - a) / - - (b - a)])
  \/ (0 < - (b - a) /\ e = [(hi - a) / - - (b - a)] /\ l = [(a - lo) / - (b - a)]) ->
  (forall v, In v e -> v <= 0) /\ (forall v, In v l -> 1 <= v).
Proof.
  intros La Ha Lb Hb [(P & -> & ->) | [(P & -> & ->) | (P & -> & ->)]].
  - split; intros v [].
  - assert (E1 : ((a - lo) / - (b - a)) * - (b - a) == a - lo) by (field; lra).
    assert (E2 : ((hi - a) / - - (b - a)) * - - (b - a) == hi - a) by (field; lra).
    set (u := (a - lo) / - (b - a)) in *. set (w := (hi - a) / - - (b - a)) in *.
    split; intros v [<- | []]; nra.
  - assert (E1 : ((a - lo) / - (b - a)) * - (b - a) == a - lo) by (field; lra).
    assert (E2 : ((hi - a) / - - (b - a)) * - - (b - a) == hi - a) by (field; lra).
    set (u := (a - lo) / - (b - a)) in *. set (w := (hi - a) / - - (b - a)) in *.
    split; intros v [<- | []]; nra.
Qed.

Lemma lb_guard_inside (p q : Q) : 0 <= q -> eqb p 0 && ltb q 0 = false.
Proof.
  intro H. apply andb_false_iff. right. apply ltb_false. exact H.
Qed.

(** On a line with both endpoints in the window, [clipping_liang_barsky]
    settles on the parameters 0 and 1. *)
Lemma clipping_liang_barsky_inside (x1 y1 x2 y2 xmin ymin xmax ymax : Q)
      (c : CartesianPlane) :
  in_window xmin xmax ymin ymax (x1, y1) ->
  in_window xmin xmax ymin ymax (x2, y2) ->
  fst (clipping_liang_barsky x1 y1 x2 y2 xmin ymin xmax ymax c)
  = Ok (true, (Some (x1 + - - (x2 - x1) * 0, y1 + - - (y2 - y1) * 0),
               Some (x1 + - - (x2 - x1) * 1, y1 + - - (y2 - y1) * 1))).
Proof.
  unfold in_window; cbn [fst snd]. intros [[A1 A2] [A3 A4]] [[B1 B2] [B3 B4]].
  unfold clipping_liang_barsky.
  rewrite !lb_guard_inside by lra. cbn [orb].
  destruct (lb_pair_cases (- (x2 - x1)) (x1 - xmin) (- - (x2 - x1)) (xmax - x1)
              [0] [1] c (Qeq_refl _)) as (ex & lx & E1 & Cx).
  unfold bind at 1. rewrite E1.
  destruct (lb_pair_cases (- (y2 - y1)) (y1 - ymin) (- - (y2 - y1)) (ymax - y1)
              ([0] ++ ex) ([1] ++ lx) c (Qeq_refl _)) as (ey & ly & E2 & Cy).
  unfold bind at 1. rewrite E2.
  destruct (lb_axis_inside x1 x2 xmin xmax ex lx A1 A2 B1 B2 Cx) as [Nx Px].
  destruct (lb_axis_inside y1 y2 ymin ymax ey ly A3 A4 B3 B4 Cy) as [Ny Py].
  assert (M1 : max (([0] ++ ex) ++ ey) = 0).
  { apply (max_first 0 (ex ++ ey)). intros v Hin.
    apply in_app_iff in Hin. destruct Hin; auto. }
  assert (M2 : min (([1] ++ lx) ++ ly) = 1).
  { apply (min_first 1 (lx ++ ly)). intros v Hin.
    apply in_app_iff in Hin. destruct Hin; auto. }
  rewrite M1, M2. reflexivity.
Qed.

(** On a line with both endpoints in the window the loop of
    [clipping_cohen_sutherland] is left in its first pass with
    [line_accepted] still [False]: the line is rejected. *)
Lemma clipping_cohen_sutherland_inside (fuel : nat) (x1 y1 x2 y2 xmin ymin xmax ymax : Q)
      (c : CartesianPlane) :
  in_window xmin xmax ymin ymax (x1, y1) ->
  in_window xmin xmax ymin ymax (x2, y2) ->
  clipping_cohen_sutherland (S fuel) x1 y1 x2 y2 (xmin, ymin) (xmax, ymax) c
  = (Ok (false, (None, None)), c).
Proof.
  intros H1 H2.
  apply region_code_inside in H1. apply region_code_inside in H2.
  unfold clipping_cohen_sutherland. cbn [cs_loop]. unfold bind.
  rewrite cs_iteration_exit.
  - reflexivity.
  - unfold cs_exit. cbn [code1 code2]. rewrite H1, H2. reflexivity.
Qed.

(** C1.  The two clippers do not agree: on every line with both endpoints
    in the window [clipping_cohen_sutherland] returns
    [(False, (None, None))] while [clipping_liang_barsky] returns [True]
    with the line itself. *)
Theorem clippers_disagree_on_inside_lines :
  forall (fuel : nat) (x1 y1 x2 y2 xmin ymin xmax ymax : Q) (c : CartesianPlane),
    in_window xmin xmax ymin ymax (x1, y1) ->
    in_window xmin xmax ymin ymax (x2, y2) ->
    fst (clipping_cohen_sutherland (S fuel) x1 y1 x2 y2 (xmin, ymin) (xmax, ymax) c)
    = Ok (false, (None, None))
    /\ fst (clipping_liang_barsky x1 y1 x2 y2 xmin ymin xmax ymax c)
       = Ok (true, (Some (x1 + - - (x2 - x1) * 0, y1 + - - (y2 - y1) * 0),
                    Some (x1 + - - (x2 - x1) * 1, y1 + - - (y2 - y1) * 1))).
Proof.
  intros fuel x1 y1 x2 y2 xmin ymin xmax ymax c H1 H2. split.
  - rewrite clipping_cohen_sutherland_inside by assumption. reflexivity.
  - apply clipping_liang_barsky_inside; assumption.
Qed.

Lemma clippers_disagree_on_inside_lines_witness :
  fst (clipping_cohen_sutherland 1 0 0 1 1 (-5, -5) (5, 5) blank_canvas)
  = Ok (false, (None, None))
  /\ fst (clipping_liang_barsky 0 0 1 1 (-5) (-5) 5 5 blank_canvas)
     = Ok (true, (Some (0 + - - (1 - 0) * 0, 0 + - - (1 - 0) * 0),
                  Some (0 + - - (1 - 0) * 1, 0 + - - (1 - 0) * 1))).
Proof.
  apply (clippers_disagree_on_inside_lines 0 0 0 1 1 (-5) (-5) 5 5 blank_canvas).
  - vm_compute. repeat split; discriminate.
  - vm_compute. repeat split; discriminate.
Defined.

(** ** The circle loop (rasterization.py) *)

Lemma items_set_items (l : list Item) (c : CartesianPlane) :
  items (set_items l c) = l.
Proof. reflexivity. Qed.

Lemma set_items_set_items (l l' : list Item) (c : CartesianPlane) :
  set_items l (set_items l' c) = set_items l c.
Proof. reflexivity. Qed.

Lemma draw_pixel_run (x y : Q) (color : Color) (c : CartesianPlane) :
  draw_pixel x y color c = (Ok tt, set_items (items c ++ [Pixel x y color]) c).
Proof. reflexivity. Qed.

(** Runs the next [draw_pixel] of a sequence. *)
Ltac step_draw_pixel :=
  unfold bind at 1; rewrite draw_pixel_run;
  try rewrite items_set_items; try rewrite set_items_set_items;
  try rewrite <- app_assoc; cbn [app].

(** [plot_circumference_points] only appends its eight pixels. *)
Lemma plot_circumference_points_run (xc x yc y : Q) (color : Color) (c : CartesianPlane) :
  plot_circumference_points xc x yc y color c
  = (Ok tt,
     set_items (items c ++ [Pixel (xc - x) (yc + y) color; Pixel (xc + x) (yc - y) color;
                            Pixel (xc + x) (yc + y) color; Pixel (xc - x) (yc - y) color;
                            Pixel (xc + y) (yc + x) color; Pixel (xc - y) (yc + x) color;
                            Pixel (xc + y) (yc - x) color; Pixel (xc - y) (yc - x) color]) c).
Proof.
  unfold plot_circumference_points.
  do 7 step_draw_pixel.
  rewrite draw_pixel_run, items_set_items, set_items_set_items, <- app_assoc.
  reflexivity.
Qed.

(** A [while] loop that ended within its allowance gives the same result
    under any larger one. *)
Lemma while_fuel_mono {S St : Type} (cond : St -> bool) (body : St -> M S St)
      (fuel : nat) :
  forall (fuel' : nat) (st : St) (s s' : S) (r : nat * St),
    (fuel <= fuel')%nat ->
    while fuel cond body st s = (Ok r, s') ->
    while fuel' cond body st s = (Ok r, s').
Proof.
  induction fuel as [ | fuel IH]; intros fuel' st s s' r L H.
  - cbn [while] in H. destruct fuel'; cbn [while];
      destruct (cond st); try exact H; discriminate H.
  - destruct fuel' as [ | fuel']; [ inversion L | ].
    apply le_S_n in L. cbn [while] in *.
    destruct (cond st); [ | exact H ].
    unfold bind at 1. unfold bind at 1 in H.
    destruct (body st s) as [[st1 | e | ] s1]; try discriminate H.
    unfold bind at 1. unfold bind at 1 in H.
    destruct (while fuel cond body st1 s1) as [[r1 | e | ] s2] eqn:W;
      try discriminate H.
    rewrite (IH fuel' st1 s1 s2 r1 L W). exact H.
Qed.

(** One pass of the loop raises nothing and brings [x] and [y] closer by at
    least one. *)
Lemma circle_body_run (xc yc : Q) (color : Color) (st : Q * Q * Q) (c : CartesianPlane) :
  exists st' c',
    circle_body xc yc color st c = (Ok st', c')
    /\ snd (fst st') - fst (fst st') <= snd (fst st) - fst (fst st) - 1.
Proof.
  destruct st as [[x y] p]. unfold circle_body.
  case_ltb p 0; unfold bind; rewrite plot_circumference_points_run;
    eexists; eexists; (split; [ reflexivity | cbn [fst snd]; lra ]).
Qed.

(** The loop ends within [fuel] passes when [y - x] is at most [fuel]. *)
Lemma circle_while_terminates (xc yc : Q) (color : Color) (fuel : nat) :
  forall (st : Q * Q * Q) (c : CartesianPlane),
    snd (fst st) - fst (fst st) <= inject_Z (Z.of_nat fuel) ->
    exists n st' c',
      while fuel circle_cond (circle_body xc yc color) st c = (Ok (n, st'), c')
      /\ (n <= fuel)%nat.
Proof.
  induction fuel as [ | fuel IH]; intros st c H.
  - destruct st as [[x y] p]. cbn [while circle_cond fst snd] in *.
    case_ltb x y.
    + exfalso. change (inject_Z (Z.of_nat 0)) with 0 in H. lra.
    + exists O, (x, y, p), c. split; [ reflexivity | apply Nat.le_refl ].
  - cbn [while]. destruct (circle_cond st) eqn:C.
    + destruct (circle_body_run xc yc color st c) as (st1 & c1 & B & D).
      unfold bind at 1. rewrite B.
      assert (H1 : snd (fst st1) - fst (fst st1) <= inject_Z (Z.of_nat fuel)).
      { rewrite Nat2Z.inj_succ in H. unfold Z.succ in H.
        rewrite inject_Z_plus in H. change (inject_Z 1) with 1 in H. lra. }
      destruct (IH st1 c1 H1) as (n & st' & c' & W & L).
      unfold bind. rewrite W. cbn [fst snd]. unfold ret.
      exists (S n), st', c'. split; [ reflexivity | apply le_n_S; exact L ].
    + exists O, st, c. split; [ reflexivity | apply Nat.le_0_l ].
Qed.

Lemma circle_fuel_enough (r : Q) (fuel : nat) :
  (circle_fuel r <= fuel)%nat -> r - 0 <= inject_Z (Z.of_nat fuel).
Proof.
  unfold circle_fuel. intro H.
  apply Qle_trans with (inject_Z (Qceiling r)).
  - pose proof (Qle_ceiling r). lra.
  - rewrite <- Zle_Qle. lia.
Qed.

(** With [circle_fuel r] passes or more the loop of a circle of radius [r]
    ends, whatever [r] is. *)
Lemma draw_Bresenham_circle_loop_terminates (xc yc r : Q) (color : Color)
      (c : CartesianPlane) (fuel : nat) :
  (circle_fuel r <= fuel)%nat ->
  exists n c', draw_Bresenham_circle_loop fuel xc yc r color c = (Ok n, c')
               /\ (n <= fuel)%nat.
Proof.
  intro H. unfold draw_Bresenham_circle_loop, bind.
  rewrite plot_circumference_points_run.
  destruct (circle_while_terminates xc yc color fuel (0, r, 3 - 2 * r)
              (set_items (items c ++ [Pixel (xc - 0) (yc + r) color; Pixel (xc + 0) (yc - r) color;
                            Pixel (xc + 0) (yc + r) color; Pixel (xc - 0) (yc - r) color;
                            Pixel (xc + r) (yc + 0) color; Pixel (xc - r) (yc + 0) color;
                            Pixel (xc + r) (yc - 0) color; Pixel (xc - r) (yc - 0) color]) c))
    as (n & st' & c' & W & L).
  - cbn [fst snd]. apply circle_fuel_enough. exact H.
  - rewrite W. exists n, c'. split; [ reflexivity | exact L ].
Qed.

(** The loop of a circle of radius [r] makes the same number of passes, at
    most [circle_fuel r], and draws the same under every allowance of
    [circle_fuel r] passes or more. *)
Lemma draw_Bresenham_circle_loop_stable (xc yc r : Q) (color : Color)
      (c : CartesianPlane) :
  exists n c',
    (n <= circle_fuel r)%nat
    /\ forall fuel, (circle_fuel r <= fuel)%nat ->
         draw_Bresenham_circle_loop fuel xc yc r color c = (Ok n, c').
Proof.
  destruct (draw_Bresenham_circle_loop_terminates xc yc r color c (circle_fuel r)
              (Nat.le_refl _)) as (n & c' & E & L).
  exists n, c'. split; [ exact L | ].
  intros fuel H. revert E.
  unfold draw_Bresenham_circle_loop, bind.
  rewrite plot_circumference_points_run.
  destruct (while (circle_fuel r) _ _ _ _) as [[r1 | e | ] s2] eqn:W;
    try discriminate.
  rewrite (while_fuel_mono _ _ _ fuel _ _ _ _ H W). trivial.
Qed.

Lemma draw_Bresenham_circle_run (xc yc r : Q) (color : Color) (c : CartesianPlane) :
  exists c', draw_Bresenham_circle xc yc r color c = (Ok tt, c').
Proof.
  unfold draw_Bresenham_circle.
  destruct (draw_Bresenham_circle_loop_terminates xc yc r color c (circle_fuel r)
              (Nat.le_refl _)) as (n & c' & E & _).
  unfold bind. rewrite E. exists c'. reflexivity.
Qed.

(** Radius 0: the test of line 142 fails at once. *)
Lemma draw_Bresenham_circle_loop_radius_0 (xc yc : Q) (color : Color)
      (c : CartesianPlane) (fuel : nat) :
  exists px,
    draw_Bresenham_circle_loop fuel xc yc 0 color c
    = (Ok O, set_items (items c ++ px) c)
    /\ List.length px = 8%nat
    /\ Forall (Pixel_at xc yc) px.
Proof.
  unfold draw_Bresenham_circle_loop, bind.
  rewrite plot_circumference_points_run.
  destruct fuel; cbn [while circle_cond]; change (ltb 0 0) with false; cbv iota;
    unfold ret; cbn [fst snd];
    (eexists; split; [ unfold set_items; cbn [items origin winfo_width winfo_height lines circles]; reflexivity | ]);
    (split; [ reflexivity | ]);
    repeat (apply Forall_cons; [ unfold Pixel_at; split; ring | ]); apply Forall_nil.
Qed.

(** Radius 1: one pass, after which [x = 1] and [y = 0]. *)
Lemma draw_Bresenham_circle_loop_radius_1 (xc yc : Q) (color : Color)
      (c : CartesianPlane) (fuel : nat) :
  exists c', draw_Bresenham_circle_loop (S fuel) xc yc 1 color c = (Ok 1%nat, c').
Proof.
  unfold draw_Bresenham_circle_loop, bind.
  rewrite plot_circumference_points_run.
  cbn [while circle_cond]. change (ltb 0 1) with true. cbv iota.
  unfold bind. unfold circle_body.
  change (ltb (3 - 2 * 1) 0) with false. cbv iota.
  unfold bind. rewrite plot_circumference_points_run.
  unfold ret.
  destruct fuel; cbn [while circle_cond]; change (ltb (0 + 1) (1 - 1)) with false;
    cbv iota; unfold ret; cbn [fst snd]; eexists; reflexivity.
Qed.



(** ** What the drawing commands leave alone *)

Create HintDb stored.

Lemma keeps_ret {A : Type} (a : A) : keeps_stored (ret a).
Proof. intro c. split; reflexivity. Qed.

Lemma keeps_raise {A : Type} (e : exn) : keeps_stored (@raise CartesianPlane A e).
Proof. intro c. split; reflexivity. Qed.

Lemma keeps_timeout {A : Type} : keeps_stored (@timeout CartesianPlane A).
Proof. intro c. split; reflexivity. Qed.

Lemma keeps_get : keeps_stored (@get CartesianPlane).
Proof. intro c. split; reflexivity. Qed.

Lemma keeps_bind {A B : Type} (m : Cmd A) (k : A -> Cmd B) :
  keeps_stored m -> (forall a, keeps_stored (k a)) -> keeps_stored (bind m k).
Proof.
  intros Hm Hk c. unfold bind. specialize (Hm c).
  destruct (m c) as [[a | e | ] c']; cbn [snd] in *; try exact Hm.
  destruct (Hk a c') as [L C]. destruct Hm as [L' C'].
  split; [ rewrite L; exact L' | rewrite C; exact C' ].
Qed.

Lemma keeps_div (a b : Q) : keeps_stored (div a b).
Proof. unfold div. destruct (Qeq_dec b 0); [ apply keeps_raise | apply keeps_ret ]. Qed.

Lemma keeps_unpack {A : Type} (v : option A) : keeps_stored (unpack v).
Proof. destruct v; [ apply keeps_ret | apply keeps_raise ]. Qed.

Lemma keeps_create (it : Item) : keeps_stored (create it).
Proof. intro c. split; reflexivity. Qed.

Lemma keeps_delete (what : string) : keeps_stored (delete what).
Proof. unfold delete. destruct (String.eqb what "all"); intro c; split; reflexivity. Qed.

#[export] Hint Resolve keeps_ret keeps_raise keeps_timeout keeps_get keeps_div
  keeps_unpack keeps_create keeps_delete : stored.

(** Splits a sequence of commands into its steps. *)
Ltac keeps :=
  first [ solve [ auto with stored ]
        | apply keeps_bind; [ keeps | intro; keeps ]
        | idtac ].

Lemma keeps_draw_pixel (x y : Q) (color : Color) : keeps_stored (draw_pixel x y color).
Proof. apply keeps_create. Qed.

Lemma keeps_create_line (x0 y0 x1 y1 : Q) (fill tags : string) :
  keeps_stored (create_line x0 y0 x1 y1 fill tags).
Proof. apply keeps_create. Qed.

#[export] Hint Resolve keeps_draw_pixel keeps_create_line : stored.

Lemma keeps_draw_axes : keeps_stored draw_axes.
Proof.
  unfold draw_axes. keeps.
  match goal with |- context [origin ?c] => destruct (origin c) end; keeps.
Qed.

Lemma keeps_for_each {A : Type} (l : list A) (body : A -> Cmd unit) :
  (forall v, keeps_stored (body v)) -> keeps_stored (for_each l body).
Proof.
  intro H. induction l as [ | v l IH]; cbn [for_each]; keeps.
Qed.

Lemma keeps_for_range {St : Type} (n : nat) (body : St -> Cmd St) :
  (forall st, keeps_stored (body st)) -> forall st, keeps_stored (for_range n body st).
Proof.
  intro H. induction n as [ | n IH]; intro st; cbn [for_range]; keeps.
Qed.

Lemma keeps_while {St : Type} (fuel : nat) (cond : St -> bool) (body : St -> Cmd St) :
  (forall st, keeps_stored (body st)) ->
  forall st, keeps_stored (while fuel cond body st).
Proof.
  intro H. induction fuel as [ | fuel IH]; intro st; cbn [while];
    destruct (cond st); keeps.
Qed.

Lemma keeps_draw_DDA_line (x1 y1 x2 y2 : Q) (color : Color) :
  keeps_stored (draw_DDA_line x1 y1 x2 y2 color).
Proof.
  unfold draw_DDA_line. keeps.
  apply keeps_for_range. intro st. unfold DDA_body. keeps.
Qed.

Lemma keeps_plot_circumference_points (xc x yc y : Q) (color : Color) :
  keeps_stored (plot_circumference_points xc x yc y color).
Proof. unfold plot_circumference_points. keeps. Qed.

#[export] Hint Resolve keeps_draw_axes keeps_draw_DDA_line
  keeps_plot_circumference_points : stored.

Lemma keeps_draw_Bresenham_circle (xc yc r : Q) (color : Color) :
  keeps_stored (draw_Bresenham_circle xc yc r color).
Proof.
  unfold draw_Bresenham_circle, draw_Bresenham_circle_loop. keeps.
  apply keeps_while. intros [[x y] p]. unfold circle_body.
  destruct (ltb p 0); keeps.
Qed.

#[export] Hint Resolve keeps_draw_Bresenham_circle : stored.

Lemma keeps_translate (tx ty : Q) (ls : option (list (option Line)))
      (cs : option (list (option Circle))) :
  keeps_stored (translate tx ty ls cs).
Proof.
  unfold translate. keeps; apply keeps_for_each; intro v; keeps.
Qed.

Lemma keeps_translate_points (tx ty : Q) : keeps_stored (translate_points tx ty).
Proof.
  unfold translate_points.
  apply keeps_bind; [ apply keeps_get | intro self; apply keeps_translate ].
Qed.

(** C3.  [translate_points] never stores anything: after it the scene holds
    the lines and circles it held before, whatever the vector.  On the
    scene of one line from (0, 0) to (4, 2) moved by (1, 0) it returns
    normally and the stored line is still the one from (0, 0) to (4, 2),
    which is not the translated line. *)
Theorem translate_points_keeps_stored_lists :
  (forall (tx ty : Q) (c : CartesianPlane),
      lines (snd (translate_points tx ty c)) = lines c
      /\ circles (snd (translate_points tx ty c)) = circles c)
  /\ fst (translate_points 1 0 one_line_scene) = Ok tt
  /\ lines (snd (translate_points 1 0 one_line_scene)) = [Some ((0, 0), (4, 2))]
  /\ lines (snd (translate_points 1 0 one_line_scene))
     <> map (option_map (translated_line 1 0)) (lines one_line_scene).
Proof.
  split; [ | split; [ | split ] ].
  - intros tx ty c. apply keeps_translate_points.
  - vm_compute. reflexivity.
  - vm_compute. reflexivity.
  - vm_compute. discriminate.
Qed.

(** The sibling [scale] does store what it computed. *)
Example scale_stores_scaled_line :
  lines (snd (scale 2 one_line_scene))
  = [Some ((0, 0), (0 + (4 - 0) * 2, 0 + (2 - 0) * 2))].
Proof. vm_compute. reflexivity. Qed.

(** ** Reflection about an axis that is not one (transformation2d.py) *)

Lemma invalid_axis_tests (axis : string) :
  ~ valid_axis axis ->
  String.eqb axis "X" = false /\ String.eqb axis "Y" = false
  /\ String.eqb axis "XY" = false.
Proof.
  unfold valid_axis. intro H.
  repeat split; apply String.eqb_neq; intro E; apply H; tauto.
Qed.

Lemma cartesian_plan_coordinates_run (x y : Q) (c : CartesianPlane) :
  exists p c', cartesian_plan_coordinates x y c = (Ok p, c').
Proof.
  unfold cartesian_plan_coordinates, ensure_origin, bind, ret.
  destruct (origin c) as [o | ]; eexists; eexists; reflexivity.
Qed.

Lemma reflect_line_invalid_axis (line : Line) (axis : string) (c : CartesianPlane) :
  ~ valid_axis axis -> fst (reflect_line line axis c) = Ok None.
Proof.
  intro H. destruct (invalid_axis_tests axis H) as (EX & EY & EXY).
  destruct line as [[x1 y1] [x2 y2]].
  unfold reflect_line.
  destruct (cartesian_plan_coordinates_run x1 y1 c) as ([a1 b1] & c1 & E1).
  unfold bind at 1. rewrite E1.
  destruct (cartesian_plan_coordinates_run x2 y2 c1) as ([a2 b2] & c2 & E2).
  unfold bind at 1. rewrite E2.
  rewrite EX, EY, EXY. reflexivity.
Qed.

Lemma reflect_circle_invalid_axis (circle : Circle) (axis : string) (c : CartesianPlane) :
  ~ valid_axis axis -> fst (reflect_circle circle axis c) = Ok None.
Proof.
  intro H. destruct (invalid_axis_tests axis H) as (EX & EY & EXY).
  destruct circle as [[xc yc] r].
  unfold reflect_circle.
  destruct (cartesian_plan_coordinates_run xc yc c) as ([a1 b1] & c1 & E1).
  unfold bind at 1. rewrite E1.
  rewrite EX, EY, EXY. reflexivity.
Qed.

Lemma reflect_popup_invalid_axis (axis : string) (c : CartesianPlane) :
  ~ valid_axis axis -> reflect_popup (Some axis) c = (Ok tt, c).
Proof.
  intro H. destruct (invalid_axis_tests axis H) as (EX & EY & EXY).
  unfold reflect_popup. cbn [existsb]. rewrite EX, EY, EXY. reflexivity.
Qed.

(** C7, as the code has it.  For an axis token other than X, Y and XY,
    [reflect_line] and [reflect_circle] return [None], not the primitive
    they were given; the scene is left as it is by [reflect_popup], which
    does not call [reflect] for such a token. *)
Theorem reflect_invalid_axis_returns_None :
  forall (line : Line) (circle : Circle) (axis : string) (c : CartesianPlane),
    ~ valid_axis axis ->
    fst (reflect_line line axis c) = Ok None
    /\ fst (reflect_circle circle axis c) = Ok None
    /\ reflect_popup (Some axis) c = (Ok tt, c).
Proof.
  intros line circle axis c H. split; [ | split ].
  - apply reflect_line_invalid_axis. exact H.
  - apply reflect_circle_invalid_axis. exact H.
  - apply reflect_popup_invalid_axis. exact H.
Qed.

Lemma reflect_invalid_axis_returns_None_witness :
  fst (reflect_line ((0, 0), (4, 2)) "Z" one_line_scene) = Ok None
  /\ fst (reflect_circle ((10, 10), 2) "Z" one_line_scene) = Ok None
  /\ reflect_popup (Some "Z"%string) one_line_scene = (Ok tt, one_line_scene).
Proof.
  apply (reflect_invalid_axis_returns_None
           ((0, 0), (4, 2)) ((10, 10), 2) "Z" one_line_scene).
  unfold valid_axis. intros [H | [H | H]]; discriminate H.
Defined.

(** The claim as stated fails: with the axis token Z the line from (0, 0) to
    (4, 2) does not come back. *)
Lemma reflect_line_invalid_axis_not_identity :
  fst (reflect_line ((0, 0), (4, 2)) "Z" one_line_scene) <> Ok (Some ((0, 0), (4, 2))).
Proof. vm_compute. discriminate. Qed.

(** ** Rotation (transformation2d.py) *)

Lemma round_inject_Z (a : Z) : round (inject_Z a) = a.
Proof.
  unfold round. rewrite Qfloor_Z.
  assert (H : Qcompare (inject_Z a - inject_Z a) (1 # 2) = Lt).
  { apply Qlt_alt. assert (E : inject_Z a - inject_Z a == 0) by ring.
    rewrite E. reflexivity. }
  rewrite H. reflexivity.
Qed.

(** [round] moves a number by at most one half. *)
Lemma round_close (q : Q) : Qabs (inject_Z (round q) - q) <= 1 # 2.
Proof.
  unfold round.
  pose proof (Qfloor_le q) as L. pose proof (Qlt_floor q) as U.
  rewrite inject_Z_plus in U. change (inject_Z 1) with 1 in U.
  apply Qabs_Qle_condition.
  destruct (Qcompare (q - inject_Z (Qfloor q)) (1 # 2)) eqn:C.
  - apply Qeq_alt in C. destruct (Z.even (Qfloor q)).
    + split; lra.
    + rewrite inject_Z_plus. change (inject_Z 1) with 1. split; lra.
  - apply Qlt_alt in C. split; lra.
  - apply Qgt_alt in C. rewrite inject_Z_plus. change (inject_Z 1) with 1.
    split; lra.
Qed.

(** C8, as the code has it.  The start point [rotate] returns is the input
    start point with each coordinate passed through [round]: it does not
    depend on the angle, is within one half of the input on each axis, and
    is the input start point itself when that one has integer coordinates. *)
Theorem rotate_start_point_rounded :
  forall (math_radians math_cos math_sin : Q -> Q),
    (forall (line : Line) (angle : Q),
        fst (rotate math_radians math_cos math_sin line angle)
        = (round (fst (fst line)), round (snd (fst line)))
        /\ Qabs (inject_Z (fst (fst (rotate math_radians math_cos math_sin line angle)))
                 - fst (fst line)) <= 1 # 2
        /\ Qabs (inject_Z (snd (fst (rotate math_radians math_cos math_sin line angle)))
                 - snd (fst line)) <= 1 # 2)
    /\ (forall (a b : Z) (p2 : Point) (angle : Q),
           fst (rotate math_radians math_cos math_sin ((inject_Z a, inject_Z b), p2) angle)
           = (a, b)).
Proof.
  intros math_radians math_cos math_sin. split.
  - intros [[x1 y1] [x2 y2]] angle. unfold rotate. cbn [fst snd].
    split; [ reflexivity | split; apply round_close ].
  - intros a b [x2 y2] angle. unfold rotate. cbn [fst snd].
    rewrite !round_inject_Z. reflexivity.
Qed.

(** The claim as stated fails: the start point (1/2, 0) comes back as
    (0, 0), here at angle 0 where the cosine is 1 and the sine 0. *)
Lemma rotate_moves_fractional_start_point :
  ~ inject_Z (fst (fst (rotate (fun a => a) (fun _ => 1) (fun _ => 0)
                               ((1 # 2, 0), (4, 2)) 0))) == 1 # 2.
Proof. vm_compute. discriminate. Qed.

(** * Further properties *)

(** ** Liang-Barsky: what is accepted and what is rejected *)

Lemma fold_max_in (t : list Q) :
  forall m,
    fold_left (fun m v => if ltb m v then v else m) t m = m
    \/ In (fold_left (fun m v => if ltb m v then v else m) t m) t.
Proof.
  induction t as [ | a t IH]; intro m; cbn [fold_left].
  - left. reflexivity.
  - destruct (ltb m a).
    + destruct (IH a) as [E | H]; [ right; left; symmetry; exact E | right; right; exact H ].
    + destruct (IH m) as [E | H]; [ left; exact E | right; right; exact H ].
Qed.

Lemma max_in (a : Q) (t : list Q) : In (max (a :: t)) (a :: t).
Proof.
  cbn [max]. destruct (fold_max_in t a) as [E | H].
  - left. symmetry. exact E.
  - right. exact H.
Qed.

Lemma fold_min_in (t : list Q) :
  forall m,
    fold_left (fun m v => if ltb v m then v else m) t m = m
    \/ In (fold_left (fun m v => if ltb v m then v else m) t m) t.
Proof.
  induction t as [ | a t IH]; intro m; cbn [fold_left].
  - left. reflexivity.
  - destruct (ltb a m).
    + destruct (IH a) as [E | H]; [ right; left; symmetry; exact E | right; right; exact H ].
    + destruct (IH m) as [E | H]; [ left; exact E | right; right; exact H ].
Qed.

Lemma min_in (a : Q) (t : list Q) : In (min (a :: t)) (a :: t).
Proof.
  cbn [min]. destruct (fold_min_in t a) as [E | H].
  - left. symmetry. exact E.
  - right. exact H.
Qed.

(** A number is above [max l] exactly when it is above every element. *)
Lemma max_le_iff (a : Q) (t : list Q) (x : Q) :
  max (a :: t) <= x <-> forall v, In v (a :: t) -> v <= x.
Proof.
  split.
  - intros H v Hin. apply Qle_trans with (max (a :: t)); [ apply max_ge; exact Hin | exact H ].
  - intro H. apply H. apply max_in.
Qed.

Lemma min_ge_iff (a : Q) (t : list Q) (x : Q) :
  x <= min (a :: t) <-> forall v, In v (a :: t) -> x <= v.
Proof.
  split.
  - intros H v Hin. apply Qle_trans with (min (a :: t)); [ exact H | apply min_le; exact Hin ].
  - intro H. apply H. apply min_in.
Qed.

(** Along one axis, the points of the line within the window's range are
    those whose parameter is above the entering parameters and below the
    leaving ones. *)
Lemma lb_axis_exact (a b lo hi : Q) (e l : list Q) :
  eqb (- (b - a)) 0 && ltb (a - lo) 0 = false ->
  eqb (- - (b - a)) 0 && ltb (hi - a) 0 = false ->
  (- (b - a) == 0 /\ e = [] /\ l = [])
  \/ (- (b - a) < 0 /\ e = [(a - lo) / - (b - a)] /\ l = [(hi - a) / - - (b - a)])
  \/ (0 < - (b - a) /\ e = [(hi - a) / - - (b - a)] /\ l = [(a - lo) / - (b - a)]) ->
  forall t,
    (lo <= a + (b - a) * t /\ a + (b - a) * t <= hi)
    <-> ((forall v, In v e -> v <= t) /\ (forall v, In v l -> t <= v)).
Proof.
  intros G1 G2 [(P & -> & ->) | [(P & -> & ->) | (P & -> & ->)]] t.
  - assert (P' : - - (b - a) == 0) by lra.
    apply eqb_true in P. apply eqb_true in P'. rewrite P in G1. rewrite P' in G2.
    cbn [andb] in G1, G2. apply ltb_false in G1. apply ltb_false in G2.
    apply eqb_true in P.
    assert (Z0 : (b - a) * t == 0).
    { assert (D : b - a == 0) by lra. rewrite D. ring. }
    rewrite Z0. split.
    + intros _. split; intros v [].
    + intros _. split; lra.
  - assert (E1 : ((a - lo) / - (b - a)) * - (b - a) == a - lo) by (field; lra).
    assert (E2 : ((hi - a) / - - (b - a)) * - - (b - a) == hi - a) by (field; lra).
    set (u := (a - lo) / - (b - a)) in *. set (w := (hi - a) / - - (b - a)) in *.
    split.
    + intros [L H]. split; intros v [<- | []]; nra.
    + intros [L H]. specialize (L u (or_introl eq_refl)).
      specialize (H w (or_introl eq_refl)). split; nra.
  - assert (E1 : ((a - lo) / - (b - a)) * - (b - a) == a - lo) by (field; lra).
    assert (E2 : ((hi - a) / - - (b - a)) * - - (b - a) == hi - a) by (field; lra).
    set (u := (a - lo) / - (b - a)) in *. set (w := (hi - a) / - - (b - a)) in *.
    split.
    + intros [L H]. split; intros v [<- | []]; nra.
    + intros [L H]. specialize (L w (or_introl eq_refl)).
      specialize (H u (or_introl eq_refl)). split; nra.
Qed.

(** When the test of line 145 fires, the line is parallel to a side of the
    window and beyond it: none of its points is in the window. *)
Lemma lb_parallel_outside (x1 y1 x2 y2 xmin ymin xmax ymax t : Q) :
  (eqb (- (x2 - x1)) 0 && ltb (x1 - xmin) 0)
  || (eqb (- - (x2 - x1)) 0 && ltb (xmax - x1) 0)
  || (eqb (- (y2 - y1)) 0 && ltb (y1 - ymin) 0)
  || (eqb (- - (y2 - y1)) 0 && ltb (ymax - y1) 0) = true ->
  ~ in_window xmin xmax ymin ymax (seg_point x1 y1 x2 y2 t).
Proof.
  intros G [[A B] [C D]]. cbn [seg_point fst snd] in *.
  repeat (apply orb_true_iff in G; destruct G as [G | G]);
    apply andb_true_iff in G; destruct G as [P L];
    apply eqb_true in P; apply ltb_true in L.
  - assert (Z0 : (x2 - x1) * t == 0) by (assert (K : x2 - x1 == 0) by lra; rewrite K; ring).
    lra.
  - assert (Z0 : (x2 - x1) * t == 0) by (assert (K : x2 - x1 == 0) by lra; rewrite K; ring).
    lra.
  - assert (Z0 : (y2 - y1) * t == 0) by (assert (K : y2 - y1 == 0) by lra; rewrite K; ring).
    lra.
  - assert (Z0 : (y2 - y1) * t == 0) by (assert (K : y2 - y1 == 0) by lra; rewrite K; ring).
    lra.
Qed.

(** The run of [clipping_liang_barsky], with the two lists it builds. *)
Lemma clipping_liang_barsky_run (x1 y1 x2 y2 xmin ymin xmax ymax : Q)
      (c : CartesianPlane) :
  (forall t, ~ in_window xmin xmax ymin ymax (seg_point x1 y1 x2 y2 t))
  /\ clipping_liang_barsky x1 y1 x2 y2 xmin ymin xmax ymax c
     = (Ok (false, (None, None)), c)
  \/ exists negt post,
      (forall t, in_window xmin xmax ymin ymax (seg_point x1 y1 x2 y2 t) /\ 0 <= t /\ t <= 1
                 <-> max (0 :: negt) <= t /\ t <= min (1 :: post))
      /\ clipping_liang_barsky x1 y1 x2 y2 xmin ymin xmax ymax c
         = if ltb (min (1 :: post)) (max (0 :: negt))
           then (Ok (false, (None, None)), c)
           else
             let rn1 := max (0 :: negt) in
             let rn2 := min (1 :: post) in
             (Ok (true, (Some (x1 + - - (x2 - x1) * rn1, y1 + - - (y2 - y1) * rn1),
                         Some (x1 + - - (x2 - x1) * rn2, y1 + - - (y2 - y1) * rn2))),
              set_items (items c ++ [Segment (x1 + - - (x2 - x1) * rn1)
                                             (y1 + - - (y2 - y1) * rn1)
                                             (x1 + - - (x2 - x1) * rn2)
                                             (y1 + - - (y2 - y1) * rn2) "red" ""]) c).
Proof.
  unfold clipping_liang_barsky.
  destruct (_ || _ || _ || _) eqn:G.
  { left. split; [ | reflexivity ].
    intro t. apply lb_parallel_outside. exact G. }
  right.
  apply orb_false_iff in G. destruct G as [G G4].
  apply orb_false_iff in G. destruct G as [G G3].
  apply orb_false_iff in G. destruct G as [G1 G2].
  destruct (lb_pair_cases (- (x2 - x1)) (x1 - xmin) (- - (x2 - x1)) (xmax - x1)
              [0] [1] c (Qeq_refl _)) as (ex & lx & E1 & Cx).
  unfold bind at 1. rewrite E1.
  destruct (lb_pair_cases (- (y2 - y1)) (y1 - ymin) (- - (y2 - y1)) (ymax - y1)
              ([0] ++ ex) ([1] ++ lx) c (Qeq_refl _)) as (ey & ly & E2 & Cy).
  unfold bind at 1. rewrite E2.
  exists (ex ++ ey), (lx ++ ly). split.
  - intro t. rewrite max_le_iff, min_ge_iff.
    pose proof (lb_axis_exact x1 x2 xmin xmax ex lx G1 G2 Cx t) as Ax.
    pose proof (lb_axis_exact y1 y2 ymin ymax ey ly G3 G4 Cy t) as Ay.
    unfold in_window, seg_point; cbn [fst snd].
    split.
    + intros [[Wx Wy] [T0 T1]].
      apply Ax in Wx. apply Ay in Wy. destruct Wx as [Ex Lx]. destruct Wy as [Ey Ly].
      split; intros v [<- | Hin]; try assumption;
        apply in_app_iff in Hin; destruct Hin; auto.
    + intros [N P].
      assert (T0 : 0 <= t) by (apply N; left; reflexivity).
      assert (T1 : t <= 1) by (apply P; left; reflexivity).
      split; [ | split; assumption ].
      split.
      * apply Ax. split; intros v Hin; [ apply N | apply P ]; right;
          apply in_app_iff; left; exact Hin.
      * apply Ay. split; intros v Hin; [ apply N | apply P ]; right;
          apply in_app_iff; right; exact Hin.
  - cbn [app]. destruct (ltb (min _) (max _)); reflexivity.
Qed.

(** X1.  [clipping_liang_barsky] raises nothing on any input: it returns a
    rejection and leaves the canvas alone, or an acceptance after drawing
    one red segment. *)
Theorem clipping_liang_barsky_never_raises :
  forall (x1 y1 x2 y2 xmin ymin xmax ymax : Q) (c : CartesianPlane),
    clipping_liang_barsky x1 y1 x2 y2 xmin ymin xmax ymax c
    = (Ok (false, (None, None)), c)
    \/ exists p1 p2,
        clipping_liang_barsky x1 y1 x2 y2 xmin ymin xmax ymax c
        = (Ok (true, (Some p1, Some p2)),
           set_items (items c ++ [Segment (fst p1) (snd p1) (fst p2) (snd p2) "red" ""]) c).
Proof.
  intros x1 y1 x2 y2 xmin ymin xmax ymax c.
  destruct (clipping_liang_barsky_run x1 y1 x2 y2 xmin ymin xmax ymax c)
    as [[_ E] | (negt & post & _ & E)].
  - left. exact E.
  - rewrite E. destruct (ltb (min _) (max _)).
    + left. reflexivity.
    + right. cbv zeta.
      exists (x1 + - - (x2 - x1) * max (0 :: negt), y1 + - - (y2 - y1) * max (0 :: negt)),
             (x1 + - - (x2 - x1) * min (1 :: post), y1 + - - (y2 - y1) * min (1 :: post)).
      reflexivity.
Qed.



(** X4.  A window given with its corners the other way round on an axis
    ([xmax < xmin] or [ymax < ymin], as two clicks from right to left or
    from bottom to top give it) makes [clipping_liang_barsky] reject every
    line. *)
Theorem clipping_liang_barsky_rejects_in_reversed_window :
  forall (x1 y1 x2 y2 xmin ymin xmax ymax : Q) (c : CartesianPlane),
    xmax < xmin \/ ymax < ymin ->
    clipping_liang_barsky x1 y1 x2 y2 xmin ymin xmax ymax c
    = (Ok (false, (None, None)), c).
Proof.
  intros x1 y1 x2 y2 xmin ymin xmax ymax c R.
  destruct (clipping_liang_barsky_run x1 y1 x2 y2 xmin ymin xmax ymax c)
    as [[_ E] | (negt & post & V & E)]; [ exact E | ].
  rewrite E. clear E.
  set (rn1 := max (0 :: negt)) in *. set (rn2 := min (1 :: post)) in *.
  case_ltb rn2 rn1; [ reflexivity | exfalso ].
  assert (W : in_window xmin xmax ymin ymax (seg_point x1 y1 x2 y2 rn1)).
  { apply V. split; [ apply Qle_refl | assumption ]. }
  destruct W as [[W1 W2] [W3 W4]]. destruct R; lra.
Qed.

Lemma clipping_liang_barsky_rejects_in_reversed_window_witness :
  clipping_liang_barsky 0 0 1 1 5 (-5) (-5) 5 blank_canvas
  = (Ok (false, (None, None)), blank_canvas).
Proof.
  apply (clipping_liang_barsky_rejects_in_reversed_window
           0 0 1 1 5 (-5) (-5) 5 blank_canvas).
  left. vm_compute. reflexivity.
Defined.

(** ** Bresenham's line reaches its end point *)

Lemma create_run (it : Item) (c : CartesianPlane) :
  create it c = (Ok tt, set_items (items c ++ [it]) c).
Proof. reflexivity. Qed.

Lemma last_cons_head {A : Type} (l : list A) :
  forall a d : A, last (a :: l) d = last l a.
Proof.
  induction l as [ | q l IH]; intros a d.
  - reflexivity.
  - change (last (q :: l) d = last (q :: l) a). rewrite !IH. reflexivity.
Qed.

(** The x-driven loop (lines 74-82), started after [k] steps of which [j]
    also moved [y]: the decision variable stays the one of the closed form
    and within its bounds, every step moves [x]. *)
Lemma Bresenham_loop_x (dx dy incrx incry : Z) (color : Color) :
  (0 <= dy < dx)%Z ->
  (incrx = 1 \/ incrx = -1)%Z -> (incry = 1 \/ incry = -1)%Z ->
  forall (n : nat) (k j p x y : Z) (c : CartesianPlane),
    (0 <= j)%Z ->
    (p = 2 * dy * (k + 1) - dx - 2 * dx * j)%Z ->
    (2 * dy - 2 * dx < p <= 2 * dy)%Z ->
    exists pts p' x' y' j',
      for_range n (Bresenham_body_x (2 * dy) (2 * (dy - dx)) incrx incry color)
                (p, x, y) c
      = (Ok (p', x', y'), set_items (items c ++ map (pixel_of color) pts) c)
      /\ (j <= j')%Z
      /\ (p' = 2 * dy * (k + Z.of_nat n + 1) - dx - 2 * dx * j')%Z
      /\ (2 * dy - 2 * dx < p' <= 2 * dy)%Z
      /\ (x' = x + Z.of_nat n * incrx)%Z
      /\ (y' = y + (j' - j) * incry)%Z
      /\ List.length pts = n
      /\ last pts (x, y) = (x', y')
      /\ chain8_from (x, y) pts.
Proof.
  intros Hd Hix Hiy.
  induction n as [ | n IH]; intros k j p x y c Hj Hp Hb.
  - exists [], p, x, y, j. cbn [for_range map last chain8_from List.length].
    unfold ret. rewrite app_nil_r.
    repeat split; try lia.
    destruct c; reflexivity.
  - cbn [for_range]. unfold bind at 1. unfold Bresenham_body_x at 1.
    destruct (p <=? 0)%Z eqn:T; [ apply Z.leb_le in T | apply Z.leb_gt in T ];
      unfold bind at 1; unfold draw_pixel; rewrite create_run; unfold ret;
      cbn [fst snd].
    + destruct (IH (k + 1)%Z j (p + 2 * dy)%Z (x + incrx)%Z y
                  (set_items (items c ++ [Pixel (inject_Z (x + incrx)) (inject_Z y) color]) c))
        as (pts & p' & x' & y' & j' & E & A1 & A2 & A3 & A4 & A5 & A6 & A7 & A8);
        [ lia | lia | lia | ].
      exists ((x + incrx, y)%Z :: pts), p', x', y', j'.
      rewrite E. rewrite items_set_items, set_items_set_items, <- app_assoc.
      split; [ reflexivity | ].
      repeat split; try lia.
      * cbn [List.length]. rewrite A6. reflexivity.
      * rewrite last_cons_head. exact A7.
      * cbn [fst snd]. lia.
      * cbn [fst snd]. lia.
      * intro K. inversion K. lia.
      * exact A8.
    + destruct (IH (k + 1)%Z (j + 1)%Z (p + 2 * (dy - dx))%Z (x + incrx)%Z (y + incry)%Z
                  (set_items (items c ++ [Pixel (inject_Z (x + incrx)) (inject_Z (y + incry)) color]) c))
        as (pts & p' & x' & y' & j' & E & A1 & A2 & A3 & A4 & A5 & A6 & A7 & A8);
        [ lia | lia | lia | ].
      exists ((x + incrx, y + incry)%Z :: pts), p', x', y', j'.
      rewrite E. rewrite items_set_items, set_items_set_items, <- app_assoc.
      split; [ reflexivity | ].
      repeat split; try lia.
      * cbn [List.length]. rewrite A6. reflexivity.
      * rewrite last_cons_head. exact A7.
      * cbn [fst snd]. lia.
      * cbn [fst snd]. lia.
      * intro K. inversion K. lia.
      * exact A8.
Qed.

(** The y-driven loop (lines 88-96): the same with the axes exchanged. *)
Lemma Bresenham_loop_y (dx dy incrx incry : Z) (color : Color) :
  (0 <= dx <= dy)%Z -> (0 < dy)%Z ->
  (incrx = 1 \/ incrx = -1)%Z -> (incry = 1 \/ incry = -1)%Z ->
  forall (n : nat) (k j p x y : Z) (c : CartesianPlane),
    (0 <= j)%Z ->
    (p = 2 * dx * (k + 1) - dy - 2 * dy * j)%Z ->
    (2 * dx - 2 * dy < p <= 2 * dx)%Z ->
    exists pts p' x' y' j',
      for_range n (Bresenham_body_y (2 * dx) (2 * (dx - dy)) incrx incry color)
                (p, x, y) c
      = (Ok (p', x', y'), set_items (items c ++ map (pixel_of color) pts) c)
      /\ (j <= j')%Z
      /\ (p' = 2 * dx * (k + Z.of_nat n + 1) - dy - 2 * dy * j')%Z
      /\ (2 * dx - 2 * dy < p' <= 2 * dx)%Z
      /\ (x' = x + (j' - j) * incrx)%Z
      /\ (y' = y + Z.of_nat n * incry)%Z
      /\ List.length pts = n
      /\ last pts (x, y) = (x', y')
      /\ chain8_from (x, y) pts.
Proof.
  intros Hd Hdy Hix Hiy.
  induction n as [ | n IH]; intros k j p x y c Hj Hp Hb.
  - exists [], p, x, y, j. cbn [for_range map last chain8_from List.length].
    unfold ret. rewrite app_nil_r.
    repeat split; try lia.
    destruct c; reflexivity.
  - cbn [for_range]. unfold bind at 1. unfold Bresenham_body_y at 1.
    destruct (p <=? 0)%Z eqn:T; [ apply Z.leb_le in T | apply Z.leb_gt in T ];
      unfold bind at 1; unfold draw_pixel; rewrite create_run; unfold ret;
      cbn [fst snd].
    + destruct (IH (k + 1)%Z j (p + 2 * dx)%Z x (y + incry)%Z
                  (set_items (items c ++ [Pixel (inject_Z x) (inject_Z (y + incry)) color]) c))
        as (pts & p' & x' & y' & j' & E & A1 & A2 & A3 & A4 & A5 & A6 & A7 & A8);
        [ lia | lia | lia | ].
      exists ((x, y + incry)%Z :: pts), p', x', y', j'.
      rewrite E. rewrite items_set_items, set_items_set_items, <- app_assoc.
      split; [ reflexivity | ].
      repeat split; try lia.
      * cbn [List.length]. rewrite A6. reflexivity.
      * rewrite last_cons_head. exact A7.
      * cbn [fst snd]. lia.
      * cbn [fst snd]. lia.
      * intro K. inversion K. lia.
      * exact A8.
    + destruct (IH (k + 1)%Z (j + 1)%Z (p + 2 * (dx - dy))%Z (x + incrx)%Z (y + incry)%Z
                  (set_items (items c ++ [Pixel (inject_Z (x + incrx)) (inject_Z (y + incry)) color]) c))
        as (pts & p' & x' & y' & j' & E & A1 & A2 & A3 & A4 & A5 & A6 & A7 & A8);
        [ lia | lia | lia | ].
      exists ((x + incrx, y + incry)%Z :: pts), p', x', y', j'.
      rewrite E. rewrite items_set_items, set_items_set_items, <- app_assoc.
      split; [ reflexivity | ].
      repeat split; try lia.
      * cbn [List.length]. rewrite A6. reflexivity.
      * rewrite last_cons_head. exact A7.
      * cbn [fst snd]. lia.
      * cbn [fst snd]. lia.
      * intro K. inversion K. lia.
      * exact A8.
Qed.

(** The closed form and the bounds of the decision variable after the last
    step leave one value for the number of steps taken on the other axis. *)
Lemma Bresenham_minor_steps (a b j : Z) :
  (0 < a)%Z ->
  (2 * b - 2 * a < 2 * b * (a + 1) - a - 2 * a * j <= 2 * b)%Z ->
  j = b.
Proof.
  intros Ha [L U].
  assert (L' : (- 2 * a < a * (2 * (b - j) - 1))%Z) by lia.
  assert (U' : (a * (2 * (b - j) - 1) <= 0)%Z) by lia.
  destruct (Z.lt_trichotomy (b - j) 0) as [N | [E | P]]; [ | lia | ]; nia.
Qed.

(** X5.  [draw_Bresenham_line] raises nothing and draws, after the start
    pixel, as many pixels as the longer of the two extents: each is one of
    the eight neighbours of the one before it, and the last one is the end
    point. *)
Theorem draw_Bresenham_line_reaches_end :
  forall (x0 y0 x1 y1 : Z) (color : Color) (c : CartesianPlane),
    exists pts,
      draw_Bresenham_line x0 y0 x1 y1 color c
      = (Ok tt, set_items (items c ++ map (pixel_of color) ((x0, y0) :: pts)) c)
      /\ List.length pts = Z.to_nat (Z.max (Z.abs (x1 - x0)) (Z.abs (y1 - y0)))
      /\ last pts (x0, y0) = (x1, y1)
      /\ chain8_from (x0, y0) pts.
Proof.
  intros x0 y0 x1 y1 color c. unfold draw_Bresenham_line.
  unfold bind at 1. unfold draw_pixel at 1. rewrite create_run.
  set (dx := Z.abs (x1 - x0)). set (dy := Z.abs (y1 - y0)).
  set (incrx := if (x0 <? x1)%Z then 1%Z else (-1)%Z).
  set (incry := if (y0 <? y1)%Z then 1%Z else (-1)%Z).
  assert (Hix : (incrx = 1 \/ incrx = -1)%Z)
    by (unfold incrx; destruct (x0 <? x1)%Z; auto).
  assert (Hiy : (incry = 1 \/ incry = -1)%Z)
    by (unfold incry; destruct (y0 <? y1)%Z; auto).
  assert (Ex : (x0 + dx * incrx = x1)%Z).
  { unfold incrx, dx. destruct (x0 <? x1)%Z eqn:T;
      [ apply Z.ltb_lt in T | apply Z.ltb_ge in T ]; lia. }
  assert (Ey : (y0 + dy * incry = y1)%Z).
  { unfold incry, dy. destruct (y0 <? y1)%Z eqn:T;
      [ apply Z.ltb_lt in T | apply Z.ltb_ge in T ]; lia. }
  assert (Hdx : (0 <= dx)%Z) by (unfold dx; lia).
  assert (Hdy : (0 <= dy)%Z) by (unfold dy; lia).
  clearbody dx dy incrx incry.
  destruct (dy <? dx)%Z eqn:D; [ apply Z.ltb_lt in D | apply Z.ltb_ge in D ].
  - destruct (Bresenham_loop_x dx dy incrx incry color (conj Hdy D) Hix Hiy
                (Z.to_nat dx) 0%Z 0%Z (2 * dy - dx)%Z x0 y0
                (set_items (items c ++ [Pixel (inject_Z x0) (inject_Z y0) color]) c))
      as (pts & p' & x' & y' & j' & E & A1 & A2 & A3 & A4 & A5 & A6 & A7 & A8);
      [ lia | lia | lia | ].
    rewrite Z2Nat.id in A2, A4 by lia.
    assert (J : j' = dy) by (apply (Bresenham_minor_steps dx dy j'); lia).
    exists pts. unfold bind. rewrite E. unfold ret.
    rewrite items_set_items, set_items_set_items, <- app_assoc.
    split; [ reflexivity | ].
    split; [ rewrite A6; f_equal; lia | ].
    split; [ rewrite A7; f_equal; lia | exact A8 ].
  - destruct (Z.eq_dec dy 0) as [Z0 | NZ].
    + assert (Zx : dx = 0%Z) by lia.
      exists []. rewrite Z0. cbn [Z.to_nat for_range]. unfold bind, ret.
      split; [ reflexivity | ].
      split; [ rewrite Zx; reflexivity | ].
      split; [ cbn [last]; f_equal; lia | exact I ].
    + destruct (Bresenham_loop_y dx dy incrx incry color (conj Hdx D) ltac:(lia) Hix Hiy
                  (Z.to_nat dy) 0%Z 0%Z (2 * dx - dy)%Z x0 y0
                  (set_items (items c ++ [Pixel (inject_Z x0) (inject_Z y0) color]) c))
        as (pts & p' & x' & y' & j' & E & A1 & A2 & A3 & A4 & A5 & A6 & A7 & A8);
        [ lia | lia | lia | ].
      rewrite Z2Nat.id in A2, A5 by lia.
      assert (J : j' = dx) by (apply (Bresenham_minor_steps dy dx j'); lia).
      exists pts. unfold bind. rewrite E. unfold ret.
      rewrite items_set_items, set_items_set_items, <- app_assoc.
      split; [ reflexivity | ].
      split; [ rewrite A6; f_equal; lia | ].
      split; [ rewrite A7; f_equal; lia | exact A8 ].
Qed.

(** ** The DDA line *)

Lemma round_comp (a b : Q) : a == b -> round a = round b.
Proof.
  intro E. unfold round. rewrite (Qfloor_comp _ _ E).
  assert (K : a - inject_Z (Qfloor b) == b - inject_Z (Qfloor b)) by (rewrite E; reflexivity).
  rewrite (Qcompare_comp _ _ K _ _ (Qeq_refl (1 # 2))). reflexivity.
Qed.

(** [steps] is zero exactly on a line whose end points coincide. *)
Lemma DDA_steps_zero (x1 y1 x2 y2 : Q) :
  (if ltb (Qabs (y2 - y1)) (Qabs (x2 - x1)) then Qabs (x2 - x1) else Qabs (y2 - y1)) == 0
  <-> x1 == x2 /\ y1 == y2.
Proof.
  pose proof (Qabs_nonneg (x2 - x1)) as Nx. pose proof (Qabs_nonneg (y2 - y1)) as Ny.
  assert (Zx : Qabs (x2 - x1) == 0 <-> x1 == x2).
  { split; intro H.
    - assert (K : x2 - x1 == 0).
      { assert (L : Qabs (x2 - x1) <= 0) by lra.
        apply Qabs_Qle_condition in L. lra. }
      lra.
    - assert (K : x2 - x1 == 0) by lra. rewrite K. reflexivity. }
  assert (Zy : Qabs (y2 - y1) == 0 <-> y1 == y2).
  { split; intro H.
    - assert (K : y2 - y1 == 0).
      { assert (L : Qabs (y2 - y1) <= 0) by lra.
        apply Qabs_Qle_condition in L. lra. }
      lra.
    - assert (K : y2 - y1 == 0) by lra. rewrite K. reflexivity. }
  case_ltb (Qabs (y2 - y1)) (Qabs (x2 - x1)); split.
  - intro H. split; [ apply Zx; exact H | apply Zy; lra ].
  - intros [A B]. apply Zx. exact A.
  - intro H. split; [ apply Zx; lra | apply Zy; exact H ].
  - intros [A B]. apply Zy. exact B.
Qed.

(** The loop of lines 30-33 adds the increments [n] times and draws the
    rounded position after each. *)
Lemma DDA_loop (x_incr y_incr : Q) (color : Color) (n : nat) :
  forall (x y : Q) (c : CartesianPlane),
    exists x' y' pts,
      for_range n (DDA_body x_incr y_incr color) (x, y) c
      = (Ok (x', y'), set_items (items c ++ pts) c)
      /\ x' == x + inject_Z (Z.of_nat n) * x_incr
      /\ y' == y + inject_Z (Z.of_nat n) * y_incr
      /\ List.length pts = n
      /\ (n <> O -> forall d,
            last pts d = Pixel (inject_Z (round x')) (inject_Z (round y')) color).
Proof.
  induction n as [ | n IH]; intros x y c.
  - exists x, y, []. cbn [for_range]. unfold ret. rewrite app_nil_r.
    split; [ destruct c; reflexivity | ].
    change (inject_Z (Z.of_nat 0)) with 0.
    split; [ ring | split; [ ring | split; [ reflexivity | ] ] ].
    intro K. contradiction K. reflexivity.
  - cbn [for_range]. unfold bind at 1. unfold DDA_body at 1. cbn [fst snd].
    unfold bind at 1. rewrite draw_pixel_run. unfold ret.
    destruct (IH (x + x_incr) (y + y_incr)
                (set_items (items c ++ [Pixel (inject_Z (round (x + x_incr)))
                                              (inject_Z (round (y + y_incr))) color]) c))
      as (x' & y' & pts & E & Ex & Ey & L & La).
    exists x', y', (Pixel (inject_Z (round (x + x_incr))) (inject_Z (round (y + y_incr))) color
                     :: pts).
    rewrite E, items_set_items, set_items_set_items, <- app_assoc.
    split; [ reflexivity | ].
    rewrite Nat2Z.inj_succ. unfold Z.succ. rewrite inject_Z_plus.
    change (inject_Z 1) with 1.
    split; [ rewrite Ex; ring | ].
    split; [ rewrite Ey; ring | ].
    split; [ cbn [List.length]; rewrite L; reflexivity | ].
    intros _ d. rewrite last_cons_head.
    destruct n as [ | n].
    + destruct pts; [ | discriminate L ]. cbn [last].
      change (inject_Z (Z.of_nat 0)) with 0 in Ex, Ey.
      rewrite (round_comp x' (x + x_incr)) by (rewrite Ex; ring).
      rewrite (round_comp y' (y + y_incr)) by (rewrite Ey; ring).
      reflexivity.
    + apply La. discriminate.
Qed.

(** X6.  [draw_DDA_line] raises [ZeroDivisionError], before drawing, exactly
    on the lines whose two end points coincide; on every other line it
    returns normally and has drawn the rounded start point first. *)
Theorem draw_DDA_line_raises_iff_degenerate :
  forall (x1 y1 x2 y2 : Q) (color : Color) (c : CartesianPlane),
    ((x1 == x2 /\ y1 == y2)
     /\ draw_DDA_line x1 y1 x2 y2 color c = (Raise ZeroDivisionError, c))
    \/ (~ (x1 == x2 /\ y1 == y2)
        /\ exists pts,
            draw_DDA_line x1 y1 x2 y2 color c
            = (Ok tt,
               set_items (items c ++ Pixel (inject_Z (round x1)) (inject_Z (round y1)) color
                                     :: pts) c)).
Proof.
  intros x1 y1 x2 y2 color c. unfold draw_DDA_line.
  set (steps := if ltb (Qabs (y2 - y1)) (Qabs (x2 - x1))
                then Qabs (x2 - x1) else Qabs (y2 - y1)).
  pose proof (DDA_steps_zero x1 y1 x2 y2) as Z0. fold steps in Z0.
  destruct (Qeq_dec steps 0) as [E | E].
  - left. split; [ apply Z0; exact E | ].
    unfold bind at 1. rewrite (div_zero _ _ c E). reflexivity.
  - right. split; [ intro K; apply E; apply Z0; exact K | ].
    unfold bind at 1. rewrite (div_ok _ _ c E).
    unfold bind at 1. rewrite (div_ok _ _ c E).
    unfold bind at 1. rewrite draw_pixel_run.
    destruct (DDA_loop ((x2 - x1) / steps) ((y2 - y1) / steps) color
                (Z.to_nat (round steps)) x1 y1
                (set_items (items c ++ [Pixel (inject_Z (round x1)) (inject_Z (round y1)) color]) c))
      as (x' & y' & pts & R & _).
    exists pts. unfold bind. rewrite R. unfold ret.
    rewrite items_set_items, set_items_set_items, <- app_assoc. reflexivity.
Qed.

Lemma Qabs_inject_Z_minus (a b : Z) :
  Qabs (inject_Z a - inject_Z b) == inject_Z (Z.abs (a - b)).
Proof.
  assert (E : inject_Z a - inject_Z b == inject_Z (a - b)).
  { unfold Z.sub. rewrite inject_Z_plus, inject_Z_opp. reflexivity. }
  rewrite E. reflexivity.
Qed.

(** Between integer points [steps] is the longer of the two extents. *)
Lemma DDA_steps_integer (x0 y0 x1 y1 : Z) :
  (if ltb (Qabs (inject_Z y1 - inject_Z y0)) (Qabs (inject_Z x1 - inject_Z x0))
   then Qabs (inject_Z x1 - inject_Z x0) else Qabs (inject_Z y1 - inject_Z y0))
  == inject_Z (Z.max (Z.abs (x1 - x0)) (Z.abs (y1 - y0))).
Proof.
  pose proof (Qabs_inject_Z_minus x1 x0) as Ex.
  pose proof (Qabs_inject_Z_minus y1 y0) as Ey.
  case_ltb (Qabs (inject_Z y1 - inject_Z y0)) (Qabs (inject_Z x1 - inject_Z x0)).
  - rewrite Ex, Ey in E. rewrite <- Zlt_Qlt in E. rewrite Ex.
    rewrite Z.max_l by lia. reflexivity.
  - rewrite Ex, Ey in E. rewrite <- Zle_Qle in E. rewrite Ey.
    rewrite Z.max_r by lia. reflexivity.
Qed.

(** X7.  Between two different integer points [draw_DDA_line] returns
    normally; it draws the start point, then as many pixels as the longer
    of the two extents, the last of which is the end point. *)
Theorem draw_DDA_line_integer_endpoints :
  forall (x0 y0 x1 y1 : Z) (color : Color) (c : CartesianPlane),
    (x0, y0) <> (x1, y1) ->
    exists pts,
      draw_DDA_line (inject_Z x0) (inject_Z y0) (inject_Z x1) (inject_Z y1) color c
      = (Ok tt, set_items (items c ++ pixel_of color (x0, y0) :: pts) c)
      /\ List.length pts = Z.to_nat (Z.max (Z.abs (x1 - x0)) (Z.abs (y1 - y0)))
      /\ last pts (pixel_of color (x0, y0)) = pixel_of color (x1, y1).
Proof.
  intros x0 y0 x1 y1 color c Hne. unfold draw_DDA_line.
  pose proof (DDA_steps_integer x0 y0 x1 y1) as Hs.
  set (steps := if ltb (Qabs (inject_Z y1 - inject_Z y0)) (Qabs (inject_Z x1 - inject_Z x0))
                then Qabs (inject_Z x1 - inject_Z x0)
                else Qabs (inject_Z y1 - inject_Z y0)) in *.
  set (n := Z.max (Z.abs (x1 - x0)) (Z.abs (y1 - y0))) in *.
  assert (Hn : (0 < n)%Z).
  { unfold n. destruct (Z.eq_dec x0 x1) as [A | A]; [ | lia ].
    destruct (Z.eq_dec y0 y1) as [B | B]; [ | lia ].
    exfalso. apply Hne. rewrite A, B. reflexivity. }
  assert (HnQ : 0 < inject_Z n) by (change 0 with (inject_Z 0); rewrite <- Zlt_Qlt; exact Hn).
  assert (E : ~ steps == 0) by (rewrite Hs; lra).
  unfold bind at 1. rewrite (div_ok _ _ c E).
  unfold bind at 1. rewrite (div_ok _ _ c E).
  unfold bind at 1. rewrite draw_pixel_run.
  rewrite (round_comp steps (inject_Z n) Hs), !round_inject_Z.
  destruct (DDA_loop ((inject_Z x1 - inject_Z x0) / steps) ((inject_Z y1 - inject_Z y0) / steps)
              color (Z.to_nat n) (inject_Z x0) (inject_Z y0)
              (set_items (items c ++ [Pixel (inject_Z x0) (inject_Z y0) color]) c))
    as (x' & y' & pts & R & Ex & Ey & L & La).
  exists pts. unfold bind. rewrite R. unfold ret.
  rewrite items_set_items, set_items_set_items, <- app_assoc.
  split; [ reflexivity | ].
  split; [ exact L | ].
  rewrite Z2Nat.id in Ex, Ey by lia.
  rewrite La by lia.
  assert (X : x' == inject_Z x1) by (rewrite Ex, Hs; field; lra).
  assert (Y : y' == inject_Z y1) by (rewrite Ey, Hs; field; lra).
  rewrite (round_comp _ _ X), (round_comp _ _ Y), !round_inject_Z. reflexivity.
Qed.

Lemma draw_DDA_line_integer_endpoints_witness :
  exists pts,
    draw_DDA_line (inject_Z 0) (inject_Z 0) (inject_Z 4) (inject_Z 2) black blank_canvas
    = (Ok tt, set_items (items blank_canvas ++ pixel_of black (0, 0)%Z :: pts) blank_canvas)
    /\ List.length pts = Z.to_nat (Z.max (Z.abs (4 - 0)) (Z.abs (2 - 0)))
    /\ last pts (pixel_of black (0, 0)%Z) = pixel_of black (4, 2)%Z.
Proof.
  apply (draw_DDA_line_integer_endpoints 0 0 4 2 black blank_canvas).
  discriminate.
Defined.

(** ** The circle stays near the ideal one *)

Lemma plot_circumference_points_near (xc yc r x y : Q) (color : Color) :
  r * r - r <= x * x + y * y -> x * x + y * y <= r * r + r ->
  Forall (near_circle xc yc r)
    [Pixel (xc - x) (yc + y) color; Pixel (xc + x) (yc - y) color;
     Pixel (xc + x) (yc + y) color; Pixel (xc - x) (yc - y) color;
     Pixel (xc + y) (yc + x) color; Pixel (xc - y) (yc + x) color;
     Pixel (xc + y) (yc - x) color; Pixel (xc - y) (yc - x) color].
Proof.
  intros L U.
  repeat (apply Forall_cons; [ unfold near_circle; split; nra | ]).
  apply Forall_nil.
Qed.

(** One pass of the loop keeps [circle_inv] and draws pixels near the
    circle. *)
Lemma circle_body_keeps_inv (xc yc r : Q) (color : Color) (st : Q * Q * Q)
      (c : CartesianPlane) :
  circle_inv r st -> circle_cond st = true ->
  exists st' px,
    circle_body xc yc color st c = (Ok st', set_items (items c ++ px) c)
    /\ circle_inv r st'
    /\ Forall (near_circle xc yc r) px.
Proof.
  destruct st as [[x y] p]. unfold circle_inv, circle_cond.
  intros ((a & b & Ea & Eb) & X0 & Yr & P & L & U) C.
  apply ltb_true in C.
  assert (S1 : x + 1 <= y).
  { rewrite Ea, Eb in C. rewrite <- Zlt_Qlt in C.
    rewrite Ea, Eb. change 1 with (inject_Z 1). rewrite <- inject_Z_plus.
    rewrite <- Zle_Qle. lia. }
  unfold circle_body. case_ltb p 0; unfold bind; rewrite plot_circumference_points_run;
    unfold ret; eexists; eexists; (split; [ reflexivity | ]).
  - split.
    + split; [ exists (a + 1)%Z, b; rewrite inject_Z_plus, Ea; split; [ reflexivity | exact Eb ] | ].
      repeat split; try lra; try nra.
    + apply plot_circumference_points_near; nra.
  - split.
    + split.
      * exists (a + 1)%Z, (b - 1)%Z. unfold Z.sub.
        rewrite !inject_Z_plus, inject_Z_opp, Ea, Eb. split; reflexivity.
      * repeat split; try lra; try nra.
    + apply plot_circumference_points_near; nra.
Qed.

(** Whatever the loop draws before it ends is near the circle. *)
Lemma circle_while_near (xc yc r : Q) (color : Color) (fuel : nat) :
  forall (st : Q * Q * Q) (c c' : CartesianPlane) (res : nat * (Q * Q * Q)),
    circle_inv r st ->
    while fuel circle_cond (circle_body xc yc color) st c = (Ok res, c') ->
    exists px, c' = set_items (items c ++ px) c /\ Forall (near_circle xc yc r) px.
Proof.
  induction fuel as [ | fuel IH]; intros st c c' res Hinv H; cbn [while] in H.
  - destruct (circle_cond st); [ discriminate H | ].
    injection H as _ <-. exists []. rewrite app_nil_r.
    split; [ destruct c; reflexivity | apply Forall_nil ].
  - destruct (circle_cond st) eqn:C.
    + destruct (circle_body_keeps_inv xc yc r color st c Hinv C) as (st1 & px1 & B & I1 & N1).
      unfold bind at 1 in H. rewrite B in H.
      unfold bind at 1 in H.
      destruct (while fuel circle_cond (circle_body xc yc color) st1 _)
        as [[r1 | e | ] c2] eqn:W; try discriminate H.
      destruct (IH _ _ _ _ I1 W) as (px2 & E2 & N2).
      unfold ret in H. injection H as _ <-.
      exists (px1 ++ px2). rewrite E2, items_set_items, set_items_set_items, app_assoc.
      split; [ reflexivity | apply Forall_app; split; assumption ].
    + injection H as _ <-. exists []. rewrite app_nil_r.
      split; [ destruct c; reflexivity | apply Forall_nil ].
Qed.

Lemma draw_Bresenham_circle_loop_near (xc yc : Q) (k : Z) (color : Color)
      (c c' : CartesianPlane) (fuel n : nat) :
  (0 <= k)%Z ->
  draw_Bresenham_circle_loop fuel xc yc (inject_Z k) color c = (Ok n, c') ->
  exists px, c' = set_items (items c ++ px) c
             /\ Forall (near_circle xc yc (inject_Z k)) px.
Proof.
  intros Hk H.
  assert (HkQ : 0 <= inject_Z k) by (change 0 with (inject_Z 0); rewrite <- Zle_Qle; exact Hk).
  unfold draw_Bresenham_circle_loop in H.
  unfold bind at 1 in H. rewrite plot_circumference_points_run in H.
  unfold bind at 1 in H.
  destruct (while fuel circle_cond _ _ _) as [[res | e | ] c2] eqn:W; try discriminate H.
  unfold ret in H. injection H as _ <-.
  assert (I0 : circle_inv (inject_Z k) (0, inject_Z k, 3 - 2 * inject_Z k)).
  { unfold circle_inv. split; [ exists 0%Z, k; split; reflexivity | ].
    repeat split; try lra; nra. }
  destruct (circle_while_near _ _ _ _ _ _ _ _ _ I0 W) as (px & E & N).
  eexists. rewrite E, items_set_items, set_items_set_items, <- app_assoc.
  split; [ reflexivity | ].
  apply Forall_app. split; [ | exact N ].
  apply plot_circumference_points_near; nra.
Qed.

(** X8.  For an integer radius [r >= 0], every pixel [draw_Bresenham_circle]
    draws has a squared distance to the center that differs from [r * r] by
    at most [r]. *)
Theorem draw_Bresenham_circle_near_circle :
  forall (xc yc : Q) (k : Z) (color : Color) (c : CartesianPlane),
    (0 <= k)%Z ->
    exists px,
      draw_Bresenham_circle xc yc (inject_Z k) color c
      = (Ok tt, set_items (items c ++ px) c)
      /\ Forall (near_circle xc yc (inject_Z k)) px.
Proof.
  intros xc yc k color c Hk.
  destruct (draw_Bresenham_circle_loop_terminates xc yc (inject_Z k) color c
              (circle_fuel (inject_Z k)) (Nat.le_refl _)) as (n & c' & E & _).
  destruct (draw_Bresenham_circle_loop_near _ _ _ _ _ _ _ _ Hk E) as (px & Ec & N).
  exists px. unfold draw_Bresenham_circle, bind. rewrite E, Ec.
  split; [ reflexivity | exact N ].
Qed.

Lemma draw_Bresenham_circle_near_circle_witness :
  exists px,
    draw_Bresenham_circle 0 0 (inject_Z 5) black blank_canvas
    = (Ok tt, set_items (items blank_canvas ++ px) blank_canvas)
    /\ Forall (near_circle 0 0 (inject_Z 5)) px.
Proof.
  apply (draw_Bresenham_circle_near_circle 0 0 5 black blank_canvas).
  discriminate.
Defined.

(** ** Scaling *)

Lemma for_append_unpack {A B : Type} (g : A -> B) (l : list A) (c : CartesianPlane) :
  for_append (map Some l) (fun v => a <- unpack v ;; ret (Some (g a))) c
  = (Ok (map (fun a => Some (g a)) l), c).
Proof.
  induction l as [ | a l IH]; cbn [map for_append].
  - reflexivity.
  - unfold bind at 1. unfold bind at 1. cbn [unpack]. unfold ret at 1 2.
    unfold bind at 1. rewrite IH. reflexivity.
Qed.

Lemma draw_axes_run (c : CartesianPlane) (o : Q * Q) :
  origin c = Some o ->
  exists c', draw_axes c = (Ok tt, c')
             /\ lines c' = lines c /\ circles c' = circles c /\ origin c' = Some o.
Proof.
  intro O. unfold draw_axes, delete. cbn [String.eqb Ascii.eqb Bool.eqb].
  unfold bind, modify, get, create_line, create, modify.
  cbn [origin set_items]. rewrite O.
  eexists. split; [ reflexivity | ]. cbn [lines circles origin set_items].
  repeat split; assumption.
Qed.

Lemma keeps_draw_stored : keeps_stored draw_stored.
Proof.
  unfold draw_stored.
  apply keeps_bind; [ apply keeps_get | intro self ].
  apply keeps_bind; [ apply keeps_for_each; intro v; keeps | intros _ ].
  apply keeps_bind; [ apply keeps_get | intro self' ].
  apply keeps_for_each; intro v; keeps.
Qed.



(** ** Reflection about a valid axis *)

Lemma mirror_involutive (o : Q * Q) (axis : string) (p q : Point) :
  valid_axis axis ->
  Point_eq q (mirror o axis p) -> Point_eq (mirror o axis q) p.
Proof.
  intros [-> | [-> | ->]]; unfold Point_eq, mirror;
    cbn [String.eqb Ascii.eqb Bool.eqb fst snd]; intros [A B]; split; lra.
Qed.

(** ** Rotation by an angle that moves the end point less than half a pixel *)

(** [round] gives the integer that is closer than one half. *)
Lemma round_near (q : Q) (a : Z) : Qabs (q - inject_Z a) < 1 # 2 -> round q = a.
Proof.
  intro H.
  assert (B : - (1 # 2) < q - inject_Z a /\ q - inject_Z a < 1 # 2)
    by (apply Qabs_Qlt_condition; exact H).
  destruct B as [B1 B2].
  pose proof (Qfloor_le q) as L. pose proof (Qlt_floor q) as U.
  rewrite inject_Z_plus in U. change (inject_Z 1) with 1 in U.
  unfold round.
  destruct (Qlt_le_dec q (inject_Z a)) as [Lo | Hi].
  - assert (F : Qfloor q = (a - 1)%Z).
    { assert (F1 : (Qfloor q < a)%Z) by (rewrite Zlt_Qlt; lra).
      assert (F2 : (a - 1 < Qfloor q + 1)%Z).
      { rewrite Zlt_Qlt. unfold Z.sub. rewrite !inject_Z_plus, inject_Z_opp.
        change (inject_Z 1) with 1. lra. }
      lia. }
    rewrite F.
    assert (G : Qcompare (q - inject_Z (a - 1)) (1 # 2) = Gt).
    { apply Qgt_alt. unfold Z.sub. rewrite inject_Z_plus, inject_Z_opp.
      change (inject_Z 1) with 1. lra. }
    rewrite G. lia.
  - assert (F : Qfloor q = a).
    { assert (F1 : (Qfloor q < a + 1)%Z).
      { rewrite Zlt_Qlt, inject_Z_plus. change (inject_Z 1) with 1. lra. }
      assert (F2 : (a < Qfloor q + 1)%Z).
      { rewrite Zlt_Qlt, inject_Z_plus. change (inject_Z 1) with 1. lra. }
      lia. }
    rewrite F.
    assert (G : Qcompare (q - inject_Z a) (1 # 2) = Lt) by (apply -> Qlt_alt; exact B2).
    rewrite G. reflexivity.
Qed.



(** ** Cohen-Sutherland on a window with [min <= max]: the loop ends *)

(** The tests of lines 51-60 read the position of the point. *)
Lemma region_code_tests (x y x_min x_max y_min y_max : Q) :
  x_min <= x_max -> y_min <= y_max ->
  let c := region_code x y x_min x_max y_min y_max in
  negb (Z.land c TOP =? 0)%Z = ltb y_max y
  /\ negb (Z.land c BOTTOM =? 0)%Z = ltb y y_min
  /\ negb (Z.land c RIGHT =? 0)%Z = ltb x_max x
  /\ negb (Z.land c LEFT =? 0)%Z = ltb x x_min
  /\ code_bits c
     = ((if ltb x x_min || ltb x_max x then 1 else 0)
        + (if ltb y y_min || ltb y_max y then 1 else 0))%nat.
Proof.
  intros Nx Ny. cbv zeta.
  pose proof (region_code_cases x y x_min x_max y_min y_max) as R. cbv zeta in R.
  unfold TOP, BOTTOM, RIGHT, LEFT.
  decompose [or and] R; clear R;
    match goal with A : region_code _ _ _ _ _ _ = _ |- _ => rewrite A; clear A end;
    case_ltb y_max y; try (exfalso; lra);
    case_ltb y y_min; try (exfalso; lra);
    case_ltb x_max x; try (exfalso; lra);
    case_ltb x x_min; try (exfalso; lra);
    repeat split; reflexivity.
Qed.

Lemma code_bits_zero (x y x_min x_max y_min y_max : Q) :
  code_bits (region_code x y x_min x_max y_min y_max) = O ->
  region_code x y x_min x_max y_min y_max = 0%Z.
Proof.
  pose proof (region_code_cases x y x_min x_max y_min y_max) as R. cbv zeta in R.
  decompose [or and] R; clear R;
    match goal with A : region_code _ _ _ _ _ _ = _ |- _ => rewrite A; clear A end;
    cbn; intro K; try discriminate K; reflexivity.
Qed.

Lemma code_bits_le_2 (x y x_min x_max y_min y_max : Q) :
  (code_bits (region_code x y x_min x_max y_min y_max) <= 2)%nat.
Proof.
  pose proof (region_code_cases x y x_min x_max y_min y_max) as R. cbv zeta in R.
  decompose [or and] R; clear R;
    match goal with A : region_code _ _ _ _ _ _ = _ |- _ => rewrite A; clear A end;
    cbn; lia.
Qed.

(** The point at the fraction [s = (b - ui) / (uf - ui)] of the way from
    [ui] to [uf] is [b], and [s] is a fraction when [b] lies between. *)
Lemma clip_frac_between (ui uf b : Q) :
  ~ uf - ui == 0 ->
  (uf <= b /\ b <= ui) \/ (ui <= b /\ b <= uf) ->
  (0 <= (b - ui) / (uf - ui) /\ (b - ui) / (uf - ui) <= 1)
  /\ b == ui + (uf - ui) * ((b - ui) / (uf - ui)).
Proof.
  intros D B.
  assert (S : ((b - ui) / (uf - ui)) * (uf - ui) == b - ui) by (field; exact D).
  set (s := (b - ui) / (uf - ui)) in *.
  assert (D' : uf - ui < 0 \/ 0 < uf - ui).
  { destruct (Qlt_le_dec (uf - ui) 0) as [K | K]; [ left; exact K | right ].
    destruct (Qlt_le_dec 0 (uf - ui)) as [K' | K']; [ exact K' | exfalso; apply D; lra ]. }
  split; [ | lra ].
  destruct D' as [D' | D']; destruct B as [[B1 B2] | [B1 B2]]; split; nra.
Qed.

Lemma lerp_between (wi wf s : Q) :
  0 <= s -> s <= 1 ->
  (wi <= wi + (wf - wi) * s /\ wi + (wf - wi) * s <= wf)
  \/ (wf <= wi + (wf - wi) * s /\ wi + (wf - wi) * s <= wi).
Proof.
  intros S0 S1. destruct (Qlt_le_dec wi wf) as [K | K]; [ left | right ]; split; nra.
Qed.

(** Before the fraction [s] the line is still on the side of [ui]; after
    it, on the side of [uf]. *)
Lemma lerp_cut_before (ui uf b r : Q) :
  ~ uf - ui == 0 -> r < (b - ui) / (uf - ui) ->
  (uf <= b -> b < ui -> b < ui + (uf - ui) * r)
  /\ (b <= uf -> ui < b -> ui + (uf - ui) * r < b).
Proof.
  intros D R.
  assert (S : ((b - ui) / (uf - ui)) * (uf - ui) == b - ui) by (field; exact D).
  set (s := (b - ui) / (uf - ui)) in *.
  split; intros; nra.
Qed.

Lemma lerp_cut_after (ui uf b r : Q) :
  ~ uf - ui == 0 -> (b - ui) / (uf - ui) < r ->
  (ui <= b -> b < uf -> b < ui + (uf - ui) * r)
  /\ (b <= ui -> uf < b -> ui + (uf - ui) * r < b).
Proof.
  intros D R.
  assert (S : ((b - ui) / (uf - ui)) * (uf - ui) == b - ui) by (field; exact D).
  set (s := (b - ui) / (uf - ui)) in *.
  split; intros; nra.
Qed.

(** A point [N] between the end points [o] and [k], on a side of the window
    that [o] is beyond, is beyond fewer sides than [o], or beyond a side
    that [k] is beyond too. *)
Lemma clip_measure (x_min x_max y_min y_max xo yo xk yk nx ny : Q) :
  x_min <= x_max -> y_min <= y_max ->
  (xo <= nx /\ nx <= xk) \/ (xk <= nx /\ nx <= xo) ->
  (yo <= ny /\ ny <= yk) \/ (yk <= ny /\ ny <= yo) ->
  ((y_max < yo \/ yo < y_min) /\ y_min <= ny /\ ny <= y_max)
  \/ ((x_max < xo \/ xo < x_min) /\ x_min <= nx /\ nx <= x_max) ->
  (code_bits (region_code nx ny x_min x_max y_min y_max)
   < code_bits (region_code xo yo x_min x_max y_min y_max))%nat
  \/ Z.land (region_code nx ny x_min x_max y_min y_max)
            (region_code xk yk x_min x_max y_min y_max) <> 0%Z.
Proof.
  intros Nx Ny Bx By Side.
  destruct (region_code_tests nx ny x_min x_max y_min y_max Nx Ny) as (_ & _ & _ & _ & Cn).
  destruct (region_code_tests xo yo x_min x_max y_min y_max Nx Ny) as (_ & _ & _ & _ & Co).
  rewrite Cn, Co.
  rewrite (shared_region_same_side nx ny xk yk x_min x_max y_min y_max Nx Ny).
  case_ltb nx x_min; case_ltb x_max nx; try (exfalso; lra);
    case_ltb ny y_min; case_ltb y_max ny; try (exfalso; lra);
    case_ltb xo x_min; case_ltb x_max xo; try (exfalso; lra);
    case_ltb yo y_min; case_ltb y_max yo; try (exfalso; lra);
    cbn [orb Nat.add];
    try (left; lia);
    try (exfalso; decompose [or and] Side; lra);
    right;
    decompose [or and] Bx; decompose [or and] By;
    first [ left; split; lra
          | right; left; split; lra
          | right; right; left; split; lra
          | right; right; right; split; lra ].
Qed.

(** Ends a branch of [cs_intersection_geometry] that cuts at [y = b]. *)
Ltac clip_on_y b :=
  match goal with
  | v : cs_vars, c : CartesianPlane |- _ =>
      let D := fresh "D" in
      assert (D : ~ y_final v - y_initial v == 0) by lra;
      unfold bind; rewrite (div_ok _ _ c D); unfold ret;
      exists (x_initial v
              + (x_final v - x_initial v) * (b - y_initial v) / (y_final v - y_initial v), b),
             ((b - y_initial v) / (y_final v - y_initial v));
      split; [ reflexivity | ];
      let S01 := fresh "S01" in
      let Sb := fresh "Sb" in
      destruct (clip_frac_between (y_initial v) (y_final v) b D) as [S01 Sb];
      [ lra | ];
      let Lx := fresh "Lx" in
      pose proof (lerp_between (x_initial v) (x_final v) _ (proj1 S01) (proj2 S01)) as Lx;
      let Ex := fresh "Ex" in
      assert (Ex : x_initial v
                   + (x_final v - x_initial v) * (b - y_initial v) / (y_final v - y_initial v)
                   == x_initial v
                      + (x_final v - x_initial v)
                        * ((b - y_initial v) / (y_final v - y_initial v)))
        by (field; exact D);
      unfold cs_clip_ok; cbn [fst snd];
      split; [ exact S01 | ];
      split; [ unfold Point_eq, seg_point; cbn [fst snd]; split; [ exact Ex | exact Sb ] | ]
  end.

Ltac clip_on_x b :=
  match goal with
  | v : cs_vars, c : CartesianPlane |- _ =>
      let D := fresh "D" in
      assert (D : ~ x_final v - x_initial v == 0) by lra;
      unfold bind; rewrite (div_ok _ _ c D); unfold ret;
      exists (b, y_initial v
                 + (y_final v - y_initial v) * (b - x_initial v) / (x_final v - x_initial v)),
             ((b - x_initial v) / (x_final v - x_initial v));
      split; [ reflexivity | ];
      let S01 := fresh "S01" in
      let Sb := fresh "Sb" in
      destruct (clip_frac_between (x_initial v) (x_final v) b D) as [S01 Sb];
      [ lra | ];
      let Lx := fresh "Lx" in
      pose proof (lerp_between (y_initial v) (y_final v) _ (proj1 S01) (proj2 S01)) as Lx;
      let Ex := fresh "Ex" in
      assert (Ex : y_initial v
                   + (y_final v - y_initial v) * (b - x_initial v) / (x_final v - x_initial v)
                   == y_initial v
                      + (y_final v - y_initial v)
                        * ((b - x_initial v) / (x_final v - x_initial v)))
        by (field; exact D);
      unfold cs_clip_ok; cbn [fst snd];
      split; [ exact S01 | ];
      split; [ unfold Point_eq, seg_point; cbn [fst snd]; split; [ exact Sb | exact Ex ] | ]
  end.

(** One boundary intersection (lines 51-62), on a window with [min <= max]:
    where it lands and what it cuts off. *)
Lemma cs_intersection_geometry (x_min x_max y_min y_max : Q) (v : cs_vars)
      (c : CartesianPlane) :
  x_min <= x_max -> y_min <= y_max ->
  cs_inv x_min x_max y_min y_max v ->
  cs_exit v = false ->
  exists N s,
    cs_intersection x_min x_max y_min y_max v
      (if negb (code1 v =? 0)%Z then code1 v else code2 v) c = (Ok N, c)
    /\ cs_clip_ok x_min x_max y_min y_max v N s.
Proof.
  intros Nx Ny (H1 & H2 & _) Hx.
  unfold cs_exit in Hx. apply orb_false_iff in Hx. destruct Hx as [Ha Hb].
  apply negb_false_iff in Hb. apply Z.eqb_eq in Hb.
  pose proof (shared_region_same_side (x_initial v) (y_initial v) (x_final v) (y_final v)
                x_min x_max y_min y_max Nx Ny) as SS.
  rewrite <- H1, <- H2 in SS.
  assert (NS : ~ ((x_initial v < x_min /\ x_final v < x_min)
                  \/ (x_max < x_initial v /\ x_max < x_final v)
                  \/ (y_initial v < y_min /\ y_final v < y_min)
                  \/ (y_max < y_initial v /\ y_max < y_final v)))
    by (intro K; apply SS in K; contradiction).
  clear SS.
  destruct (region_code_tests (x_initial v) (y_initial v) x_min x_max y_min y_max Nx Ny)
    as (T1 & T2 & T3 & T4 & _).
  destruct (region_code_tests (x_final v) (y_final v) x_min x_max y_min y_max Nx Ny)
    as (U1 & U2 & U3 & U4 & _).
  rewrite <- H1 in T1, T2, T3, T4. rewrite <- H2 in U1, U2, U3, U4.
  unfold cs_intersection.
  destruct (code1 v =? 0)%Z eqn:E1; cbn [negb].
  - (* the first end point is in the window, the second one is cut *)
    pose proof E1 as E1b. apply Z.eqb_eq in E1.
    assert (W : in_window x_min x_max y_min y_max (x_initial v, y_initial v))
      by (apply region_code_inside; rewrite <- H1; exact E1).
    destruct W as [[W1 W2] [W3 W4]]. cbn [fst snd] in *.
    rewrite U1, U2, U3, U4.
    assert (M : forall nx ny,
               (x_final v <= nx /\ nx <= x_initial v) \/ (x_initial v <= nx /\ nx <= x_final v) ->
               (y_final v <= ny /\ ny <= y_initial v) \/ (y_initial v <= ny /\ ny <= y_final v) ->
               ((y_max < y_final v \/ y_final v < y_min) /\ y_min <= ny /\ ny <= y_max)
               \/ ((x_max < x_final v \/ x_final v < x_min) /\ x_min <= nx /\ nx <= x_max) ->
               (code_bits (region_code nx ny x_min x_max y_min y_max) < code_bits (code2 v))%nat
               \/ Z.land (region_code nx ny x_min x_max y_min y_max) (code1 v) <> 0%Z).
    { intros nx ny Bx By Sd. rewrite H1, H2.
      apply (clip_measure x_min x_max y_min y_max (x_final v) (y_final v)); assumption. }
    case_ltb y_max (y_final v); [ | case_ltb (y_final v) y_min;
                                    [ | case_ltb x_max (x_final v);
                                        [ | case_ltb (x_final v) x_min ] ] ].
    + clip_on_y y_max.
      split; [ intro K; contradiction | ].
      split.
      * intros _ r R1 R2 [[V1 V2] [V3 V4]]. cbn [seg_point fst snd] in *.
        destruct (lerp_cut_after (y_initial v) (y_final v) y_max r D R1) as [Cu _]. lra.
      * rewrite E1b. apply M; lra.
    + clip_on_y y_min.
      split; [ intro K; contradiction | ].
      split.
      * intros _ r R1 R2 [[V1 V2] [V3 V4]]. cbn [seg_point fst snd] in *.
        destruct (lerp_cut_after (y_initial v) (y_final v) y_min r D R1) as [_ Cl]. lra.
      * rewrite E1b. apply M; lra.
    + clip_on_x x_max.
      split; [ intro K; contradiction | ].
      split.
      * intros _ r R1 R2 [[V1 V2] [V3 V4]]. cbn [seg_point fst snd] in *.
        destruct (lerp_cut_after (x_initial v) (x_final v) x_max r D R1) as [Cu _]. lra.
      * rewrite E1b. apply M; lra.
    + clip_on_x x_min.
      split; [ intro K; contradiction | ].
      split.
      * intros _ r R1 R2 [[V1 V2] [V3 V4]]. cbn [seg_point fst snd] in *.
        destruct (lerp_cut_after (x_initial v) (x_final v) x_min r D R1) as [_ Cl]. lra.
      * rewrite E1b. apply M; lra.
    + (* the second end point would be in the window too *)
      exfalso. cbn [andb] in Ha. apply Z.eqb_neq in Ha. apply Ha.
      rewrite H2. apply region_code_inside. unfold in_window; cbn [fst snd]. lra.
  - (* the first end point is cut *)
    pose proof E1 as E1b. apply Z.eqb_neq in E1.
    rewrite T1, T2, T3, T4.
    assert (M : forall nx ny,
               (x_initial v <= nx /\ nx <= x_final v) \/ (x_final v <= nx /\ nx <= x_initial v) ->
               (y_initial v <= ny /\ ny <= y_final v) \/ (y_final v <= ny /\ ny <= y_initial v) ->
               ((y_max < y_initial v \/ y_initial v < y_min) /\ y_min <= ny /\ ny <= y_max)
               \/ ((x_max < x_initial v \/ x_initial v < x_min) /\ x_min <= nx /\ nx <= x_max) ->
               (code_bits (region_code nx ny x_min x_max y_min y_max) < code_bits (code1 v))%nat
               \/ Z.land (region_code nx ny x_min x_max y_min y_max) (code2 v) <> 0%Z).
    { intros nx ny Bx By Sd. rewrite H1, H2.
      apply (clip_measure x_min x_max y_min y_max (x_initial v) (y_initial v)); assumption. }
    case_ltb y_max (y_initial v); [ | case_ltb (y_initial v) y_min;
                                      [ | case_ltb x_max (x_initial v);
                                          [ | case_ltb (x_initial v) x_min ] ] ].
    + assert (O : y_final v <= y_max).
      { destruct (Qlt_le_dec y_max (y_final v)) as [K | K]; [ exfalso | exact K ].
        apply NS. right. right. right. split; assumption. }
      clip_on_y y_max.
      split.
      * intros _ r R1 R2 [[V1 V2] [V3 V4]]. cbn [seg_point fst snd] in *.
        destruct (lerp_cut_before (y_initial v) (y_final v) y_max r D R2) as [Cu _]. lra.
      * split; [ intro K; contradiction | rewrite E1b; apply M; lra ].
    + assert (O : y_min <= y_final v).
      { destruct (Qlt_le_dec (y_final v) y_min) as [K | K]; [ exfalso | exact K ].
        apply NS. right. right. left. split; assumption. }
      clip_on_y y_min.
      split.
      * intros _ r R1 R2 [[V1 V2] [V3 V4]]. cbn [seg_point fst snd] in *.
        destruct (lerp_cut_before (y_initial v) (y_final v) y_min r D R2) as [_ Cl]. lra.
      * split; [ intro K; contradiction | rewrite E1b; apply M; lra ].
    + assert (O : x_final v <= x_max).
      { destruct (Qlt_le_dec x_max (x_final v)) as [K | K]; [ exfalso | exact K ].
        apply NS. right. left. split; assumption. }
      clip_on_x x_max.
      split.
      * intros _ r R1 R2 [[V1 V2] [V3 V4]]. cbn [seg_point fst snd] in *.
        destruct (lerp_cut_before (x_initial v) (x_final v) x_max r D R2) as [Cu _]. lra.
      * split; [ intro K; contradiction | rewrite E1b; apply M; lra ].
    + assert (O : x_min <= x_final v).
      { destruct (Qlt_le_dec (x_final v) x_min) as [K | K]; [ exfalso | exact K ].
        apply NS. left. split; assumption. }
      clip_on_x x_min.
      split.
      * intros _ r R1 R2 [[V1 V2] [V3 V4]]. cbn [seg_point fst snd] in *.
        destruct (lerp_cut_before (x_initial v) (x_final v) x_min r D R2) as [_ Cl]. lra.
      * split; [ intro K; contradiction | rewrite E1b; apply M; lra ].
    + exfalso. apply E1. rewrite H1. apply region_code_inside.
      unfold in_window; cbn [fst snd]. lra.
Qed.

Lemma within_false_code (x y x_min x_max y_min y_max : Q) :
  within x y x_min x_max y_min y_max = false ->
  region_code x y x_min x_max y_min y_max <> 0%Z.
Proof.
  intros W K. apply region_code_inside in K. apply within_in_window in K.
  rewrite K in W. discriminate W.
Qed.

(** One pass of the loop that does not leave it, on a window with
    [min <= max]: which end point it moves and where, and when it sets
    [line_accepted]. *)
Lemma cs_pass (x_min x_max y_min y_max : Q) (v : cs_vars) (c : CartesianPlane) :
  x_min <= x_max -> y_min <= y_max ->
  cs_inv x_min x_max y_min y_max v ->
  cs_exit v = false ->
  exists v' N s,
    cs_iteration x_min x_max y_min y_max v c = (Ok (Continue v'), c)
    /\ cs_inv x_min x_max y_min y_max v'
    /\ cs_clip_ok x_min x_max y_min y_max v N s
    /\ (code1 v <> 0%Z ->
        x_initial v' = fst N /\ y_initial v' = snd N
        /\ x_final v' = x_final v /\ y_final v' = y_final v /\ code2 v' = code2 v)
    /\ (code1 v = 0%Z ->
        x_final v' = fst N /\ y_final v' = snd N
        /\ x_initial v' = x_initial v /\ y_initial v' = y_initial v /\ code1 v' = code1 v)
    /\ (line_accepted v' = true <-> code1 v' = 0%Z \/ code2 v' = 0%Z).
Proof.
  intros Nx Ny Hinv Hx.
  destruct (cs_intersection_geometry x_min x_max y_min y_max v c Nx Ny Hinv Hx)
    as ([x y] & s & EN & OK).
  destruct Hinv as (H1 & H2 & H3).
  unfold cs_iteration. unfold cs_exit in Hx. rewrite Hx.
  apply orb_false_iff in Hx. destruct Hx as [Ha Hb]. rewrite Hb.
  unfold bind at 1. rewrite EN. unfold ret.
  eexists. exists (x, y), s. split; [ reflexivity | ].
  destruct (code1 v =? 0)%Z eqn:E1; cbn [negb].
  - apply Z.eqb_eq in E1. cbn [andb] in Ha.
    assert (E2 : (code2 v =? code1 v)%Z = false) by (rewrite E1; exact Ha).
    rewrite E2. cbn [x_initial y_initial x_final y_final code1 code2 line_accepted].
    destruct (within _ _ _ _ _ _ || within _ _ _ _ _ _) eqn:W;
      cbn [x_initial y_initial x_final y_final code1 code2 line_accepted fst snd].
    + split; [ unfold cs_inv; cbn [x_initial y_initial x_final y_final code1 code2 line_accepted];
               repeat split; auto | ].
      split; [ exact OK | ].
      split; [ intro K; contradiction | ].
      split; [ intros _; repeat split; reflexivity | ].
      split; [ intros _; left; exact E1 | reflexivity ].
    + apply orb_false_iff in W. destruct W as [W1 W2].
      exfalso. apply (within_false_code _ _ _ _ _ _ W1). rewrite <- H1. exact E1.
  - rewrite Z.eqb_refl. apply Z.eqb_neq in E1.
    cbn [x_initial y_initial x_final y_final code1 code2 line_accepted].
    destruct (within _ _ _ _ _ _ || within _ _ _ _ _ _) eqn:W;
      cbn [x_initial y_initial x_final y_final code1 code2 line_accepted fst snd].
    + assert (Z0 : region_code x y x_min x_max y_min y_max = 0%Z \/ code2 v = 0%Z).
      { apply orb_true_iff in W. destruct W as [W | W].
        - left. apply region_code_inside, within_in_window, W.
        - right. rewrite H2. apply region_code_inside, within_in_window, W. }
      split; [ unfold cs_inv; cbn [x_initial y_initial x_final y_final code1 code2 line_accepted];
               repeat split; auto | ].
      split; [ exact OK | ].
      split; [ intros _; repeat split; reflexivity | ].
      split; [ intro K; contradiction | ].
      split; [ intros _; exact Z0 | reflexivity ].
    + apply orb_false_iff in W. destruct W as [W1 W2].
      pose proof (within_false_code _ _ _ _ _ _ W1) as K1.
      pose proof (within_false_code _ _ _ _ _ _ W2) as K2. rewrite <- H2 in K2.
      split.
      { unfold cs_inv; cbn [x_initial y_initial x_final y_final code1 code2 line_accepted].
        repeat split; auto.
        intro L. destruct (H3 L) as [K | K]; [ contradiction | right; exact K ]. }
      split; [ exact OK | ].
      split; [ intros _; repeat split; reflexivity | ].
      split; [ intro K; contradiction | ].
      split.
      * intro L. destruct (H3 L) as [K | K]; [ contradiction | right; exact K ].
      * intros [K | K]; contradiction.
Qed.

Lemma in_window_eq (x_min x_max y_min y_max : Q) (p q : Point) :
  Point_eq p q -> in_window x_min x_max y_min y_max p -> in_window x_min x_max y_min y_max q.
Proof.
  unfold Point_eq, in_window. intros [A B] [[W1 W2] [W3 W4]]. repeat split; lra.
Qed.

(** A pass leaves fewer sides to deal with. *)
Lemma cs_pass_measure (x_min x_max y_min y_max : Q) (v v' : cs_vars) (N : Point) (s : Q) :
  cs_inv x_min x_max y_min y_max v ->
  cs_exit v = false ->
  cs_inv x_min x_max y_min y_max v' ->
  cs_clip_ok x_min x_max y_min y_max v N s ->
  (code1 v <> 0%Z ->
   x_initial v' = fst N /\ y_initial v' = snd N
   /\ x_final v' = x_final v /\ y_final v' = y_final v /\ code2 v' = code2 v) ->
  (code1 v = 0%Z ->
   x_final v' = fst N /\ y_final v' = snd N
   /\ x_initial v' = x_initial v /\ y_initial v' = y_initial v /\ code1 v' = code1 v) ->
  (cs_measure v' < cs_measure v)%nat.
Proof.
  intros (H1 & H2 & _) Hx (H1' & H2' & _) (_ & _ & _ & _ & M) F1 F2.
  unfold cs_measure. rewrite Hx.
  unfold cs_exit in Hx. apply orb_false_iff in Hx. destruct Hx as [Ha Hb].
  destruct (cs_exit v') eqn:Hx'.
  - (* some code of [v] is not 0 *)
    destruct (code1 v =? 0)%Z eqn:E1.
    + cbn [andb] in Ha. apply Z.eqb_neq in Ha.
      assert (B : code_bits (code2 v) <> O).
      { intro K. apply Ha. rewrite H2. rewrite H2 in K. apply code_bits_zero. exact K. }
      lia.
    + apply Z.eqb_neq in E1.
      assert (B : code_bits (code1 v) <> O).
      { intro K. apply E1. rewrite H1. rewrite H1 in K. apply code_bits_zero. exact K. }
      lia.
  - unfold cs_exit in Hx'. apply orb_false_iff in Hx'. destruct Hx' as [_ Hb'].
    apply negb_false_iff in Hb'. apply Z.eqb_eq in Hb'.
    destruct (code1 v =? 0)%Z eqn:E1.
    + apply Z.eqb_eq in E1. destruct (F2 E1) as (A1 & A2 & A3 & A4 & A5).
      rewrite A1, A2 in H2'. rewrite <- H2' in M.
      destruct M as [M | M]; [ rewrite A5; lia | ].
      exfalso. apply M. rewrite E1. apply Z.land_0_r.
    + apply Z.eqb_neq in E1. destruct (F1 E1) as (A1 & A2 & A3 & A4 & A5).
      rewrite A1, A2 in H1'. rewrite <- H1' in M.
      destruct M as [M | M]; [ rewrite A5; lia | ].
      exfalso. apply M. rewrite <- A5. exact Hb'.
Qed.

(** A pass keeps the end points on the line and cuts off nothing that is in
    the window. *)
Lemma cs_pass_track (xa ya xb yb x_min x_max y_min y_max : Q) (v v' : cs_vars)
      (N : Point) (s : Q) :
  cs_track xa ya xb yb x_min x_max y_min y_max v ->
  cs_clip_ok x_min x_max y_min y_max v N s ->
  (code1 v <> 0%Z ->
   x_initial v' = fst N /\ y_initial v' = snd N
   /\ x_final v' = x_final v /\ y_final v' = y_final v /\ code2 v' = code2 v) ->
  (code1 v = 0%Z ->
   x_final v' = fst N /\ y_final v' = snd N
   /\ x_initial v' = x_initial v /\ y_initial v' = y_initial v /\ code1 v' = code1 v) ->
  cs_track xa ya xb yb x_min x_max y_min y_max v'.
Proof.
  intros (ta & tb & (T0 & T01 & T1) & [Pa1 Pa2] & [Pb1 Pb2] & Vis)
         ((S0 & S1) & [Pn1 Pn2] & C1 & C2 & _) F1 F2.
  cbn [seg_point fst snd] in *.
  assert (En1 : fst N == xa + (xb - xa) * (ta + (tb - ta) * s))
    by (rewrite Pn1, Pa1, Pb1; ring).
  assert (En2 : snd N == ya + (yb - ya) * (ta + (tb - ta) * s))
    by (rewrite Pn2, Pa2, Pb2; ring).
  assert (Mid : ta <= ta + (tb - ta) * s /\ ta + (tb - ta) * s <= tb) by (split; nra).
  (* the point of the line at [t], seen from the current end points *)
  assert (Here : forall t, ta < tb ->
            Point_eq (seg_point (x_initial v) (y_initial v) (x_final v) (y_final v)
                                ((t - ta) / (tb - ta)))
                     (seg_point xa ya xb yb t)).
  { intros t Lt. unfold Point_eq, seg_point; cbn [fst snd].
    rewrite Pa1, Pa2, Pb1, Pb2. split; field; lra. }
  destruct (Z.eq_dec (code1 v) 0) as [E1 | E1].
  - destruct (F2 E1) as (A1 & A2 & A3 & A4 & _).
    exists ta, (ta + (tb - ta) * s).
    split; [ repeat split; lra | ].
    split; [ unfold Point_eq; cbn [fst snd]; rewrite A3, A4; split; assumption | ].
    split; [ unfold Point_eq; cbn [fst snd]; rewrite A1, A2; split; assumption | ].
    intros t Ht0 Ht1 W. destruct (Vis t Ht0 Ht1 W) as [V1 V2].
    split; [ exact V1 | ].
    destruct (Qlt_le_dec (ta + (tb - ta) * s) t) as [Lt | Le]; [ exfalso | exact Le ].
    assert (Ltab : ta < tb) by nra.
    assert (Q1 : ((t - ta) / (tb - ta)) * (tb - ta) == t - ta) by (field; lra).
    apply (C2 E1 ((t - ta) / (tb - ta))).
    + set (r := (t - ta) / (tb - ta)) in *. nra.
    + set (r := (t - ta) / (tb - ta)) in *. nra.
    + apply (in_window_eq _ _ _ _ (seg_point xa ya xb yb t)); [ | exact W ].
      destruct (Here t Ltab) as [K1 K2]. split; symmetry; assumption.
  - destruct (F1 E1) as (A1 & A2 & A3 & A4 & _).
    exists (ta + (tb - ta) * s), tb.
    split; [ repeat split; lra | ].
    split; [ unfold Point_eq; cbn [fst snd]; rewrite A1, A2; split; assumption | ].
    split; [ unfold Point_eq; cbn [fst snd]; rewrite A3, A4; split; assumption | ].
    intros t Ht0 Ht1 W. destruct (Vis t Ht0 Ht1 W) as [V1 V2].
    split; [ | exact V2 ].
    destruct (Qlt_le_dec t (ta + (tb - ta) * s)) as [Lt | Le]; [ exfalso | exact Le ].
    assert (Ltab : ta < tb) by nra.
    assert (Q1 : ((t - ta) / (tb - ta)) * (tb - ta) == t - ta) by (field; lra).
    apply (C1 E1 ((t - ta) / (tb - ta))).
    + set (r := (t - ta) / (tb - ta)) in *. nra.
    + set (r := (t - ta) / (tb - ta)) in *. nra.
    + apply (in_window_eq _ _ _ _ (seg_point xa ya xb yb t)); [ | exact W ].
      destruct (Here t Ltab) as [K1 K2]. split; symmetry; assumption.
Qed.

(** A loop that left within its allowance does the same under a larger
    one. *)
Lemma cs_loop_fuel_mono (x_min x_max y_min y_max : Q) (fuel : nat) :
  forall (fuel' : nat) (v : cs_vars) (c c' : CartesianPlane) (r : bool * cs_vars),
    (fuel <= fuel')%nat ->
    cs_loop fuel x_min x_max y_min y_max v c = (Ok r, c') ->
    cs_loop fuel' x_min x_max y_min y_max v c = (Ok r, c').
Proof.
  induction fuel as [ | fuel IH]; intros fuel' v c c' r L H.
  - discriminate H.
  - destruct fuel' as [ | fuel']; [ inversion L | ].
    apply le_S_n in L. cbn [cs_loop] in *.
    unfold bind in *.
    destruct (cs_iteration x_min x_max y_min y_max v c) as [[[a | v1] | e | ] c1];
      try exact H.
    apply (IH fuel' v1 c1 c' r L H).
Qed.

(** On a window with [min <= max] the loop is left after at most as many
    passes as [cs_measure] counts, through the test of line 36; the end
    points are then still on the input line around its visible part, and
    [line_accepted] tells, once a pass was made, whether an end point is in
    the window. *)
Lemma cs_loop_ends (xa ya xb yb x_min x_max y_min y_max : Q) (c : CartesianPlane) :
  x_min <= x_max -> y_min <= y_max ->
  forall (fuel : nat) (v : cs_vars),
    cs_inv x_min x_max y_min y_max v ->
    (cs_measure v < fuel)%nat ->
    exists vf,
      cs_loop fuel x_min x_max y_min y_max v c = (Ok (true, vf), c)
      /\ cs_inv x_min x_max y_min y_max vf
      /\ cs_exit vf = true
      /\ (cs_track xa ya xb yb x_min x_max y_min y_max v ->
          cs_track xa ya xb yb x_min x_max y_min y_max vf)
      /\ (vf = v \/ (line_accepted vf = true <-> code1 vf = 0%Z \/ code2 vf = 0%Z)).
Proof.
  intros Nx Ny. induction fuel as [ | fuel IH]; intros v Hinv Hm; [ lia | ].
  cbn [cs_loop]. unfold bind.
  destruct (cs_exit v) eqn:Hx.
  - rewrite (cs_iteration_exit _ _ _ _ _ _ Hx). exists v.
    split; [ reflexivity | ]. split; [ exact Hinv | ]. split; [ exact Hx | ].
    split; [ trivial | left; reflexivity ].
  - destruct (cs_pass x_min x_max y_min y_max v c Nx Ny Hinv Hx)
      as (v' & N & s & Estep & Hinv' & OK & F1 & F2 & La).
    rewrite Estep.
    pose proof (cs_pass_measure _ _ _ _ _ _ _ _ Hinv Hx Hinv' OK F1 F2) as Dec.
    destruct (IH v' Hinv' ltac:(lia)) as (vf & E & If & Xf & Tf & Lf).
    exists vf. split; [ exact E | ]. split; [ exact If | ]. split; [ exact Xf | ].
    split.
    + intro T. apply Tf. apply (cs_pass_track _ _ _ _ _ _ _ _ v v' N s T OK F1 F2).
    + right. destruct Lf as [-> | Lf]; [ exact La | exact Lf ].
Qed.

Lemma cs_measure_initial (x_min x_max y_min y_max xi yi xf yf : Q) (la : bool) :
  (cs_measure (mkVars xi yi xf yf (region_code xi yi x_min x_max y_min y_max)
                      (region_code xf yf x_min x_max y_min y_max) la) < 5)%nat.
Proof.
  unfold cs_measure. destruct (cs_exit _); [ lia | ]. cbn [code1 code2].
  pose proof (code_bits_le_2 xi yi x_min x_max y_min y_max).
  pose proof (code_bits_le_2 xf yf x_min x_max y_min y_max). lia.
Qed.



(** ** Rotation of the stored lines (main.py) *)

Lemma draw_DDA_line_outcome (x1 y1 x2 y2 : Q) (color : Color) (c : CartesianPlane) :
  (single_point ((x1, y1), (x2, y2))
   /\ fst (draw_DDA_line x1 y1 x2 y2 color c) = Raise ZeroDivisionError)
  \/ (~ single_point ((x1, y1), (x2, y2))
      /\ fst (draw_DDA_line x1 y1 x2 y2 color c) = Ok tt).
Proof.
  unfold single_point, Point_eq; cbn [fst snd]. unfold draw_DDA_line.
  set (steps := if ltb (Qabs (y2 - y1)) (Qabs (x2 - x1))
                then Qabs (x2 - x1) else Qabs (y2 - y1)).
  pose proof (DDA_steps_zero x1 y1 x2 y2) as Z0. fold steps in Z0.
  destruct (Qeq_dec steps 0) as [E | E].
  - left. split; [ apply Z0; exact E | ].
    unfold bind at 1. rewrite (div_zero _ _ c E). reflexivity.
  - right. split; [ intro K; apply E; apply Z0; exact K | ].
    unfold bind at 1. rewrite (div_ok _ _ c E).
    unfold bind at 1. rewrite (div_ok _ _ c E).
    unfold bind at 1. rewrite draw_pixel_run.
    destruct (DDA_loop ((x2 - x1) / steps) ((y2 - y1) / steps) color
                (Z.to_nat (round steps)) x1 y1
                (set_items (items c ++ [Pixel (inject_Z (round x1)) (inject_Z (round y1)) color]) c))
      as (x' & y' & pts & R & _).
    unfold bind. rewrite R. reflexivity.
Qed.

(** The first loop of [draw_stored] raises at the first line that is a
    single point, and returns when there is none. *)
Lemma draw_lines_outcome (color : Color) (ls : list Line) :
  forall c : CartesianPlane,
    (Exists single_point ls
     /\ fst (for_each (map Some ls) (fun line =>
               l <- unpack line ;;
               draw_DDA_line (fst (fst l)) (snd (fst l)) (fst (snd l)) (snd (snd l)) color) c)
        = Raise ZeroDivisionError)
    \/ (Forall (fun l => ~ single_point l) ls
        /\ fst (for_each (map Some ls) (fun line =>
                  l <- unpack line ;;
                  draw_DDA_line (fst (fst l)) (snd (fst l)) (fst (snd l)) (snd (snd l)) color) c)
           = Ok tt).
Proof.
  set (body := fun line : option Line =>
                 l <- unpack line ;;
                 draw_DDA_line (fst (fst l)) (snd (fst l)) (fst (snd l)) (snd (snd l)) color).
  induction ls as [ | l ls IH]; intro c.
  - right. split; [ constructor | reflexivity ].
  - cbn [map for_each]. unfold bind.
    destruct l as [[x1 y1] [x2 y2]].
    change (body (Some ((x1, y1), (x2, y2))) c) with (draw_DDA_line x1 y1 x2 y2 color c).
    destruct (draw_DDA_line_outcome x1 y1 x2 y2 color c) as [[D E] | [D E]];
      destruct (draw_DDA_line x1 y1 x2 y2 color c) as [o c1]; cbn [fst] in E; subst o.
    + left. split; [ apply Exists_cons_hd; exact D | reflexivity ].
    + destruct (IH c1) as [[X R] | [F R]].
      * left. split; [ apply Exists_cons_tl; exact X | exact R ].
      * right. split; [ constructor; assumption | exact R ].
Qed.

(** The second loop of [draw_stored] returns on every list of circles. *)
Lemma draw_circles_outcome (color : Color) (ks : list Circle) :
  forall c : CartesianPlane,
    fst (for_each (map Some ks) (fun circle =>
           k <- unpack circle ;;
           draw_pixel (fst (fst k)) (snd (fst k)) color ;;
           draw_Bresenham_circle (fst (fst k)) (snd (fst k)) (snd k) color) c)
    = Ok tt.
Proof.
  set (body := fun circle : option Circle =>
                 k <- unpack circle ;;
                 draw_pixel (fst (fst k)) (snd (fst k)) color ;;
                 draw_Bresenham_circle (fst (fst k)) (snd (fst k)) (snd k) color).
  induction ks as [ | k ks IH]; intro c.
  - reflexivity.
  - cbn [map for_each]. unfold bind.
    destruct (draw_Bresenham_circle_run (fst (fst k)) (snd (fst k)) (snd k) color
                (set_items (items c ++ [Pixel (fst (fst k)) (snd (fst k)) color]) c))
      as (c1 & E).
    assert (B : body (Some k) c = (Ok tt, c1)).
    { unfold body, bind. cbn [unpack]. unfold ret. rewrite draw_pixel_run. exact E. }
    rewrite B. apply IH.
Qed.

Lemma draw_stored_outcome (c : CartesianPlane) (ls : list Line) (ks : list Circle) :
  lines c = map Some ls -> circles c = map Some ks ->
  (Exists single_point ls /\ fst (draw_stored c) = Raise ZeroDivisionError)
  \/ (Forall (fun l => ~ single_point l) ls /\ fst (draw_stored c) = Ok tt).
Proof.
  intros L K. unfold draw_stored.
  pose proof (draw_lines_outcome black ls c) as D.
  pose proof (keeps_for_each (map Some ls) (fun line =>
                l <- unpack line ;;
                draw_DDA_line (fst (fst l)) (snd (fst l)) (fst (snd l)) (snd (snd l)) black)) as KS.
  specialize (KS ltac:(intro v; keeps; apply keeps_draw_DDA_line) c).
  destruct KS as [_ KC].
  set (bl := fun line : option Line =>
               l <- unpack line ;;
               draw_DDA_line (fst (fst l)) (snd (fst l)) (fst (snd l)) (snd (snd l)) black) in *.
  set (bc := fun circle : option Circle =>
               c <- unpack circle ;;
               draw_pixel (fst (fst c)) (snd (fst c)) black ;;
               draw_Bresenham_circle (fst (fst c)) (snd (fst c)) (snd c) black).
  unfold bind, get. rewrite L.
  destruct (for_each (map Some ls) bl c) as [o c1]. cbn [fst snd] in D, KC.
  destruct D as [[X R] | [F R]]; subst o.
  - left. split; [ exact X | reflexivity ].
  - right. split; [ exact F | ].
    rewrite KC, K. apply draw_circles_outcome.
Qed.

(** [rotate_lines] up to the drawing: the rotated lines are stored first,
    then the canvas is cleared and the axes are drawn. *)
Lemma rotate_lines_run (math_radians math_cos math_sin : Q -> Q) (angle : Q)
      (c : CartesianPlane) (ls : list Line) :
  lines c = map Some ls ->
  rotate_lines math_radians math_cos math_sin angle c
  = (delete "all" ;; draw_axes ;; draw_stored)
      (set_lines (map (fun l => Some (rotated_line math_radians math_cos math_sin angle l)) ls) c).
Proof.
  intro L. unfold rotate_lines.
  unfold bind at 1. unfold get at 1. rewrite L.
  unfold bind at 1.
  match goal with
  | |- context [for_append (map Some ls) ?f c] =>
      change (for_append (map Some ls) f c)
        with (for_append (map Some ls)
                (fun v => a <- unpack v ;;
                          ret (Some (rotated_line math_radians math_cos math_sin angle a))) c)
  end.
  rewrite (for_append_unpack (rotated_line math_radians math_cos math_sin angle) ls c).
  unfold bind at 1. unfold modify at 1. reflexivity.
Qed.



(** A line that is a single point stays one under [rotate], whatever the
    angle. *)
Lemma rotated_line_single_point (math_radians math_cos math_sin : Q -> Q) (angle : Q)
      (l : Line) :
  single_point l -> single_point (rotated_line math_radians math_cos math_sin angle l).
Proof.
  destruct l as [[x1 y1] [x2 y2]].
  unfold single_point, Point_eq, rotated_line, rotate; cbn [fst snd].
  intros [Ex Ey].
  set (cs := math_cos (math_radians angle)). set (sn := math_sin (math_radians angle)).
  rewrite (round_comp ((x2 - x1) * cs - (y2 - y1) * sn + x1) x1).
  - rewrite (round_comp ((x2 - x1) * sn + (y2 - y1) * cs + y1) y1).
    + split; reflexivity.
    + rewrite <- Ex, <- Ey. ring.
  - rewrite <- Ex, <- Ey. ring.
Qed.



(** * Floating point *)

(** ** Rounding to the nearest integer *)

Lemma round_tie_even (q : Q) :
  Qabs (inject_Z (round q) - q) == 1 # 2 -> Z.even (round q) = true.
Proof.
  unfold round.
  pose proof (Qfloor_le q) as L. pose proof (Qlt_floor q) as U.
  rewrite inject_Z_plus in U. change (inject_Z 1) with 1 in U.
  destruct (Qcompare (q - inject_Z (Qfloor q)) (1 # 2)) eqn:C.
  - intros _. destruct (Z.even (Qfloor q)) eqn:E; [ exact E | ].
    rewrite Z.even_add, E. reflexivity.
  - apply <- Qlt_alt in C. intro T. exfalso.
    assert (K : Qabs (inject_Z (Qfloor q) - q) == q - inject_Z (Qfloor q)).
    { rewrite Qabs_neg by lra. ring. }
    lra.
  - apply <- Qgt_alt in C. intro T. exfalso.
    rewrite inject_Z_plus in T. change (inject_Z 1) with 1 in T.
    assert (K : Qabs (inject_Z (Qfloor q) + 1 - q) == inject_Z (Qfloor q) + 1 - q).
    { rewrite Qabs_pos by lra. ring. }
    lra.
Qed.

(** [round q] is the only integer within one half of [q] that is even when
    it is exactly one half away. *)
Lemma round_unique (q : Q) (n : Z) :
  Qabs (inject_Z n - q) <= 1 # 2 ->
  (Qabs (inject_Z n - q) == 1 # 2 -> Z.even n = true) ->
  round q = n.
Proof.
  intros Hn Tn.
  pose proof (round_close q) as Hm. pose proof (round_tie_even q) as Tm.
  set (m := round q) in *.
  apply Qabs_Qle_condition in Hn. apply Qabs_Qle_condition in Hm.
  destruct Hn as [Hn1 Hn2]. destruct Hm as [Hm1 Hm2].
  destruct (Z.eq_dec m n) as [E | NE]; [ exact E | exfalso ].
  assert (D : (m = n + 1 \/ m = n - 1)%Z).
  { assert (A : inject_Z m - inject_Z n <= 1) by lra.
    assert (B : -1 <= inject_Z m - inject_Z n) by lra.
    assert (A' : inject_Z m <= inject_Z (n + 1))
      by (rewrite inject_Z_plus; change (inject_Z 1) with 1; lra).
    assert (B' : inject_Z n <= inject_Z (m + 1))
      by (rewrite inject_Z_plus; change (inject_Z 1) with 1; lra).
    rewrite <- Zle_Qle in A', B'. lia. }
  destruct D as [D | D].
  - assert (Q1 : inject_Z m == inject_Z n + 1)
      by (rewrite D, inject_Z_plus; reflexivity).
    assert (Em : Z.even m = true).
    { apply Tm. rewrite Qabs_pos by lra. lra. }
    assert (En : Z.even n = true).
    { apply Tn. rewrite Qabs_neg by lra. lra. }
    rewrite D, Z.even_add, En in Em. discriminate Em.
  - assert (Q1 : inject_Z n == inject_Z m + 1).
    { replace n with (m + 1)%Z by lia. rewrite inject_Z_plus. reflexivity. }
    assert (Em : Z.even m = true).
    { apply Tm. rewrite Qabs_neg by lra. lra. }
    assert (En : Z.even n = true).
    { apply Tn. rewrite Qabs_pos by lra. lra. }
    rewrite D, Z.even_sub, En in Em. discriminate Em.
Qed.

Lemma round_opp (q : Q) : round (- q) = (- round q)%Z.
Proof.
  apply round_unique.
  - assert (E : inject_Z (- round q) - - q == - (inject_Z (round q) - q))
      by (rewrite inject_Z_opp; ring).
    rewrite E, Qabs_opp. apply round_close.
  - intro T. rewrite Z.even_opp. apply round_tie_even.
    assert (E : inject_Z (- round q) - - q == - (inject_Z (round q) - q))
      by (rewrite inject_Z_opp; ring).
    rewrite E, Qabs_opp in T. exact T.
Qed.

Lemma round_mono (a b : Q) : a <= b -> (round a <= round b)%Z.
Proof.
  intro H.
  destruct (Z.le_gt_cases (round a) (round b)) as [L | G]; [ exact L | exfalso ].
  pose proof (round_close a) as Ca. pose proof (round_close b) as Cb.
  apply Qabs_Qle_condition in Ca. apply Qabs_Qle_condition in Cb.
  destruct Ca as [Ca1 Ca2]. destruct Cb as [Cb1 Cb2].
  assert (G' : inject_Z (round b) + 1 <= inject_Z (round a)).
  { assert (K : (round b + 1 <= round a)%Z) by lia.
    rewrite Zle_Qle, inject_Z_plus in K. exact K. }
  assert (E : a == b) by lra.
  rewrite (round_comp _ _ E) in G. lia.
Qed.

(** ** Powers of two *)

Lemma pow2_pos (k : Z) : 0 < 2 ^ k.
Proof. apply Qpower_0_lt. reflexivity. Qed.

Lemma pow2_add (a b : Z) : 2 ^ (a + b) == 2 ^ a * 2 ^ b.
Proof. apply Qpower_plus. discriminate. Qed.

Lemma pow2_le (a b : Z) : (a <= b)%Z -> 2 ^ a <= 2 ^ b.
Proof. intro H. apply Qpower_le_compat_l; [ exact H | discriminate ]. Qed.

Lemma pow2_succ (a : Z) : 2 ^ (a + 1) == 2 * 2 ^ a.
Proof. rewrite pow2_add. change (2 ^ 1) with 2. ring. Qed.

Lemma pow2_inject (k : Z) : (0 <= k)%Z -> inject_Z (2 ^ k) == 2 ^ k.
Proof. intro H. rewrite (Zpower_Qpower 2 k H). reflexivity. Qed.

(** ** The exponent of a positive number *)

Lemma ilog2_spec (x : Q) :
  0 < x -> 2 ^ Binary64.ilog2 x <= x /\ x < 2 ^ (Binary64.ilog2 x + 1).
Proof.
  intro Hx. unfold Binary64.ilog2.
  destruct x as [n d]. cbn [Qnum Qden].
  assert (Hn : (0 < n)%Z).
  { unfold Qlt in Hx. cbn in Hx. lia. }
  set (ln := Z.log2 n). set (ld := Z.log2 (Zpos d)).
  assert (Ln0 : (0 <= ln)%Z) by apply Z.log2_nonneg.
  assert (Ld0 : (0 <= ld)%Z) by apply Z.log2_nonneg.
  destruct (Z.log2_spec n Hn) as [N1 N2]. fold ln in N1, N2.
  destruct (Z.log2_spec (Zpos d) ltac:(lia)) as [D1 D2]. fold ld in D1, D2.
  rewrite Zle_Qle in N1, D1. rewrite Zlt_Qlt in N2, D2.
  replace (Z.succ ln) with (ln + 1)%Z in N2 by lia.
  replace (Z.succ ld) with (ld + 1)%Z in D2 by lia.
  rewrite pow2_inject in N1, N2, D1, D2 by lia.
  rewrite pow2_succ in N2, D2.
  pose proof (pow2_pos ln) as Pn. pose proof (pow2_pos ld) as Pd.
  pose proof (pow2_pos (ln - ld)) as Pe.
  assert (TB : 2 ^ (ln - ld) * 2 ^ ld == 2 ^ ln).
  { rewrite <- pow2_add. replace (ln - ld + ld)%Z with ln by lia. reflexivity. }
  assert (XD : (n # d) * inject_Z (Zpos d) == inject_Z n).
  { rewrite (Qmake_Qdiv n d). field. intro K.
    assert (K' : 0 < inject_Z (Zpos d)) by reflexivity.
    lra. }
  set (x := n # d) in *. set (T := 2 ^ (ln - ld)) in *.
  set (A := 2 ^ ln) in *. set (B := 2 ^ ld) in *.
  set (N := inject_Z n) in *. set (D := inject_Z (Zpos d)) in *.
  assert (Up : x < 2 * T).
  { destruct (Qlt_le_dec x (2 * T)) as [K | K]; [ exact K | exfalso ]. nra. }
  assert (Lo : T <= 2 * x).
  { destruct (Qlt_le_dec (2 * x) T) as [K | K]; [ exfalso | exact K ]. nra. }
  destruct (Qle_bool T x) eqn:Tx.
  - apply Qle_bool_iff in Tx. split; [ exact Tx | ].
    unfold T. rewrite pow2_succ. fold T. exact Up.
  - assert (Tx' : x < T).
    { destruct (Qlt_le_dec x T) as [K | K]; [ exact K | ].
      apply Qle_bool_iff in K. rewrite K in Tx. discriminate Tx. }
    replace (ln - ld - 1 + 1)%Z with (ln - ld)%Z by lia. fold T.
    split; [ | exact Tx' ].
    assert (H2 : 2 * 2 ^ (ln - ld - 1) == T).
    { rewrite <- pow2_succ. replace (ln - ld - 1 + 1)%Z with (ln - ld)%Z by lia.
      reflexivity. }
    lra.
Qed.

Lemma ilog2_unique (x : Q) (e : Z) :
  0 < x -> 2 ^ e <= x -> x < 2 ^ (e + 1) -> Binary64.ilog2 x = e.
Proof.
  intros Hx L U. destruct (ilog2_spec x Hx) as [L' U'].
  destruct (Z.lt_trichotomy (Binary64.ilog2 x) e) as [K | [K | K]].
  - exfalso. pose proof (pow2_le (Binary64.ilog2 x + 1) e ltac:(lia)). lra.
  - exact K.
  - exfalso. pose proof (pow2_le (e + 1) (Binary64.ilog2 x) ltac:(lia)). lra.
Qed.

Lemma ilog2_comp (x y : Q) : 0 < x -> x == y -> Binary64.ilog2 x = Binary64.ilog2 y.
Proof.
  intros Hx E. assert (Hy : 0 < y) by lra.
  destruct (ilog2_spec y Hy) as [L U].
  apply ilog2_unique; lra.
Qed.

Lemma ilog2_mono (x y : Q) :
  0 < x -> x <= y -> (Binary64.ilog2 x <= Binary64.ilog2 y)%Z.
Proof.
  intros Hx H. assert (Hy : 0 < y) by lra.
  destruct (ilog2_spec x Hx) as [Lx Ux]. destruct (ilog2_spec y Hy) as [Ly Uy].
  destruct (Z.le_gt_cases (Binary64.ilog2 x) (Binary64.ilog2 y)) as [K | K];
    [ exact K | exfalso ].
  pose proof (pow2_le (Binary64.ilog2 y + 1) (Binary64.ilog2 x) ltac:(lia)). lra.
Qed.

(** ** Rounding to a float *)

Lemma rnd_zero (x : Q) : x == 0 -> Binary64.rnd x == 0.
Proof.
  intro E. unfold Binary64.rnd. apply Qeq_bool_iff in E. rewrite E. reflexivity.
Qed.

Lemma rnd_nonzero (x : Q) (e : Z) :
  ~ x == 0 -> Binary64.ilog2 (Qabs x) = e ->
  Binary64.rnd x = inject_Z (round (x * 2 ^ (52 - e))) * 2 ^ (e - 52).
Proof.
  intros NZ <-. unfold Binary64.rnd.
  destruct (Qeq_bool x 0) eqn:E; [ | reflexivity ].
  apply Qeq_bool_iff in E. contradiction.
Qed.

Lemma Qabs_nonzero (x : Q) : ~ x == 0 -> 0 < Qabs x.
Proof.
  intro NZ. destruct (Qlt_le_dec x 0) as [N | P].
  - rewrite Qabs_neg by lra. lra.
  - rewrite Qabs_pos by lra.
    destruct (Qlt_le_dec 0 x) as [K | K]; [ exact K | ].
    exfalso. apply NZ. lra.
Qed.

#[global] Instance rnd_comp : Proper (Qeq ==> Qeq) Binary64.rnd.
Proof.
  intros x y E. destruct (Qeq_dec x 0) as [Z | NZ].
  - rewrite (rnd_zero x Z). rewrite (rnd_zero y); [ reflexivity | lra ].
  - assert (NZy : ~ y == 0) by (intro K; apply NZ; lra).
    assert (L : Binary64.ilog2 (Qabs y) = Binary64.ilog2 (Qabs x)).
    { symmetry. apply ilog2_comp; [ apply Qabs_nonzero; exact NZ | ].
      rewrite E. reflexivity. }
    rewrite (rnd_nonzero x _ NZ eq_refl), (rnd_nonzero y _ NZy L).
    rewrite (round_comp (x * 2 ^ (52 - Binary64.ilog2 (Qabs x)))
                        (y * 2 ^ (52 - Binary64.ilog2 (Qabs x))));
      [ reflexivity | apply Qmult_comp; [ exact E | reflexivity ] ].
Qed.

Lemma rnd_opp (x : Q) : Binary64.rnd (- x) == - Binary64.rnd x.
Proof.
  destruct (Qeq_dec x 0) as [Z | NZ].
  - rewrite (rnd_zero x Z). rewrite (rnd_zero (- x)); lra.
  - assert (NZo : ~ - x == 0) by (intro K; apply NZ; lra).
    assert (L : Binary64.ilog2 (Qabs (- x)) = Binary64.ilog2 (Qabs x)).
    { apply ilog2_comp; [ apply Qabs_nonzero; exact NZo | apply Qabs_opp ]. }
    rewrite (rnd_nonzero x _ NZ eq_refl), (rnd_nonzero (- x) _ NZo L).
    set (s := 2 ^ (52 - Binary64.ilog2 (Qabs x))).
    rewrite (round_comp (- x * s) (- (x * s))) by ring.
    rewrite round_opp, inject_Z_opp. ring.
Qed.

(** A positive number scaled by its exponent falls in [[2^52, 2^53)], so
    the integer it is rounded to is in [[2^52, 2^53]]. *)
Lemma rnd_positive (x : Q) :
  0 < x ->
  exists m : Z,
    Binary64.rnd x == inject_Z m * 2 ^ (Binary64.ilog2 x - 52)
    /\ m = round (x * 2 ^ (52 - Binary64.ilog2 x))
    /\ (2 ^ 52 <= m <= 2 ^ 53)%Z.
Proof.
  intro Hx. set (e := Binary64.ilog2 x).
  assert (NZ : ~ x == 0) by lra.
  assert (L : Binary64.ilog2 (Qabs x) = e).
  { apply ilog2_comp; [ apply Qabs_nonzero; exact NZ | apply Qabs_pos; lra ]. }
  exists (round (x * 2 ^ (52 - e))).
  split; [ rewrite (rnd_nonzero x e NZ L); reflexivity | ].
  split; [ reflexivity | ].
  destruct (ilog2_spec x Hx) as [Lo Up]. fold e in Lo, Up.
  pose proof (pow2_pos (52 - e)) as Ps.
  assert (A : 2 ^ e * 2 ^ (52 - e) == inject_Z (2 ^ 52)).
  { rewrite <- pow2_add. replace (e + (52 - e))%Z with 52%Z by lia. reflexivity. }
  assert (B : 2 ^ (e + 1) * 2 ^ (52 - e) == inject_Z (2 ^ 53)).
  { rewrite <- pow2_add. replace (e + 1 + (52 - e))%Z with 53%Z by lia. reflexivity. }
  set (s := 2 ^ (52 - e)) in *.
  split.
  - rewrite <- (round_inject_Z (2 ^ 52)). apply round_mono. rewrite <- A. nra.
  - rewrite <- (round_inject_Z (2 ^ 53)). apply round_mono. rewrite <- B. nra.
Qed.

Lemma rnd_positive_bounds (x : Q) :
  0 < x ->
  2 ^ Binary64.ilog2 x <= Binary64.rnd x /\ Binary64.rnd x <= 2 ^ (Binary64.ilog2 x + 1).
Proof.
  intro Hx. destruct (rnd_positive x Hx) as (m & E & _ & M1 & M2).
  set (e := Binary64.ilog2 x) in *.
  pose proof (pow2_pos (e - 52)) as Pt.
  assert (A : 2 ^ e == inject_Z (2 ^ 52) * 2 ^ (e - 52)).
  { change (inject_Z (2 ^ 52)) with (2 ^ 52). rewrite <- pow2_add.
    replace (52 + (e - 52))%Z with e by lia. reflexivity. }
  assert (B : 2 ^ (e + 1) == inject_Z (2 ^ 53) * 2 ^ (e - 52)).
  { change (inject_Z (2 ^ 53)) with (2 ^ 53). rewrite <- pow2_add.
    replace (53 + (e - 52))%Z with (e + 1)%Z by lia. reflexivity. }
  rewrite Zle_Qle in M1, M2. rewrite E, A, B.
  set (t := 2 ^ (e - 52)) in *. split; nra.
Qed.

Lemma rnd_pos (x : Q) : 0 < x -> 0 < Binary64.rnd x.
Proof.
  intro Hx. destruct (rnd_positive_bounds x Hx) as [L _].
  pose proof (pow2_pos (Binary64.ilog2 x)). lra.
Qed.

Lemma rnd_neg (x : Q) : x < 0 -> Binary64.rnd x < 0.
Proof.
  intro Hx. pose proof (rnd_pos (- x) ltac:(lra)) as P.
  rewrite rnd_opp in P. lra.
Qed.

Lemma rnd_mono_positive (x y : Q) :
  0 < x -> x <= y -> Binary64.rnd x <= Binary64.rnd y.
Proof.
  intros Hx H. assert (Hy : 0 < y) by lra.
  pose proof (ilog2_mono x y Hx H) as Le.
  destruct (Z.eq_dec (Binary64.ilog2 x) (Binary64.ilog2 y)) as [E | NE].
  - destruct (rnd_positive x Hx) as (mx & Ex & Mx & _).
    destruct (rnd_positive y Hy) as (my & Ey & My & _).
    rewrite Ex, Ey, E.
    assert (M : (mx <= my)%Z).
    { rewrite Mx, My, E. apply round_mono.
      pose proof (pow2_pos (52 - Binary64.ilog2 y)). nra. }
    rewrite Zle_Qle in M.
    pose proof (pow2_pos (Binary64.ilog2 y - 52)). nra.
  - destruct (rnd_positive_bounds x Hx) as [_ Ux].
    destruct (rnd_positive_bounds y Hy) as [Ly _].
    pose proof (pow2_le (Binary64.ilog2 x + 1) (Binary64.ilog2 y) ltac:(lia)). lra.
Qed.

(** Rounding keeps the order. *)
Lemma rnd_mono (x y : Q) : x <= y -> Binary64.rnd x <= Binary64.rnd y.
Proof.
  intro H.
  destruct (Q_dec x 0) as [[Nx | Px] | Zx].
  - destruct (Q_dec y 0) as [[Ny | Py] | Zy].
    + pose proof (rnd_mono_positive (- y) (- x) ltac:(lra) ltac:(lra)) as K.
      rewrite !rnd_opp in K. lra.
    + pose proof (rnd_neg x Nx). pose proof (rnd_pos y Py). lra.
    + pose proof (rnd_neg x Nx). rewrite (rnd_zero y Zy). lra.
  - apply rnd_mono_positive; assumption.
  - rewrite (rnd_zero x Zx).
    destruct (Q_dec y 0) as [[Ny | Py] | Zy].
    + exfalso. lra.
    + pose proof (rnd_pos y Py). lra.
    + rewrite (rnd_zero y Zy). lra.
Qed.

(** An integer of at most 53 bits times a power of two is a float. *)
Lemma rnd_representable_positive (m k : Z) :
  (0 < m <= 2 ^ 53)%Z -> Binary64.rnd (inject_Z m * 2 ^ k) == inject_Z m * 2 ^ k.
Proof.
  intros [M0 M1].
  pose proof (pow2_pos k) as Pk.
  assert (Pm : 0 < inject_Z m).
  { change 0 with (inject_Z 0). rewrite <- Zlt_Qlt. exact M0. }
  assert (Hv : 0 < inject_Z m * 2 ^ k) by nra.
  set (j := Z.log2 m).
  destruct (Z.log2_spec m M0) as [J1 J2]. fold j in J1, J2.
  assert (J0 : (0 <= j)%Z) by apply Z.log2_nonneg.
  assert (J53 : (j <= 53)%Z).
  { destruct (Z.le_gt_cases j 53) as [K | K]; [ exact K | exfalso ].
    pose proof (Z.pow_le_mono_r 2 54 j ltac:(lia) ltac:(lia)). lia. }
  assert (L : Binary64.ilog2 (inject_Z m * 2 ^ k) = (j + k)%Z).
  { apply ilog2_unique; [ exact Hv | | ].
    - rewrite pow2_add, <- (pow2_inject j J0). rewrite Zle_Qle in J1. nra.
    - replace (j + k + 1)%Z with (Z.succ j + k)%Z by lia.
      rewrite pow2_add, <- (pow2_inject (Z.succ j)) by lia.
      rewrite Zlt_Qlt in J2. nra. }
  destruct (rnd_positive _ Hv) as (n & E & N & _). rewrite L in E, N.
  rewrite E. clear E.
  assert (S : inject_Z m * 2 ^ k * 2 ^ (52 - (j + k)) == inject_Z m * 2 ^ (52 - j)).
  { rewrite <- Qmult_assoc, <- pow2_add.
    replace (k + (52 - (j + k)))%Z with (52 - j)%Z by lia. reflexivity. }
  rewrite (round_comp _ _ S) in N.
  destruct (Z.eq_dec j 53) as [E53 | N53].
  - assert (Em : m = (2 ^ 53)%Z) by (rewrite E53 in J1; lia).
    subst n. rewrite E53, Em.
    assert (R : inject_Z (2 ^ 53) * 2 ^ (52 - 53) == inject_Z (2 ^ 52)) by reflexivity.
    rewrite (round_comp _ _ R), round_inject_Z.
    change (inject_Z (2 ^ 52)) with (2 ^ 52). change (inject_Z (2 ^ 53)) with (2 ^ 53).
    rewrite <- !pow2_add. replace (52 + (53 + k - 52))%Z with (53 + k)%Z by lia.
    reflexivity.
  - assert (R : inject_Z m * 2 ^ (52 - j) == inject_Z (m * 2 ^ (52 - j))).
    { rewrite inject_Z_mult, pow2_inject by lia. reflexivity. }
    subst n. rewrite (round_comp _ _ R), round_inject_Z.
    rewrite inject_Z_mult, pow2_inject by lia.
    rewrite <- Qmult_assoc, <- pow2_add.
    replace (52 - j + (j + k - 52))%Z with k by lia. reflexivity.
Qed.

Lemma rnd_representable (m k : Z) :
  (Z.abs m <= 2 ^ 53)%Z -> Binary64.rnd (inject_Z m * 2 ^ k) == inject_Z m * 2 ^ k.
Proof.
  intro M. destruct (Z.lt_trichotomy m 0) as [N | [Z0 | P]].
  - assert (E : inject_Z m * 2 ^ k == - (inject_Z (- m) * 2 ^ k))
      by (rewrite inject_Z_opp; ring).
    rewrite E, rnd_opp, rnd_representable_positive by lia. reflexivity.
  - subst m. change (inject_Z 0) with 0.
    rewrite rnd_zero by ring. ring.
  - apply rnd_representable_positive. lia.
Qed.

(** A rounded number is a float. *)
Lemma rnd_idem (x : Q) : Binary64.rnd (Binary64.rnd x) == Binary64.rnd x.
Proof.
  assert (P : forall y, 0 < y -> Binary64.rnd (Binary64.rnd y) == Binary64.rnd y).
  { intros y Hy. destruct (rnd_positive y Hy) as (m & E & _ & M1 & M2).
    rewrite E. apply rnd_representable. lia. }
  destruct (Q_dec x 0) as [[Nx | Px] | Zx].
  - pose proof (P (- x) ltac:(lra)) as K.
    rewrite (rnd_opp x), (rnd_opp (Binary64.rnd x)) in K. lra.
  - apply P. exact Px.
  - rewrite (rnd_zero x Zx). apply rnd_zero. reflexivity.
Qed.

(** Integers of at most 53 bits, and their halves, are floats. *)
Lemma rnd_inject_Z (n : Z) :
  (Z.abs n <= 2 ^ 53)%Z -> Binary64.rnd (inject_Z n) == inject_Z n.
Proof.
  intro H. pose proof (rnd_representable n 0 H) as K.
  change (2 ^ 0) with 1 in K. rewrite Qmult_1_r in K. exact K.
Qed.

Lemma rnd_half (n : Z) :
  (Z.abs n <= 2 ^ 53)%Z -> Binary64.rnd (inject_Z n / 2) == inject_Z n / 2.
Proof.
  intro H. pose proof (rnd_representable n (-1) H) as K.
  assert (E : inject_Z n * 2 ^ (-1) == inject_Z n / 2) by reflexivity.
  rewrite E in K. exact K.
Qed.

(** The rounding on known values: 0.1 is the float
    [3602879701896397 / 2^55]; of the integers next to 2^53, which need 54
    bits, the odd ones go to their even neighbour whose last kept bit is
    zero. *)
Example rnd_one_tenth : Binary64.rnd (1 # 10) == 3602879701896397 # 36028797018963968.
Proof. vm_compute. reflexivity. Qed.

Example rnd_ties_to_even :
  Binary64.rnd (inject_Z (2 ^ 53 + 1)) == inject_Z (2 ^ 53)
  /\ Binary64.rnd (inject_Z (2 ^ 53 + 3)) == inject_Z (2 ^ 53 + 4).
Proof. split; vm_compute; reflexivity. Qed.

(** ** Clipping in floats (clipping.py) *)

Lemma binary64_div_cases {S} (a b : Q) (s : S) :
  (b == 0 /\ Binary64.div a b s = (Raise ZeroDivisionError, s))
  \/ (~ b == 0 /\ Binary64.div a b s = (Ok (Binary64.rnd (a / b)), s)).
Proof.
  unfold Binary64.div. destruct (Qeq_dec b 0) as [E | E]; [ left | right ];
    split; try assumption; reflexivity.
Qed.

(** The boundary intersection leaves the canvas alone. *)
Lemma binary64_cs_intersection_canvas (x_min x_max y_min y_max : Q) (v : cs_vars)
      (code_out : Z) (c : CartesianPlane) :
  snd (Binary64.cs_intersection x_min x_max y_min y_max v code_out c) = c.
Proof.
  unfold Binary64.cs_intersection.
  repeat match goal with
         | |- context [if negb ?b then _ else _] => destruct b; cbn [negb]
         end;
    try reflexivity;
    unfold bind;
    match goal with
    | |- context [Binary64.div ?a ?b c] =>
        destruct (binary64_div_cases a b c) as [[_ E] | [_ E]]; rewrite E; reflexivity
    end.
Qed.

(** Whatever the rounding does to the intersection point, a pass either
    leaves the loop through the test of line 36 or re-establishes [cs_inv]:
    the codes and [line_accepted] are set by comparisons alone. *)
Lemma binary64_cs_iteration_inv (x_min x_max y_min y_max : Q) (v : cs_vars)
      (c c' : CartesianPlane) (flow : cs_flow) :
  cs_inv x_min x_max y_min y_max v ->
  Binary64.cs_iteration x_min x_max y_min y_max v c = (Ok flow, c') ->
  c' = c
  /\ match flow with
     | Break accept => accept = true /\ cs_exit v = true
     | Continue v' => cs_inv x_min x_max y_min y_max v'
     end.
Proof.
  intros (H1 & H2 & H3). unfold Binary64.cs_iteration.
  destruct (cs_exit v) eqn:Hx; unfold cs_exit in Hx; rewrite Hx.
  - intros [= <- <-]. repeat split.
  - apply orb_false_iff in Hx. destruct Hx as [Ha Hb]. rewrite Hb.
    unfold bind.
    pose proof (binary64_cs_intersection_canvas x_min x_max y_min y_max v
                  (if negb (code1 v =? 0)%Z then code1 v else code2 v) c) as Kc.
    destruct (Binary64.cs_intersection x_min x_max y_min y_max v
                (if negb (code1 v =? 0)%Z then code1 v else code2 v) c)
      as [[[x y] | e | ] c1]; cbn [snd] in Kc; subst c1; try discriminate.
    unfold ret. intros [= <- <-]. split; [ reflexivity | ].
    destruct (code1 v =? 0)%Z eqn:E1; cbn [negb].
    + apply Z.eqb_eq in E1. cbn [andb] in Ha.
      assert (E2 : (code2 v =? code1 v)%Z = false) by (rewrite E1; exact Ha).
      rewrite E2. cbn [x_initial y_initial x_final y_final code1 code2 line_accepted].
      destruct (within _ _ _ _ _ _ || within _ _ _ _ _ _) eqn:W;
        unfold cs_inv; cbn [x_initial y_initial x_final y_final code1 code2 line_accepted];
        repeat split; auto.
    + rewrite Z.eqb_refl.
      cbn [x_initial y_initial x_final y_final code1 code2 line_accepted].
      destruct (within _ _ _ _ _ _ || within _ _ _ _ _ _) eqn:W;
        unfold cs_inv; cbn [x_initial y_initial x_final y_final code1 code2 line_accepted];
        repeat split; auto.
      * intros _. apply orb_true_iff in W. destruct W as [W | W].
        -- left. apply region_code_inside, within_in_window, W.
        -- right. rewrite H2. apply region_code_inside, within_in_window, W.
      * intro L. destruct (H3 L) as [K | K]; [ | right; exact K ].
        rewrite K in E1. discriminate E1.
Qed.

Lemma binary64_cs_loop_inv (x_min x_max y_min y_max : Q) (fuel : nat) :
  forall (v v' : cs_vars) (c c' : CartesianPlane) (accept : bool),
    cs_inv x_min x_max y_min y_max v ->
    Binary64.cs_loop fuel x_min x_max y_min y_max v c = (Ok (accept, v'), c') ->
    c' = c /\ accept = true /\ cs_inv x_min x_max y_min y_max v' /\ cs_exit v' = true.
Proof.
  induction fuel as [ | fuel IH]; intros v v' c c' accept Hinv.
  - discriminate.
  - cbn [Binary64.cs_loop]. unfold bind.
    destruct (Binary64.cs_iteration x_min x_max y_min y_max v c) as [[flow | e | ] c1] eqn:I;
      try discriminate.
    destruct (binary64_cs_iteration_inv _ _ _ _ _ _ _ _ Hinv I) as [-> F].
    destruct flow as [a | v1].
    + destruct F as [-> X]. unfold ret. intros [= <- <- <-]. auto.
    + intro L. apply (IH v1 v' c c' accept F L).
Qed.

(** An accepted result of [clipping_cohen_sutherland] holds the loop's two
    end points, both with region code 0. *)
Lemma binary64_cohen_sutherland_accepted (fuel : nat) (xi yi xf yf x_min y_min x_max y_max : Q)
      (c : CartesianPlane) (p1 p2 : Point) :
  fst (Binary64.clipping_cohen_sutherland fuel xi yi xf yf (x_min, y_min) (x_max, y_max) c)
  = Ok (true, (Some p1, Some p2)) ->
  in_window x_min x_max y_min y_max p1 /\ in_window x_min x_max y_min y_max p2.
Proof.
  unfold Binary64.clipping_cohen_sutherland, bind.
  destruct (Binary64.cs_loop fuel x_min x_max y_min y_max _ c) as [[[a v] | e | ] c1] eqn:L;
    cbn [fst]; try discriminate.
  destruct (binary64_cs_loop_inv _ _ _ _ _ _ _ _ _ _
              (cs_inv_initial x_min x_max y_min y_max xi yi xf yf) L)
    as (-> & -> & (C1 & C2 & Li) & X).
  cbn [andb]. destruct (line_accepted v) eqn:La; [ | discriminate ].
  unfold create_line, create, modify, ret. cbn [fst]. intros [= <- <-].
  destruct (cs_exit_both_inside v X (Li eq_refl)) as [Z1 Z2].
  split; apply region_code_inside; congruence.
Qed.

(** One pair of boundaries in floats: nothing when the line is parallel to
    them, and otherwise the two rounded quotients. *)
Lemma binary64_lb_pair_cases (p q p' q' : Q) (negarr posarr : list Q) (c : CartesianPlane) :
  p' == - p ->
  exists e l,
    Binary64.lb_pair p q p' q' (negarr, posarr) c = (Ok (negarr ++ e, posarr ++ l), c)
    /\ ((p == 0 /\ e = [] /\ l = [])
        \/ (p < 0 /\ e = [Binary64.rnd (q / p)] /\ l = [Binary64.rnd (q' / p')])
        \/ (0 < p /\ e = [Binary64.rnd (q' / p')] /\ l = [Binary64.rnd (q / p)])).
Proof.
  intro Hp. unfold Binary64.lb_pair. case_eqb p 0; cbn [negb].
  - exists [], []. rewrite !app_nil_r. split; [ reflexivity | left; auto ].
  - unfold bind.
    destruct (binary64_div_cases q p c) as [[K _] | [_ D1]]; [ contradiction | ].
    rewrite D1.
    destruct (binary64_div_cases q' p' c) as [[K _] | [_ D2]]; [ exfalso; apply E; lra | ].
    rewrite D2.
    case_ltb p 0.
    + exists [Binary64.rnd (q / p)], [Binary64.rnd (q' / p')].
      split; [ reflexivity | right; left; auto ].
    + exists [Binary64.rnd (q' / p')], [Binary64.rnd (q / p)].
      split; [ reflexivity | right; right ].
      repeat split. destruct (Qlt_le_dec 0 p) as [L | L]; [ exact L | ].
      exfalso. apply E. lra.
Qed.

(** What [clipping_liang_barsky] returns in floats: a rejection, or the
    float values of [x1 + p2 * rn] and [y1 + p4 * rn] at two parameters
    [0 <= rn1 <= rn2 <= 1]. *)
Lemma binary64_liang_barsky_result (x1 y1 x2 y2 xmin ymin xmax ymax : Q)
      (c : CartesianPlane) :
  Binary64.clipping_liang_barsky x1 y1 x2 y2 xmin ymin xmax ymax c
  = (Ok (false, (None, None)), c)
  \/ exists rn1 rn2,
      let p2 := - - Binary64.sub x2 x1 in
      let p4 := - - Binary64.sub y2 y1 in
      let xn1 := Binary64.add x1 (Binary64.mul p2 rn1) in
      let yn1 := Binary64.add y1 (Binary64.mul p4 rn1) in
      let xn2 := Binary64.add x1 (Binary64.mul p2 rn2) in
      let yn2 := Binary64.add y1 (Binary64.mul p4 rn2) in
      Binary64.clipping_liang_barsky x1 y1 x2 y2 xmin ymin xmax ymax c
      = (Ok (true, (Some (xn1, yn1), Some (xn2, yn2))),
         set_items (items c ++ [Segment xn1 yn1 xn2 yn2 "red" ""]) c)
      /\ 0 <= rn1 /\ rn1 <= rn2 /\ rn2 <= 1.
Proof.
  remember (Binary64.clipping_liang_barsky x1 y1 x2 y2 xmin ymin xmax ymax c) as r eqn:R.
  unfold Binary64.clipping_liang_barsky in R.
  destruct (_ || _ || _ || _) eqn:G in R; [ left; exact R | ].
  destruct (binary64_lb_pair_cases (- Binary64.sub x2 x1) (Binary64.sub x1 xmin)
              (- - Binary64.sub x2 x1) (Binary64.sub xmax x1)
              [0] [1] c (Qeq_refl _)) as (ex & lx & E1 & Cx).
  unfold bind at 1 in R. rewrite E1 in R.
  destruct (binary64_lb_pair_cases (- Binary64.sub y2 y1) (Binary64.sub y1 ymin)
              (- - Binary64.sub y2 y1) (Binary64.sub ymax y1)
              ([0] ++ ex) ([1] ++ lx) c (Qeq_refl _)) as (ey & ly & E2 & Cy).
  unfold bind at 1 in R. rewrite E2 in R.
  set (negarr := ([0] ++ ex) ++ ey) in R. set (posarr := ([1] ++ lx) ++ ly) in R.
  assert (Nge : forall v, In v negarr -> v <= max negarr)
    by (intros v Hin; apply (max_ge 0 (ex ++ ey) v); exact Hin).
  assert (Ple : forall v, In v posarr -> min posarr <= v)
    by (intros v Hin; apply (min_le 1 (lx ++ ly) v); exact Hin).
  case_ltb (min posarr) (max negarr); [ left; exact R | right ].
  exists (max negarr), (min posarr). cbv zeta.
  split; [ exact R | ].
  split; [ apply Nge; left; reflexivity | ].
  split; [ exact E | ].
  apply Ple. left. reflexivity.
Qed.

Lemma rnd_nonneg (x : Q) : 0 <= x -> 0 <= Binary64.rnd x.
Proof.
  intro H. pose proof (rnd_mono 0 x H) as K.
  rewrite (rnd_zero 0) in K by reflexivity. exact K.
Qed.

Lemma rnd_nonpos (x : Q) : x <= 0 -> Binary64.rnd x <= 0.
Proof.
  intro H. pose proof (rnd_mono x 0 H) as K.
  rewrite (rnd_zero 0) in K by reflexivity. exact K.
Qed.

Lemma rnd_ge_1 (x : Q) : 1 <= x -> 1 <= Binary64.rnd x.
Proof.
  intro H. pose proof (rnd_mono 1 x H) as K.
  assert (E : Binary64.rnd 1 == 1) by reflexivity.
  rewrite E in K. exact K.
Qed.

(** Along an axis on which both end points are within the window's range,
    every entering quotient rounds to at most 0 and every leaving one to at
    least 1: rounding keeps the order, and 0 and 1 are floats. *)
Lemma binary64_lb_axis_inside (a b lo hi : Q) (e l : list Q) :
  lo <= a -> a <= hi -> lo <= b -> b <= hi ->
  (- Binary64.sub b a == 0 /\ e = [] /\ l = [])
  \/ (- Binary64.sub b a < 0
      /\ e = [Binary64.rnd (Binary64.sub a lo / - Binary64.sub b a)]
      /\ l = [Binary64.rnd (Binary64.sub hi a / - - Binary64.sub b a)])
  \/ (0 < - Binary64.sub b a
      /\ e = [Binary64.rnd (Binary64.sub hi a / - - Binary64.sub b a)]
      /\ l = [Binary64.rnd (Binary64.sub a lo / - Binary64.sub b a)]) ->
  (forall v, In v e -> v <= 0) /\ (forall v, In v l -> 1 <= v).
Proof.
  intros La Ha Lb Hb.
  assert (Q1 : 0 <= Binary64.sub a lo) by (apply rnd_nonneg; lra).
  assert (Q2 : 0 <= Binary64.sub hi a) by (apply rnd_nonneg; lra).
  assert (D2 : Binary64.sub b a <= Binary64.sub hi a) by (apply rnd_mono; lra).
  assert (D1 : - Binary64.sub b a <= Binary64.sub a lo).
  { unfold Binary64.sub. rewrite <- rnd_opp. apply rnd_mono. lra. }
  set (d := Binary64.sub b a) in *. set (q := Binary64.sub a lo) in *.
  set (q' := Binary64.sub hi a) in *.
  intros [(P & -> & ->) | [(P & -> & ->) | (P & -> & ->)]].
  - split; intros v [].
  - assert (E1 : (q / - d) * - d == q) by (field; lra).
    assert (E2 : (q' / - - d) * - - d == q') by (field; lra).
    set (u := q / - d) in *. set (w := q' / - - d) in *.
    split; intros v [<- | []]; [ apply rnd_nonpos | apply rnd_ge_1 ]; nra.
  - assert (E1 : (q / - d) * - d == q) by (field; lra).
    assert (E2 : (q' / - - d) * - - d == q') by (field; lra).
    set (u := q / - d) in *. set (w := q' / - - d) in *.
    split; intros v [<- | []]; [ apply rnd_nonpos | apply rnd_ge_1 ]; nra.
Qed.

(** On a line with both end points in the window, [clipping_liang_barsky]
    settles on the parameters 0 and 1 in floats too. *)
Lemma binary64_liang_barsky_inside (x1 y1 x2 y2 xmin ymin xmax ymax : Q)
      (c : CartesianPlane) :
  in_window xmin xmax ymin ymax (x1, y1) ->
  in_window xmin xmax ymin ymax (x2, y2) ->
  fst (Binary64.clipping_liang_barsky x1 y1 x2 y2 xmin ymin xmax ymax c)
  = Ok (true,
        (Some (Binary64.add x1 (Binary64.mul (- - Binary64.sub x2 x1) 0),
               Binary64.add y1 (Binary64.mul (- - Binary64.sub y2 y1) 0)),
         Some (Binary64.add x1 (Binary64.mul (- - Binary64.sub x2 x1) 1),
               Binary64.add y1 (Binary64.mul (- - Binary64.sub y2 y1) 1)))).
Proof.
  unfold in_window; cbn [fst snd]. intros [[A1 A2] [A3 A4]] [[B1 B2] [B3 B4]].
  unfold Binary64.clipping_liang_barsky.
  rewrite !lb_guard_inside by (apply rnd_nonneg; lra). cbn [orb].
  destruct (binary64_lb_pair_cases (- Binary64.sub x2 x1) (Binary64.sub x1 xmin)
              (- - Binary64.sub x2 x1) (Binary64.sub xmax x1)
              [0] [1] c (Qeq_refl _)) as (ex & lx & E1 & Cx).
  unfold bind at 1. rewrite E1.
  destruct (binary64_lb_pair_cases (- Binary64.sub y2 y1) (Binary64.sub y1 ymin)
              (- - Binary64.sub y2 y1) (Binary64.sub ymax y1)
              ([0] ++ ex) ([1] ++ lx) c (Qeq_refl _)) as (ey & ly & E2 & Cy).
  unfold bind at 1. rewrite E2.
  destruct (binary64_lb_axis_inside x1 x2 xmin xmax ex lx A1 A2 B1 B2 Cx) as [Nx Px].
  destruct (binary64_lb_axis_inside y1 y2 ymin ymax ey ly A3 A4 B3 B4 Cy) as [Ny Py].
  assert (M1 : max (([0] ++ ex) ++ ey) = 0).
  { apply (max_first 0 (ex ++ ey)). intros v Hin.
    apply in_app_iff in Hin. destruct Hin; auto. }
  assert (M2 : min (([1] ++ lx) ++ ly) = 1).
  { apply (min_first 1 (lx ++ ly)). intros v Hin.
    apply in_app_iff in Hin. destruct Hin; auto. }
  rewrite M1, M2. reflexivity.
Qed.

(** The point at parameter 0 is the first end point, and the point at
    parameter 1 is [a + (b - a)] as floats add and subtract. *)
Lemma binary64_point_at_0 (a b : Q) :
  is_float a -> Binary64.add a (Binary64.mul (- - Binary64.sub b a) 0) == a.
Proof.
  unfold is_float, Binary64.add, Binary64.mul. intro F.
  rewrite (rnd_zero (- - Binary64.sub b a * 0)) by ring.
  assert (E : a + 0 == a) by ring.
  rewrite E. exact F.
Qed.

Lemma binary64_point_at_1 (a b : Q) :
  Binary64.add a (Binary64.mul (- - Binary64.sub b a) 1)
  == Binary64.add a (Binary64.sub b a).
Proof.
  unfold Binary64.add, Binary64.mul, Binary64.sub.
  assert (E : - - Binary64.rnd (b - a) * 1 == Binary64.rnd (b - a)) by ring.
  rewrite E, rnd_idem. reflexivity.
Qed.

(** Between integers of at most 52 bits the sum [a + (b - a)] is exact. *)
Lemma binary64_add_sub_integer (a b : Z) :
  (Z.abs a <= 2 ^ 52)%Z -> (Z.abs b <= 2 ^ 52)%Z ->
  Binary64.add (inject_Z a) (Binary64.sub (inject_Z b) (inject_Z a)) == inject_Z b.
Proof.
  intros Ha Hb. unfold Binary64.add, Binary64.sub.
  assert (E1 : inject_Z b - inject_Z a == inject_Z (b - a)).
  { unfold Z.sub. rewrite inject_Z_plus, inject_Z_opp. reflexivity. }
  rewrite E1, rnd_inject_Z by lia.
  assert (E2 : inject_Z a + inject_Z (b - a) == inject_Z b).
  { rewrite <- inject_Z_plus. replace (a + (b - a))%Z with b by lia. reflexivity. }
  rewrite E2. apply rnd_inject_Z. lia.
Qed.

(** C10, as the code has it.  On a line of floats with both end points in
    the window (a zero-length line included) [clipping_liang_barsky] returns
    [True] with the points at the parameters 0 and 1: the first is the
    first end point, and the second is [(x1 + (x2 - x1), y1 + (y2 - y1))]
    as floats compute it, which is the second end point whenever the
    coordinates are integers of at most 52 bits. *)
Theorem clipping_liang_barsky_accepts_inside_float_line :
  forall (x1 y1 x2 y2 xmin ymin xmax ymax : Q) (c : CartesianPlane),
    is_float x1 -> is_float y1 ->
    in_window xmin xmax ymin ymax (x1, y1) ->
    in_window xmin xmax ymin ymax (x2, y2) ->
    exists p1 p2,
      fst (Binary64.clipping_liang_barsky x1 y1 x2 y2 xmin ymin xmax ymax c)
      = Ok (true, (Some p1, Some p2))
      /\ p1 = (Binary64.add x1 (Binary64.mul (- - Binary64.sub x2 x1) 0),
               Binary64.add y1 (Binary64.mul (- - Binary64.sub y2 y1) 0))
      /\ p2 = (Binary64.add x1 (Binary64.mul (- - Binary64.sub x2 x1) 1),
               Binary64.add y1 (Binary64.mul (- - Binary64.sub y2 y1) 1))
      /\ Point_eq p1 (x1, y1)
      /\ Point_eq p2 (Binary64.add x1 (Binary64.sub x2 x1),
                      Binary64.add y1 (Binary64.sub y2 y1))
      /\ (forall a1 b1 a2 b2 : Z,
            (Z.abs a1 <= 2 ^ 52)%Z -> (Z.abs b1 <= 2 ^ 52)%Z ->
            (Z.abs a2 <= 2 ^ 52)%Z -> (Z.abs b2 <= 2 ^ 52)%Z ->
            x1 = inject_Z a1 -> y1 = inject_Z b1 ->
            x2 = inject_Z a2 -> y2 = inject_Z b2 ->
            Point_eq p2 (x2, y2)).
Proof.
  intros x1 y1 x2 y2 xmin ymin xmax ymax c Fx Fy H1 H2.
  eexists. eexists.
  split; [ apply binary64_liang_barsky_inside; assumption | ].
  split; [ reflexivity | ]. split; [ reflexivity | ].
  unfold Point_eq; cbn [fst snd].
  split; [ split; apply binary64_point_at_0; assumption | ].
  split; [ split; apply binary64_point_at_1 | ].
  intros a1 b1 a2 b2 A1 B1 A2 B2 -> -> -> ->.
  rewrite !binary64_point_at_1.
  split; apply binary64_add_sub_integer; assumption.
Qed.

Lemma clipping_liang_barsky_accepts_inside_float_line_witness :
  exists p1 p2,
    fst (Binary64.clipping_liang_barsky 0 (Binary64.rnd (26 # 10)) 3 (Binary64.rnd (78 # 10))
           (-5) (-5) 10 10 blank_canvas)
    = Ok (true, (Some p1, Some p2))
    /\ p1 = (Binary64.add 0 (Binary64.mul (- - Binary64.sub 3 0) 0),
             Binary64.add (Binary64.rnd (26 # 10))
               (Binary64.mul (- - Binary64.sub (Binary64.rnd (78 # 10)) (Binary64.rnd (26 # 10))) 0))
    /\ p2 = (Binary64.add 0 (Binary64.mul (- - Binary64.sub 3 0) 1),
             Binary64.add (Binary64.rnd (26 # 10))
               (Binary64.mul (- - Binary64.sub (Binary64.rnd (78 # 10)) (Binary64.rnd (26 # 10))) 1))
    /\ Point_eq p1 (0, Binary64.rnd (26 # 10))
    /\ Point_eq p2 (Binary64.add 0 (Binary64.sub 3 0),
                    Binary64.add (Binary64.rnd (26 # 10))
                      (Binary64.sub (Binary64.rnd (78 # 10)) (Binary64.rnd (26 # 10))))
    /\ (forall a1 b1 a2 b2 : Z,
          (Z.abs a1 <= 2 ^ 52)%Z -> (Z.abs b1 <= 2 ^ 52)%Z ->
          (Z.abs a2 <= 2 ^ 52)%Z -> (Z.abs b2 <= 2 ^ 52)%Z ->
          0 = inject_Z a1 -> Binary64.rnd (26 # 10) = inject_Z b1 ->
          3 = inject_Z a2 -> Binary64.rnd (78 # 10) = inject_Z b2 ->
          Point_eq p2 (3, Binary64.rnd (78 # 10))).
Proof.
  apply (clipping_liang_barsky_accepts_inside_float_line
           0 (Binary64.rnd (26 # 10)) 3 (Binary64.rnd (78 # 10)) (-5) (-5) 10 10 blank_canvas).
  - reflexivity.
  - apply rnd_idem.
  - vm_compute. repeat split; discriminate.
  - vm_compute. repeat split; discriminate.
Defined.

(** The claim as stated fails: the line from (1, 2.6) to (3, 7.8), inside
    the window from (0, 0) to (10, 10), is accepted but its second end point
    comes back with [y = 2.6 + (7.8 - 2.6)], the float below 7.8. *)
Lemma clipping_liang_barsky_moves_inside_float_line :
  (in_window 0 10 0 10 (1, Binary64.rnd (26 # 10))
   /\ in_window 0 10 0 10 (3, Binary64.rnd (78 # 10)))
  /\ exists p1 p2,
      fst (Binary64.clipping_liang_barsky 1 (Binary64.rnd (26 # 10)) 3 (Binary64.rnd (78 # 10))
             0 0 10 10 blank_canvas)
      = Ok (true, (Some p1, Some p2))
      /\ snd p2 < Binary64.rnd (78 # 10)
      /\ ~ Point_eq p2 (3, Binary64.rnd (78 # 10)).
Proof.
  split.
  - vm_compute. repeat split; discriminate.
  - eexists. eexists. split; [ vm_compute; reflexivity | ].
    split; [ vm_compute; reflexivity | ].
    unfold Point_eq; cbn [fst snd]. intros [_ K]. vm_compute in K. discriminate K.
Qed.




(** ** Reflection in floats (transformation2d.py, main.py) *)

Lemma half_integer_exact (b : Z) (x : Q) :
  (b <= 2 ^ 53)%Z -> half_integer b x -> Binary64.rnd x == x.
Proof.
  intros B (m & M & E). rewrite E. apply rnd_half. lia.
Qed.

Lemma half_integer_sub (b1 b2 : Z) (x y : Q) :
  half_integer b1 x -> half_integer b2 y -> half_integer (b1 + b2) (x - y).
Proof.
  intros (m & M & E) (n & N & F). exists (m - n)%Z. split; [ lia | ].
  rewrite E, F. unfold Z.sub. rewrite inject_Z_plus, inject_Z_opp. field.
Qed.

Lemma half_integer_add (b1 b2 : Z) (x y : Q) :
  half_integer b1 x -> half_integer b2 y -> half_integer (b1 + b2) (x + y).
Proof.
  intros (m & M & E) (n & N & F). exists (m + n)%Z. split; [ lia | ].
  rewrite E, F, inject_Z_plus. field.
Qed.

Lemma half_integer_opp (b : Z) (x : Q) : half_integer b x -> half_integer b (- x).
Proof.
  intros (m & M & E). exists (- m)%Z. split; [ lia | ].
  rewrite E, inject_Z_opp. field.
Qed.

Lemma half_integer_comp (b : Z) (x y : Q) : x == y -> half_integer b x -> half_integer b y.
Proof.
  intros E (m & M & F). exists m. split; [ exact M | rewrite <- E; exact F ].
Qed.

(** On halves of integers of these sizes floats subtract and add exactly. *)
Lemma binary64_sub_exact (x y : Q) :
  half_integer (2 ^ 52) x -> half_integer (2 ^ 52) y -> Binary64.sub x y == x - y.
Proof.
  intros Hx Hy. unfold Binary64.sub.
  apply (half_integer_exact (2 ^ 52 + 2 ^ 52)); [ reflexivity | ].
  apply half_integer_sub; assumption.
Qed.

Lemma binary64_add_exact (x y : Q) :
  half_integer (2 ^ 52) x -> half_integer (2 ^ 52) y -> Binary64.add x y == x + y.
Proof.
  intros Hx Hy. unfold Binary64.add.
  apply (half_integer_exact (2 ^ 52 + 2 ^ 52)); [ reflexivity | ].
  apply half_integer_add; assumption.
Qed.

Lemma half_integer_weaken (b b' : Z) (x : Q) :
  (b <= b')%Z -> half_integer b x -> half_integer b' x.
Proof.
  intros L (m & M & E). exists m. split; [ lia | exact E ].
Qed.

(** The four ways a coordinate goes to Cartesian coordinates and back:
    kept or mirrored, on the horizontal and on the vertical axis. *)
Lemma binary64_there_and_back (x o : Q) :
  half_integer (2 ^ 51) x -> half_integer (2 ^ 50) o ->
  Binary64.add (Binary64.sub x o) o == x
  /\ Binary64.add (- Binary64.sub x o) o == 2 * o - x
  /\ Binary64.sub o (Binary64.sub o x) == x
  /\ Binary64.sub o (- Binary64.sub o x) == 2 * o - x.
Proof.
  intros Hx Ho.
  assert (Hx' : half_integer (2 ^ 52) x) by (apply (half_integer_weaken (2 ^ 51)); [ lia | exact Hx ]).
  assert (Ho' : half_integer (2 ^ 52) o) by (apply (half_integer_weaken (2 ^ 50)); [ lia | exact Ho ]).
  assert (D1 : half_integer (2 ^ 52) (x - o)).
  { apply (half_integer_weaken (2 ^ 51 + 2 ^ 50)); [ lia | ].
    apply half_integer_sub; assumption. }
  assert (D2 : half_integer (2 ^ 52) (o - x)).
  { apply (half_integer_weaken (2 ^ 50 + 2 ^ 51)); [ lia | ].
    apply half_integer_sub; assumption. }
  pose proof (binary64_sub_exact x o Hx' Ho') as S1.
  pose proof (binary64_sub_exact o x Ho' Hx') as S2.
  assert (D1' : half_integer (2 ^ 52) (Binary64.sub x o))
    by (apply (half_integer_comp _ (x - o)); [ symmetry; exact S1 | exact D1 ]).
  assert (D2' : half_integer (2 ^ 52) (Binary64.sub o x))
    by (apply (half_integer_comp _ (o - x)); [ symmetry; exact S2 | exact D2 ]).
  split; [ | split; [ | split ] ].
  - rewrite (binary64_add_exact _ _ D1' Ho'), S1. ring.
  - rewrite (binary64_add_exact _ _ (half_integer_opp _ _ D1') Ho'), S1. ring.
  - rewrite (binary64_sub_exact _ _ Ho' D2'), S2. ring.
  - rewrite (binary64_sub_exact _ _ Ho' (half_integer_opp _ _ D2')), S2. ring.
Qed.

Lemma binary64_cartesian_plan_coordinates_set (x y : Q) (c : CartesianPlane) (o : Q * Q) :
  origin c = Some o ->
  Binary64.cartesian_plan_coordinates x y c
  = (Ok (Binary64.sub x (fst o), Binary64.sub (snd o) y), c).
Proof.
  intro O. unfold Binary64.cartesian_plan_coordinates, Binary64.ensure_origin, bind, ret.
  rewrite O. reflexivity.
Qed.

Lemma binary64_get_pixel_coordinates_set (x y : Q) (c : CartesianPlane) (o : Q * Q) :
  origin c = Some o ->
  Binary64.get_pixel_coordinates x y c
  = (Ok (Binary64.add x (fst o), Binary64.sub (snd o) y), c).
Proof.
  intro O. unfold Binary64.get_pixel_coordinates, Binary64.ensure_origin, bind, ret.
  rewrite O. reflexivity.
Qed.

(** A point with half-integer coordinates of at most 52 bits. *)
Lemma binary64_reflect_point (o p : Point) (axis : string) :
  valid_axis axis ->
  half_integer (2 ^ 50) (fst o) -> half_integer (2 ^ 50) (snd o) ->
  half_integer (2 ^ 51) (fst p) -> half_integer (2 ^ 51) (snd p) ->
  Point_eq
    (if String.eqb axis "X"
     then (Binary64.add (Binary64.sub (fst p) (fst o)) (fst o),
           Binary64.sub (snd o) (- Binary64.sub (snd o) (snd p)))
     else if String.eqb axis "Y"
     then (Binary64.add (- Binary64.sub (fst p) (fst o)) (fst o),
           Binary64.sub (snd o) (Binary64.sub (snd o) (snd p)))
     else (Binary64.add (- Binary64.sub (fst p) (fst o)) (fst o),
           Binary64.sub (snd o) (- Binary64.sub (snd o) (snd p))))
    (mirror o axis p).
Proof.
  intros V Ox Oy Px Py.
  destruct (binary64_there_and_back (fst p) (fst o) Px Ox) as (X1 & X2 & _ & _).
  destruct (binary64_there_and_back (snd p) (snd o) Py Oy) as (_ & _ & Y1 & Y2).
  destruct V as [-> | [-> | ->]]; unfold Point_eq, mirror;
    cbn [String.eqb Ascii.eqb Bool.eqb fst snd]; split; assumption.
Qed.

Lemma binary64_reflect_line_run (l : Line) (axis : string) (c : CartesianPlane) (o : Q * Q) :
  valid_axis axis -> centered c o ->
  half_integer (2 ^ 51) (fst (fst l)) -> half_integer (2 ^ 51) (snd (fst l)) ->
  half_integer (2 ^ 51) (fst (snd l)) -> half_integer (2 ^ 51) (snd (snd l)) ->
  exists l',
    Binary64.reflect_line l axis c = (Ok (Some l'), c)
    /\ Line_eq l' (mirror o axis (fst l), mirror o axis (snd l)).
Proof.
  intros V (O & Ox & Oy) A1 B1 A2 B2. destruct l as [[x1 y1] [x2 y2]]. cbn [fst snd] in *.
  apply (half_integer_weaken (2 ^ 49) (2 ^ 50) _ ltac:(lia)) in Ox.
  apply (half_integer_weaken (2 ^ 49) (2 ^ 50) _ ltac:(lia)) in Oy.
  pose proof (binary64_reflect_point o (x1, y1) axis V Ox Oy A1 B1) as M1.
  pose proof (binary64_reflect_point o (x2, y2) axis V Ox Oy A2 B2) as M2.
  cbn [fst snd] in M1, M2.
  unfold Binary64.reflect_line.
  unfold bind at 1. rewrite (binary64_cartesian_plan_coordinates_set x1 y1 c o O).
  unfold bind at 1. rewrite (binary64_cartesian_plan_coordinates_set x2 y2 c o O).
  destruct V as [-> | [-> | ->]]; cbn [String.eqb Ascii.eqb Bool.eqb] in *;
    unfold bind at 1; rewrite (binary64_get_pixel_coordinates_set _ _ c o O);
    unfold bind at 1; rewrite (binary64_get_pixel_coordinates_set _ _ c o O);
    unfold ret; eexists; (split; [ reflexivity | ]);
    unfold Line_eq; cbn [fst snd]; split; assumption.
Qed.

Lemma binary64_reflect_circle_run (k : Circle) (axis : string) (c : CartesianPlane)
      (o : Q * Q) :
  valid_axis axis -> centered c o ->
  half_integer (2 ^ 51) (fst (fst k)) -> half_integer (2 ^ 51) (snd (fst k)) ->
  exists k',
    Binary64.reflect_circle k axis c = (Ok (Some k'), c)
    /\ Point_eq (fst k') (mirror o axis (fst k)) /\ snd k' = snd k.
Proof.
  intros V (O & Ox & Oy) A1 B1. destruct k as [[xc yc] r]. cbn [fst snd] in *.
  apply (half_integer_weaken (2 ^ 49) (2 ^ 50) _ ltac:(lia)) in Ox.
  apply (half_integer_weaken (2 ^ 49) (2 ^ 50) _ ltac:(lia)) in Oy.
  pose proof (binary64_reflect_point o (xc, yc) axis V Ox Oy A1 B1) as M1.
  cbn [fst snd] in M1.
  unfold Binary64.reflect_circle.
  unfold bind at 1. rewrite (binary64_cartesian_plan_coordinates_set xc yc c o O).
  destruct V as [-> | [-> | ->]]; cbn [String.eqb Ascii.eqb Bool.eqb] in *;
    unfold bind at 1; rewrite (binary64_get_pixel_coordinates_set _ _ c o O);
    unfold ret; eexists; (split; [ reflexivity | ]);
    cbn [fst snd]; (split; [ assumption | reflexivity ]).
Qed.

(** The mirror image of a pixel is a half-integer point again. *)
Lemma half_integer_mirror (o p : Point) (axis : string) (q : Point) :
  half_integer (2 ^ 49) (fst o) -> half_integer (2 ^ 49) (snd o) ->
  half_integer (2 ^ 50) (fst p) -> half_integer (2 ^ 50) (snd p) ->
  Point_eq q (mirror o axis p) ->
  half_integer (2 ^ 51) (fst q) /\ half_integer (2 ^ 51) (snd q).
Proof.
  intros Ox Oy Px Py [E1 E2].
  assert (Dx : half_integer (2 ^ 51) (2 * fst o - fst p)).
  { destruct Ox as (w & W & Ew). destruct Px as (m & M & Em).
    exists (2 * w - m)%Z. split; [ lia | ].
    rewrite Ew, Em. unfold Z.sub. rewrite inject_Z_plus, inject_Z_mult, inject_Z_opp.
    change (inject_Z 2) with 2. field. }
  assert (Dy : half_integer (2 ^ 51) (2 * snd o - snd p)).
  { destruct Oy as (w & W & Ew). destruct Py as (m & M & Em).
    exists (2 * w - m)%Z. split; [ lia | ].
    rewrite Ew, Em. unfold Z.sub. rewrite inject_Z_plus, inject_Z_mult, inject_Z_opp.
    change (inject_Z 2) with 2. field. }
  assert (Px' : half_integer (2 ^ 51) (fst p))
    by (apply (half_integer_weaken (2 ^ 50)); [ lia | exact Px ]).
  assert (Py' : half_integer (2 ^ 51) (snd p))
    by (apply (half_integer_weaken (2 ^ 50)); [ lia | exact Py ]).
  assert (Kx : forall u, fst q == u -> half_integer (2 ^ 51) u -> half_integer (2 ^ 51) (fst q))
    by (intros u E H; apply (half_integer_comp _ u); [ symmetry; exact E | exact H ]).
  assert (Ky : forall u, snd q == u -> half_integer (2 ^ 51) u -> half_integer (2 ^ 51) (snd q))
    by (intros u E H; apply (half_integer_comp _ u); [ symmetry; exact E | exact H ]).
  unfold mirror in E1, E2.
  destruct (String.eqb axis "X").
  { cbn [fst snd] in E1, E2. split; [ apply (Kx _ E1 Px') | apply (Ky _ E2 Dy) ]. }
  destruct (String.eqb axis "Y").
  { cbn [fst snd] in E1, E2. split; [ apply (Kx _ E1 Dx) | apply (Ky _ E2 Py') ]. }
  destruct (String.eqb axis "XY").
  { cbn [fst snd] in E1, E2. split; [ apply (Kx _ E1 Dx) | apply (Ky _ E2 Dy) ]. }
  split; [ apply (Kx _ E1 Px') | apply (Ky _ E2 Py') ].
Qed.

(** X11.  In floats, on a canvas whose origin is its center, [reflect_line]
    and [reflect_circle] on a valid axis return exactly the mirror image of
    end points (of a center) with integer or half-integer coordinates of
    pixel size: (x, y) goes to (x, 2*oy - y), (2*ox - x, y) or
    (2*ox - x, 2*oy - y); the radius is kept and the canvas left alone. *)
Theorem reflect_mirrors_pixels_about_origin :
  forall (l : Line) (k : Circle) (axis : string) (c : CartesianPlane) (o : Q * Q),
    valid_axis axis ->
    centered c o ->
    on_grid (2 ^ 50) (fst l) -> on_grid (2 ^ 50) (snd l) -> on_grid (2 ^ 50) (fst k) ->
    (exists l',
        Binary64.reflect_line l axis c = (Ok (Some l'), c)
        /\ Line_eq l' (mirror o axis (fst l), mirror o axis (snd l)))
    /\ (exists k',
           Binary64.reflect_circle k axis c = (Ok (Some k'), c)
           /\ Point_eq (fst k') (mirror o axis (fst k)) /\ snd k' = snd k).
Proof.
  intros l k axis c o V C [A1 B1] [A2 B2] [A3 B3].
  split.
  - apply (binary64_reflect_line_run l axis c o V C);
      apply (half_integer_weaken (2 ^ 50)); solve [ lia | assumption ].
  - apply (binary64_reflect_circle_run k axis c o V C);
      apply (half_integer_weaken (2 ^ 50)); solve [ lia | assumption ].
Qed.

Lemma reflect_mirrors_pixels_about_origin_witness :
  (exists l',
      Binary64.reflect_line ((0, 0), (4, 2)) "X" one_line_scene = (Ok (Some l'), one_line_scene)
      /\ Line_eq l' (mirror (400, 300) "X" (fst ((0, 0), (4, 2))),
                     mirror (400, 300) "X" (snd ((0, 0), (4, 2)))))
  /\ (exists k',
         Binary64.reflect_circle ((10, 10), 5 # 2) "X" one_line_scene
         = (Ok (Some k'), one_line_scene)
         /\ Point_eq (fst k') (mirror (400, 300) "X" (fst ((10, 10), 5 # 2)))
         /\ snd k' = snd ((10, 10), 5 # 2)).
Proof.
  apply (reflect_mirrors_pixels_about_origin
           ((0, 0), (4, 2)) ((10, 10), 5 # 2) "X" one_line_scene (400, 300)).
  - left. reflexivity.
  - split; [ reflexivity | split; [ exists 800%Z | exists 600%Z ]; split; reflexivity || lia ].
  - split; exists 0%Z; split; reflexivity || lia.
  - split; [ exists 8%Z | exists 4%Z ]; split; reflexivity || lia.
  - split; exists 20%Z; split; reflexivity || lia.
Defined.

(** X12.  In floats, on a canvas whose origin is its center, reflecting a
    line or a circle of pixel coordinates twice about the same valid axis
    gives back the line or the circle. *)
Theorem reflect_twice_returns_pixels :
  forall (l : Line) (k : Circle) (axis : string) (c : CartesianPlane) (o : Q * Q),
    valid_axis axis ->
    centered c o ->
    on_grid (2 ^ 50) (fst l) -> on_grid (2 ^ 50) (snd l) -> on_grid (2 ^ 50) (fst k) ->
    (exists l1 l2,
        Binary64.reflect_line l axis c = (Ok (Some l1), c)
        /\ Binary64.reflect_line l1 axis c = (Ok (Some l2), c)
        /\ Line_eq l2 l)
    /\ (exists k1 k2,
           Binary64.reflect_circle k axis c = (Ok (Some k1), c)
           /\ Binary64.reflect_circle k1 axis c = (Ok (Some k2), c)
           /\ Circle_eq k2 k).
Proof.
  intros l k axis c o V C [A1 B1] [A2 B2] [A3 B3].
  pose proof C as (_ & Ox & Oy).
  split.
  - destruct (binary64_reflect_line_run l axis c o V C) as (l1 & E1 & M1a & M1b);
      try (apply (half_integer_weaken (2 ^ 50)); solve [ lia | assumption ]).
    destruct (half_integer_mirror o (fst l) axis (fst l1) Ox Oy A1 B1 M1a) as [G1 G2].
    destruct (half_integer_mirror o (snd l) axis (snd l1) Ox Oy A2 B2 M1b) as [G3 G4].
    destruct (binary64_reflect_line_run l1 axis c o V C G1 G2 G3 G4) as (l2 & E2 & M2a & M2b).
    exists l1, l2. split; [ exact E1 | split; [ exact E2 | ] ].
    cbn [fst snd] in *.
    pose proof (mirror_involutive _ _ _ _ V M1a) as Ia.
    pose proof (mirror_involutive _ _ _ _ V M1b) as Ib.
    unfold Line_eq, Point_eq in *.
    destruct M2a, M2b, Ia, Ib. repeat split; lra.
  - destruct (binary64_reflect_circle_run k axis c o V C) as (k1 & E1 & M1 & R1);
      try (apply (half_integer_weaken (2 ^ 50)); solve [ lia | assumption ]).
    destruct (half_integer_mirror o (fst k) axis (fst k1) Ox Oy A3 B3 M1) as [G1 G2].
    destruct (binary64_reflect_circle_run k1 axis c o V C G1 G2) as (k2 & E2 & M2 & R2).
    exists k1, k2. split; [ exact E1 | split; [ exact E2 | ] ].
    pose proof (mirror_involutive _ _ _ _ V M1) as Ia.
    unfold Circle_eq, Point_eq in *.
    destruct M2, Ia. rewrite R2, R1. repeat split; lra.
Qed.

Lemma reflect_twice_returns_pixels_witness :
  (exists l1 l2,
      Binary64.reflect_line ((0, 0), (4, 2)) "XY" one_line_scene = (Ok (Some l1), one_line_scene)
      /\ Binary64.reflect_line l1 "XY" one_line_scene = (Ok (Some l2), one_line_scene)
      /\ Line_eq l2 ((0, 0), (4, 2)))
  /\ (exists k1 k2,
         Binary64.reflect_circle ((10, 10), 5 # 2) "XY" one_line_scene
         = (Ok (Some k1), one_line_scene)
         /\ Binary64.reflect_circle k1 "XY" one_line_scene = (Ok (Some k2), one_line_scene)
         /\ Circle_eq k2 ((10, 10), 5 # 2)).
Proof.
  apply (reflect_twice_returns_pixels
           ((0, 0), (4, 2)) ((10, 10), 5 # 2) "XY" one_line_scene (400, 300)).
  - right. right. reflexivity.
  - split; [ reflexivity | split; [ exists 800%Z | exists 600%Z ]; split; reflexivity || lia ].
  - split; exists 0%Z; split; reflexivity || lia.
  - split; [ exists 8%Z | exists 4%Z ]; split; reflexivity || lia.
  - split; exists 20%Z; split; reflexivity || lia.
Defined.

(** ** Scaling in floats (transformation2d.py) *)

(** One coordinate of [scale_line]: between integers and by an integer
    factor, with every intermediate result of at most 53 bits, the float
    result is the integer [a + (b - a) * f]. *)
Lemma binary64_scale_coordinate (x1 x2 : Q) (a b f : Z) :
  x1 == inject_Z a -> x2 == inject_Z b ->
  (Z.abs (b - a) <= 2 ^ 53)%Z ->
  (Z.abs ((b - a) * f) <= 2 ^ 53)%Z ->
  (Z.abs (a + (b - a) * f) <= 2 ^ 53)%Z ->
  Binary64.add x1 (Binary64.mul (Binary64.sub x2 x1) (inject_Z f))
  == inject_Z (a + (b - a) * f).
Proof.
  intros E1 E2 B1 B2 B3. unfold Binary64.add, Binary64.mul, Binary64.sub.
  assert (S : x2 - x1 == inject_Z (b - a)).
  { rewrite E1, E2. unfold Z.sub. rewrite inject_Z_plus, inject_Z_opp. reflexivity. }
  rewrite S, (rnd_inject_Z _ B1).
  assert (M : inject_Z (b - a) * inject_Z f == inject_Z ((b - a) * f))
    by (rewrite inject_Z_mult; reflexivity).
  rewrite M, (rnd_inject_Z _ B2).
  assert (A : x1 + inject_Z ((b - a) * f) == inject_Z (a + (b - a) * f))
    by (rewrite E1, inject_Z_plus; reflexivity).
  rewrite A. apply rnd_inject_Z. exact B3.
Qed.

(** X9.  In floats [scale_line] keeps the start point and [scale_circle]
    the center.  On a line between pixels (integer coordinates up to 2^20)
    and for integer factors up to 2^10, scaling is exact: the factor 1
    returns the line, and scaling by [f] and then by [g] is scaling by
    [f * g]; the factor 1 returns every circle. *)
Theorem scale_composes_on_pixels :
  forall (a1 b1 a2 b2 f g : Z) (k : Circle),
    (Z.abs a1 <= 2 ^ 20)%Z -> (Z.abs b1 <= 2 ^ 20)%Z ->
    (Z.abs a2 <= 2 ^ 20)%Z -> (Z.abs b2 <= 2 ^ 20)%Z ->
    (Z.abs f <= 2 ^ 10)%Z -> (Z.abs g <= 2 ^ 10)%Z ->
    is_float (snd k) ->
    let l := ((inject_Z a1, inject_Z b1), (inject_Z a2, inject_Z b2)) in
    (forall s, fst (Binary64.scale_line l s) = fst l
               /\ fst (Binary64.scale_circle k s) = fst k)
    /\ Line_eq (Binary64.scale_line l 1) l
    /\ Line_eq (Binary64.scale_line (Binary64.scale_line l (inject_Z f)) (inject_Z g))
               (Binary64.scale_line l (inject_Z (f * g)))
    /\ Circle_eq (Binary64.scale_circle k 1) k.
Proof.
  intros a1 b1 a2 b2 f g [[xc yc] r] A1 B1 A2 B2 F G Fr l. cbn [snd] in Fr.
  assert (P : forall u v : Z, (Z.abs u <= 2 ^ 21)%Z -> (Z.abs v <= 2 ^ 20)%Z ->
                              (- 2 ^ 41 <= u * v <= 2 ^ 41)%Z).
  { intros u v U V. apply Z.abs_le. rewrite Z.abs_mul.
    change (2 ^ 41)%Z with (2 ^ 21 * 2 ^ 20)%Z.
    apply Z.mul_le_mono_nonneg; try apply Z.abs_nonneg; assumption. }
  assert (Fg : (Z.abs (f * g) <= 2 ^ 20)%Z).
  { rewrite Z.abs_mul. change (2 ^ 20)%Z with (2 ^ 10 * 2 ^ 10)%Z.
    apply Z.mul_le_mono_nonneg; try apply Z.abs_nonneg; assumption. }
  assert (F' : (Z.abs f <= 2 ^ 20)%Z).
  { apply Z.le_trans with (2 ^ 10)%Z; [ exact F | discriminate ]. }
  assert (One : (Z.abs 1 <= 2 ^ 20)%Z) by discriminate.
  apply Z.abs_le in A1, B1, A2, B2.
  change (2 ^ 20)%Z with 1048576%Z in A1, B1, A2, B2.
  assert (Dx : (Z.abs (a2 - a1) <= 2 ^ 21)%Z)
    by (apply Z.abs_le; change (2 ^ 21)%Z with 2097152%Z; lia).
  assert (Dy : (Z.abs (b2 - b1) <= 2 ^ 21)%Z)
    by (apply Z.abs_le; change (2 ^ 21)%Z with 2097152%Z; lia).
  pose proof (P _ _ Dx F') as Xf. pose proof (P _ _ Dy F') as Yf.
  pose proof (P _ _ Dx Fg) as Xfg. pose proof (P _ _ Dy Fg) as Yfg.
  pose proof (P _ _ Dx One) as X1. pose proof (P _ _ Dy One) as Y1.
  apply Z.abs_le in Dx, Dy.
  change (2 ^ 21)%Z with 2097152%Z in Dx, Dy.
  change (2 ^ 41)%Z with 2199023255552%Z in Xf, Yf, Xfg, Yfg, X1, Y1.
  clear P Fg F' One F G.
  assert (K : forall (a b h : Z),
             (- 1048576 <= a <= 1048576)%Z -> (- 2097152 <= b - a <= 2097152)%Z ->
             (- 2199023255552 <= (b - a) * h <= 2199023255552)%Z ->
             Binary64.add (inject_Z a)
               (Binary64.mul (Binary64.sub (inject_Z b) (inject_Z a)) (inject_Z h))
             == inject_Z (a + (b - a) * h)).
  { intros a b h Ha Hd Hp.
    apply (binary64_scale_coordinate (inject_Z a) (inject_Z b) a b h
             (Qeq_refl _) (Qeq_refl _));
      apply Z.abs_le; change (2 ^ 53)%Z with 9007199254740992%Z; lia. }
  split; [ intro s; split; reflexivity | ].
  split; [ | split ].
  - unfold l, Line_eq, Point_eq, Binary64.scale_line; cbn [fst snd].
    split; [ split; reflexivity | ].
    change 1 with (inject_Z 1).
    rewrite (K a1 a2 1%Z A1 Dx X1), (K b1 b2 1%Z B1 Dy Y1).
    split; [ replace (a1 + (a2 - a1) * 1)%Z with a2 by ring
           | replace (b1 + (b2 - b1) * 1)%Z with b2 by ring ]; reflexivity.
  - unfold l, Line_eq, Point_eq, Binary64.scale_line; cbn [fst snd].
    split; [ split; reflexivity | ].
    pose proof (K a1 a2 f A1 Dx Xf) as Sx. pose proof (K b1 b2 f B1 Dy Yf) as Sy.
    assert (Ex : ((a1 + (a2 - a1) * f - a1) * g = (a2 - a1) * (f * g))%Z) by ring.
    assert (Ey : ((b1 + (b2 - b1) * f - b1) * g = (b2 - b1) * (f * g))%Z) by ring.
    rewrite (binary64_scale_coordinate (inject_Z a1) _ a1 (a1 + (a2 - a1) * f) g
               (Qeq_refl _) Sx)
      by (try rewrite Ex; apply Z.abs_le; change (2 ^ 53)%Z with 9007199254740992%Z; lia).
    rewrite (binary64_scale_coordinate (inject_Z b1) _ b1 (b1 + (b2 - b1) * f) g
               (Qeq_refl _) Sy)
      by (try rewrite Ey; apply Z.abs_le; change (2 ^ 53)%Z with 9007199254740992%Z; lia).
    rewrite (K a1 a2 (f * g)%Z A1 Dx Xfg), (K b1 b2 (f * g)%Z B1 Dy Yfg).
    rewrite Ex, Ey. split; reflexivity.
  - unfold Circle_eq, Point_eq, Binary64.scale_circle, Binary64.mul; cbn [fst snd].
    split; [ split; reflexivity | ].
    assert (E : r * 1 == r) by ring.
    rewrite E. exact Fr.
Qed.

Lemma scale_composes_on_pixels_witness :
  (forall s, fst (Binary64.scale_line ((inject_Z 0, inject_Z 0), (inject_Z 4, inject_Z 2)) s)
             = fst ((inject_Z 0, inject_Z 0), (inject_Z 4, inject_Z 2))
             /\ fst (Binary64.scale_circle ((10, 10), Binary64.rnd (26 # 10)) s)
                = fst ((10, 10), Binary64.rnd (26 # 10)))
  /\ Line_eq (Binary64.scale_line ((inject_Z 0, inject_Z 0), (inject_Z 4, inject_Z 2)) 1)
             ((inject_Z 0, inject_Z 0), (inject_Z 4, inject_Z 2))
  /\ Line_eq (Binary64.scale_line
                (Binary64.scale_line ((inject_Z 0, inject_Z 0), (inject_Z 4, inject_Z 2))
                   (inject_Z 3)) (inject_Z 5))
             (Binary64.scale_line ((inject_Z 0, inject_Z 0), (inject_Z 4, inject_Z 2))
                (inject_Z (3 * 5)))
  /\ Circle_eq (Binary64.scale_circle ((10, 10), Binary64.rnd (26 # 10)) 1)
               ((10, 10), Binary64.rnd (26 # 10)).
Proof.
  apply (scale_composes_on_pixels 0 0 4 2 3 5 ((10, 10), Binary64.rnd (26 # 10)));
    try (vm_compute; discriminate).
  apply rnd_idem.
Defined.
